(** * thoth-solver: dependency solving for the Python ecosystem

    A shallow embedding of [thoth/solver/python/python.py] and the
    properties of its queue-driven traversal ([_do_resolve_index]), of the
    install/inspect/restore probe ([_install_requirement], [_pipdeptree])
    and of the per-index orchestration ([resolve]).

    The external collaborators (command execution, requirement parser,
    version solver, package index) are kept abstract: they are fields of an
    [Externals] record that act on an opaque [World].  Every effect of the
    program is a call to one of them, so the program is a state-and-error
    monad over the world, together with the trace of the commands it ran. *)

From Stdlib Require Import ZArith Ascii String.
From stdpp Require Import base gmap sets list strings.

Local Open Scope string_scope.
Local Open Scope list_scope.

(** ** Python helpers *)

(** [str.lower], on the ASCII letters. *)
Definition lower_ascii (c : ascii) : ascii :=
  let n := nat_of_ascii c in
  if (Nat.leb 65 n && Nat.leb n 90)%bool then ascii_of_nat (n + 32) else c.

Fixpoint lower (s : string) : string :=
  match s with
  | EmptyString => EmptyString
  | String c s' => String (lower_ascii c) (lower s')
  end.

(** The double-quote character, and [shlex.quote]. *)
Definition dquote : string := String (ascii_of_nat 34) EmptyString.
Definition squote : string := String (ascii_of_nat 39) EmptyString.

(** The characters [shlex.quote] leaves alone: [\w@%+=:,./-] (ASCII). *)
Definition shell_safe (c : ascii) : bool :=
  let n := nat_of_ascii c in
  ((Nat.leb 48 n && Nat.leb n 57) || (Nat.leb 65 n && Nat.leb n 90)
   || (Nat.leb 97 n && Nat.leb n 122) || Nat.eqb n 95
   || Nat.eqb n 64 || Nat.eqb n 37 || Nat.eqb n 43 || Nat.eqb n 61
   || Nat.eqb n 58 || Nat.eqb n 44 || Nat.eqb n 46 || Nat.eqb n 47
   || Nat.eqb n 45)%bool.

Fixpoint all_shell_safe (s : string) : bool :=
  match s with
  | EmptyString => true
  | String c s' => (shell_safe c && all_shell_safe s')%bool
  end.

(** [s.replace("'", "'\"'\"'")] *)
Fixpoint escape_squotes (s : string) : string :=
  match s with
  | EmptyString => EmptyString
  | String c s' =>
      if Nat.eqb (nat_of_ascii c) 39
      then squote +:+ dquote +:+ squote +:+ dquote +:+ squote +:+ escape_squotes s'
      else String c (escape_squotes s')
  end.

Definition quote (s : string) : string :=
  match s with
  | EmptyString => squote +:+ squote
  | _ => if all_shell_safe s then s else squote +:+ escape_squotes s +:+ squote
  end.

(** Truthiness of a string, and [x or ''] on an optional string. *)
Definition truthy (s : string) : bool :=
  match s with EmptyString => false | _ => true end.

Definition or_empty (s : option string) : string :=
  match s with Some s' => s' | None => "" end.

(** ** Data *)

(** What [pipdeptree --json] prints: a list of these. *)
Record PipPackage := {
  pip_key : string;
  pip_package_name : string;
  pip_installed_version : string }.

Record PipDependency := {
  pd_key : string;
  pd_package_name : string;
  pd_installed_version : string;
  pd_required_version : option string }.

Record PipEntry := {
  pip_package : PipPackage;
  pip_dependencies : list PipDependency }.

(** The result of [run_command]. *)
Record CommandResult := {
  return_code : Z;
  stdout : list PipEntry }.

(** Exceptions, by what raises them. *)
Inductive exn :=
| AssertionError (msg : string)
| CommandError (cmd : string) (code : Z)
| TypeError (msg : string)
| SourceError (details : string).

(** [Source(index_url)] and [PythonSolver(fetcher_kwargs={'source': source})]. *)
Record Source := { url : string }.
Record PythonSolver := { release_fetcher_source : Source }.

Definition solver_of (index_url : string) : PythonSolver :=
  {| release_fetcher_source := {| url := index_url |} |}.

(** What [PythonDependencyParser.parse_python] returns. *)
Record ParsedDependency := {
  name : string;
  spec : list (string * string) }.

(** What [solver.solve] does: raise [NotFound], raise something else, or
    return a mapping from package name to versions (a dict, listed in
    insertion order with distinct keys). *)
Inductive SolveResult :=
| SolveNotFound
| SolveException
| SolveMapping (mapping : list (string * list string)).

(** The records of a pass's result. *)
Record ResolvedVersions := {
  versions : list string;
  index : string }.

Record Dependency := {
  dep_package_name : string;
  dep_required_version : option string;
  (** [None] while the key is absent from the dict *)
  dep_resolved_versions : option (list ResolvedVersions) }.

Record Entry := {
  package_name : string;
  package_version : string;
  index_url : option string;
  sha256 : option (list string);
  dependencies : list Dependency }.

Definition with_dependencies (deps : list Dependency) (entry : Entry) : Entry :=
  {| package_name := package_name entry; package_version := package_version entry;
     index_url := index_url entry; sha256 := sha256 entry; dependencies := deps |}.

Inductive ErrorDetails :=
| CommandErrorDict (cmd : string) (code : Z)
| Message (message : string).

Record ErrorRecord := {
  err_package_name : string;
  err_index : string;
  err_version : string;
  err_type : string;
  err_details : ErrorDetails }.

Record Unresolved := {
  unres_package_name : string;
  unres_version_spec : string;
  unres_index : string }.

Record Unparsed := {
  requirement : string;
  details : string }.

Record PassResult := {
  tree : list Entry;
  errors : list ErrorRecord;
  unparsed : list Unparsed;
  unresolved : list Unresolved;
  environment : list Entry }.

(** What [_pipdeptree] returns: the whole output when no package name
    was given, the entry found, or [None]. *)
Inductive PipdeptreeResult :=
| WholeOutput (output : list PipEntry)
| FoundEntry (entry : PipEntry)
| NoEntry.

(** ** Effects *)

(** What the program leaves behind: the commands it ran and the
    [_LOGGER.info] line of each package it starts to discover. *)
Inductive event :=
| Run (cmd : string)
| Discover (index_url package_name package_version : string).

Inductive outcome (A : Type) :=
| Return (a : A)
| Raise (e : exn)
| OutOfFuel.
Arguments Return {A} a.
Arguments Raise {A} e.
Arguments OutOfFuel {A}.

(** The collaborators.  [parse_python] fails with the text [str(exc)] of
    its exception, [get_package_hashes] with the details of its own. *)
Record Externals (World : Type) := {
  run_process : string → World → World * CommandResult;
  parse_python : string → World → World * (string + ParsedDependency);
  solve : Source → string → World → World * SolveResult;
  get_package_hashes : Source → string → string → World → World * (string + list string) }.
Arguments run_process {World}.
Arguments parse_python {World}.
Arguments solve {World}.
Arguments get_package_hashes {World}.

Record State (World : Type) := {
  world : World;
  trace : list event }.
Arguments world {World}.
Arguments trace {World}.

(** The variables of [_do_resolve_index] that its loops update.  The
    deque [queue] is kept with its right end first: [append] is a cons
    and [pop] takes the head. *)
Record Locals := {
  packages_seen : gset (string * string);
  packages : list Entry;
  l_errors : list ErrorRecord;
  l_unresolved : list Unresolved;
  l_unparsed : list Unparsed;
  queue : list (string * string) }.

Section Python.

Context {World : Type}.
Variable ext : Externals World.

Definition M (A : Type) : Type := State World → State World * outcome A.

Definition ret {A} (a : A) : M A := fun st => (st, Return a).
Definition raise {A} (e : exn) : M A := fun st => (st, Raise e).
Definition out_of_fuel {A} : M A := fun st => (st, OutOfFuel).

Definition bind {A B} (m : M A) (f : A → M B) : M B :=
  fun st =>
    match m st with
    | (st', Return a) => f a st'
    | (st', Raise e) => (st', Raise e)
    | (st', OutOfFuel) => (st', OutOfFuel)
    end.

Notation "x <- m ;; k" := (bind m (fun x => k))
  (at level 20, m at level 99, k at level 200, only parsing).

(** A [for] loop that threads an accumulator. *)
Fixpoint for_each {A S} (l : list A) (body : S → A → M S) (s : S) : M S :=
  match l with
  | [] => ret s
  | x :: l' => s' <- body s x ;; for_each l' body s'
  end.

Definition log (e : event) : M unit :=
  fun st => ({| world := world st; trace := trace st ++ [e] |}, Return tt).

(** [run_command(cmd, raise_on_error=...)]: runs the process and raises
    [CommandError] on a non-zero exit unless told not to. *)
Definition run_command (cmd : string) (raise_on_error : bool) : M CommandResult :=
  fun st =>
    let (w', result) := run_process ext cmd (world st) in
    let st' := {| world := w'; trace := trace st ++ [Run cmd] |} in
    if (raise_on_error && negb (Z.eqb (return_code result) 0%Z))%bool
    then (st', Raise (CommandError cmd (return_code result)))
    else (st', Return result).

Definition call {A} (f : World → World * A) : M A :=
  fun st =>
    let (w', a) := f (world st) in
    ({| world := w'; trace := trace st |}, Return a).

(** [try: m except CommandError as exc: ...], giving the caught [exc]. *)
Definition try_CommandError {A} (m : M A) : M (string * Z + A) :=
  fun st =>
    match m st with
    | (st', Return a) => (st', Return (inr a))
    | (st', Raise (CommandError cmd code)) => (st', Return (inl (cmd, code)))
    | (st', Raise e) => (st', Raise e)
    | (st', OutOfFuel) => (st', OutOfFuel)
    end.

(** A generator-based context manager with one [yield] that is not inside
    a [try]: the code before the [yield] and the code after it.  When the
    body of the [with] raises, the exception is thrown into the generator
    at the [yield] and leaves it at once. *)
Definition with_ {A B} (before_yield : M A) (after_yield : A → M unit)
    (body : M B) : M B :=
  a <- before_yield ;;
  b <- body ;;
  _r <- after_yield a ;;
  ret b.

(** ** The source *)

(** The dependency dicts of an inventory entry, once [key] and
    [installed_version] are popped. *)
Definition dependency_records (entry : PipEntry) : list Dependency :=
  map (fun d => {| dep_package_name := pd_package_name d;
                   dep_required_version := pd_required_version d;
                   dep_resolved_versions := None |})
      (pip_dependencies entry).

Definition _create_entry (entry : PipEntry) (source : option Source) : M Entry :=
  let package_name := pip_package_name (pip_package entry) in
  let package_version := pip_installed_version (pip_package entry) in
  let dependencies := dependency_records entry in
  match source with
  | Some src =>
      hashes <- (fun st =>
        match get_package_hashes ext src package_name package_version (world st) with
        | (w', inr hs) => ({| world := w'; trace := trace st |}, Return hs)
        | (w', inl d) => ({| world := w'; trace := trace st |}, Raise (SourceError d))
        end) ;;
      ret {| package_name := package_name; package_version := package_version;
             index_url := Some (url src); sha256 := Some hashes;
             dependencies := dependencies |}
  | None =>
      ret {| package_name := package_name; package_version := package_version;
             index_url := None; sha256 := None;
             dependencies := dependencies |}
  end.

Definition _get_environment_details (python_bin : string) : M (list Entry) :=
  let cmd := python_bin +:+ " -m pipdeptree --json" in
  result <- run_command cmd true ;;
  for_each (stdout result)
    (fun acc entry => e <- _create_entry entry None ;; ret (acc ++ [e])) [].

Definition _pipdeptree (python_bin : string) (package_name : string) : M PipdeptreeResult :=
  let cmd := python_bin +:+ " -m pipdeptree --json" in
  result <- run_command cmd true ;;
  let output := stdout result in
  if negb (truthy package_name) then ret (WholeOutput output)
  else
    match List.find (fun entry =>
            String.eqb (lower (pip_key (pip_package entry))) (lower package_name))
            output with
    | Some entry => ret (FoundEntry entry)
    | None => ret NoEntry
    end.

(** [previous_version['package']['installed_version']] *)
Definition previous_installed_version (previous_version : PipdeptreeResult) : M string :=
  match previous_version with
  | FoundEntry entry => ret (pip_installed_version (pip_package entry))
  | WholeOutput _ => raise (TypeError "list indices must be integers or slices, not str")
  | NoEntry => raise (TypeError "'NoneType' object is not subscriptable")
  end.

Definition pipdeptree_truthy (r : PipdeptreeResult) : bool :=
  match r with
  | WholeOutput [] => false
  | WholeOutput _ => true
  | FoundEntry _ => true
  | NoEntry => false
  end.

(** The part of [_install_requirement] before its [yield]. *)
Definition _install_requirement_enter (python_bin package : string)
    (version index_url : option string) : M PipdeptreeResult :=
  previous_version <- _pipdeptree python_bin package ;;
  let cmd := python_bin +:+ " -m pip install --force-reinstall --no-cache-dir --no-deps "
             +:+ quote package in
  let cmd := match version with
             | Some v => if truthy v then cmd +:+ "==" +:+ quote v else cmd
             | None => cmd
             end in
  let cmd := match index_url with
             | Some u => if truthy u
                         then cmd +:+ " --index-url " +:+ dquote +:+ quote u +:+ dquote +:+ " "
                         else cmd
             | None => cmd
             end in
  _r <- run_command cmd true ;;
  ret previous_version.

(** The part of [_install_requirement] after its [yield]. *)
Definition _install_requirement_exit (python_bin package : string) (clean : bool)
    (previous_version : PipdeptreeResult) : M unit :=
  if negb clean then ret tt
  else if pipdeptree_truthy previous_version then
    v <- previous_installed_version previous_version ;;
    let cmd := python_bin +:+ " -m pip install --force-reinstall --no-cache-dir --no-deps "
               +:+ quote package +:+ "==" +:+ quote v in
    _r <- run_command cmd false ;;
    ret tt
  else
    let cmd := python_bin +:+ " -m pip uninstall --yes " +:+ quote package in
    _r <- run_command cmd false ;;
    ret tt.

Definition _install_requirement {B} (python_bin package : string)
    (version index_url : option string) (clean : bool) (body : M B) : M B :=
  with_ (_install_requirement_enter python_bin package version index_url)
        (_install_requirement_exit python_bin package clean)
        body.

Definition _get_dependency_specification (dep_spec : list (string * string)) : string :=
  String.concat "," (map (fun dep_range => fst dep_range +:+ snd dep_range) dep_spec).

Definition multiple_packages : string :=
  "Resolution of one package version ended with multiple packages.".

Definition _resolve_versions (solver : PythonSolver) (source : Source)
    (package_name : string) (version_spec : option string) : M (list string) :=
  r <- call (solve ext (release_fetcher_source solver)
                   (package_name +:+ or_empty version_spec)) ;;
  match r with
  | SolveNotFound => ret []
  | SolveException => ret []
  | SolveMapping [(_, vs)] => ret vs
  | SolveMapping _ =>
      raise (AssertionError multiple_packages)
  end.

(** Updates of the local variables. *)
Definition add_unparsed (u : Unparsed) (l : Locals) : Locals :=
  {| packages_seen := packages_seen l; packages := packages l; l_errors := l_errors l;
     l_unresolved := l_unresolved l; l_unparsed := l_unparsed l ++ [u]; queue := queue l |}.

Definition add_unresolved (u : Unresolved) (l : Locals) : Locals :=
  {| packages_seen := packages_seen l; packages := packages l; l_errors := l_errors l;
     l_unresolved := l_unresolved l ++ [u]; l_unparsed := l_unparsed l; queue := queue l |}.

Definition add_error (e : ErrorRecord) (l : Locals) : Locals :=
  {| packages_seen := packages_seen l; packages := packages l; l_errors := l_errors l ++ [e];
     l_unresolved := l_unresolved l; l_unparsed := l_unparsed l; queue := queue l |}.

Definition add_package (e : Entry) (l : Locals) : Locals :=
  {| packages_seen := packages_seen l; packages := packages l ++ [e]; l_errors := l_errors l;
     l_unresolved := l_unresolved l; l_unparsed := l_unparsed l; queue := queue l |}.

(** [packages_seen.add(entry); queue.append(entry)] *)
Definition enqueue (entry : string * string) (l : Locals) : Locals :=
  {| packages_seen := {[entry]} ∪ packages_seen l; packages := packages l;
     l_errors := l_errors l; l_unresolved := l_unresolved l; l_unparsed := l_unparsed l;
     queue := entry :: queue l |}.

(** [queue.pop()] has taken the head. *)
Definition popped (l : Locals) : Locals :=
  {| packages_seen := packages_seen l; packages := packages l; l_errors := l_errors l;
     l_unresolved := l_unresolved l; l_unparsed := l_unparsed l; queue := tail (queue l) |}.

(** The body of the loop over [requirements] (lines 184-211). *)
Definition seed_requirement (solver : PythonSolver) (exclude_packages : gset string)
    (l : Locals) (requirement : string) : M Locals :=
  let index_url := url (release_fetcher_source solver) in
  let source := release_fetcher_source solver in
  parsed <- call (parse_python ext requirement) ;;
  match parsed with
  | inl exc_str =>
      ret (add_unparsed {| requirement := requirement; details := exc_str |} l)
  | inr dependency =>
      if decide (name dependency ∈ exclude_packages) then ret l
      else
        let version_spec := _get_dependency_specification (spec dependency) in
        resolved_versions <-
          _resolve_versions solver source (name dependency) (Some version_spec) ;;
        match resolved_versions with
        | [] =>
            ret (add_unresolved {| unres_package_name := name dependency;
                                   unres_version_spec := version_spec;
                                   unres_index := index_url |} l)
        | _ =>
            ret (fold_left (fun l version => enqueue (name dependency, version) l)
                           resolved_versions l)
        end
  end.

(** The loop over the versions resolved for a dependency (lines 284-289). *)
Definition admit_versions (dependency_name : string) (resolved_versions : list string)
    (l : Locals) : Locals :=
  fold_left (fun l version =>
               let seen_entry := (dependency_name, version) in
               if decide (seen_entry ∈ packages_seen l) then l
               else enqueue (dependency_name, version) l)
            resolved_versions l.

(** The body of the loop over [all_solvers] (lines 266-289). *)
Definition resolve_at_index (source : Source) (transitive : bool)
    (dependency_name : string) (dependency_range : option string)
    (acc : Locals * list ResolvedVersions) (dep_solver : PythonSolver)
    : M (Locals * list ResolvedVersions) :=
  resolved_versions <-
    _resolve_versions dep_solver source dependency_name dependency_range ;;
  let rvs := snd acc ++ [{| versions := resolved_versions;
                            index := url (release_fetcher_source dep_solver) |}] in
  if negb transitive then ret (fst acc, rvs)
  else ret (admit_versions dependency_name resolved_versions (fst acc), rvs).

(** The body of the loop over [entry['dependencies']] (lines 262-289).  The
    dependency dict is updated in place; the second component collects the
    dicts in their final state. *)
Definition resolve_dependency (all_solvers : list PythonSolver) (source : Source)
    (transitive : bool) (acc : Locals * list Dependency) (dependency : Dependency)
    : M (Locals * list Dependency) :=
  let dependency_name := dep_package_name dependency in
  let dependency_range := dep_required_version dependency in
  r <- for_each all_solvers
         (resolve_at_index source transitive dependency_name dependency_range)
         (fst acc, []) ;;
  ret (fst r,
       snd acc ++ [{| dep_package_name := dependency_name;
                      dep_required_version := dependency_range;
                      dep_resolved_versions := Some (snd r) |}]).

(** The body of the [while queue] loop (lines 216-289), after the [pop].
    [packages] holds a reference to [entry], whose dependencies are then
    filled in place: the entry is listed here in its final state. *)
Definition discover (solver : PythonSolver) (all_solvers : list PythonSolver)
    (python_bin : string) (transitive : bool)
    (package_name package_version : string) (l : Locals) : M Locals :=
  let index_url := url (release_fetcher_source solver) in
  let source := release_fetcher_source solver in
  _r <- log (Discover index_url package_name package_version) ;;
  r <- try_CommandError
         (_install_requirement python_bin package_name (Some package_version)
            (Some index_url) true
            (_pipdeptree python_bin package_name)) ;;
  match r with
  | inl (cmd, code) =>
      ret (add_error {| err_package_name := package_name; err_index := index_url;
                        err_version := package_version; err_type := "command_error";
                        err_details := CommandErrorDict cmd code |} l)
  | inr NoEntry =>
      ret (add_error {| err_package_name := package_name; err_index := index_url;
                        err_version := package_version; err_type := "not_site_package";
                        err_details := Message
  "Failed to get information about installed package, probably not site package" |} l)
  | inr (WholeOutput _) =>
      raise (TypeError "list indices must be integers or slices, not str")
  | inr (FoundEntry package_info) =>
      entry <- _create_entry package_info (Some source) ;;
      r <- for_each (dependencies entry)
             (resolve_dependency all_solvers source transitive) (l, []) ;;
      ret (add_package (with_dependencies (snd r) entry) (fst r))
  end.

(** [while queue: ...] *)
Fixpoint drain (fuel : nat) (solver : PythonSolver) (all_solvers : list PythonSolver)
    (python_bin : string) (transitive : bool) (l : Locals) : M Locals :=
  match queue l with
  | [] => ret l
  | (package_name, package_version) :: _ =>
      match fuel with
      | O => out_of_fuel
      | S fuel' =>
          l' <- discover solver all_solvers python_bin transitive
                  package_name package_version (popped l) ;;
          drain fuel' solver all_solvers python_bin transitive l'
      end
  end.

Definition initial_locals : Locals :=
  {| packages_seen := ∅; packages := []; l_errors := []; l_unresolved := [];
     l_unparsed := []; queue := [] |}.

Definition _do_resolve_index (fuel : nat) (solver : PythonSolver)
    (all_solvers : list PythonSolver) (requirements : list string)
    (python_version : Z) (exclude_packages : gset string) (transitive : bool)
    : M PassResult :=
  let python_bin := if Z.eqb python_version 3 then "python3" else "python2" in
  _r <- run_command "virtualenv -p python3 venv" true ;;
  let python_bin := "venv/bin/" +:+ python_bin in
  _r <- run_command (python_bin +:+ " -m pip install pipdeptree") true ;;
  l <- for_each requirements (seed_requirement solver exclude_packages) initial_locals ;;
  environment_details <- _get_environment_details python_bin ;;
  l <- drain fuel solver all_solvers python_bin transitive l ;;
  ret {| tree := packages l; errors := l_errors l; unparsed := l_unparsed l;
         unresolved := l_unresolved l; environment := environment_details |}.

Definition resolve (fuel : nat) (requirements : list string) (index_urls : list string)
    (python_version : Z) (exclude_packages : gset string) (transitive : bool)
    : M (list PassResult) :=
  if negb (Z.eqb python_version 2 || Z.eqb python_version 3)%bool
  then raise (AssertionError "Unknown Python version")
  else
    let all_solvers := map solver_of index_urls in
    for_each all_solvers
      (fun result solver =>
         r <- _do_resolve_index fuel solver all_solvers requirements python_version
                exclude_packages transitive ;;
         ret (result ++ [r]))
      [].

End Python.


(** [_filter_package_dependencies]: the dict from the name of each
    dependency of an entry to its required version; a later dependency of
    the same name overwrites an earlier one.  The dict is kept as a finite
    map: the order of its keys is not modelled. *)
Definition _filter_package_dependencies (package_info : PipEntry)
    : gmap string (option string) :=
  foldl (fun dependencies dependency =>
           <[pd_package_name dependency := pd_required_version dependency]> dependencies)
        ∅ (pip_dependencies package_info).

Arguments M World A : clear implicits.

(** ** A scripted world

    Concrete collaborators for running the program.  The world is the
    list of the commands run so far, latest first; [respond] answers a
    command from it.  The parser, the solver and the index are pure
    functions. *)
Module Script.

Definition ok (output : list PipEntry) : CommandResult :=
  {| return_code := 0; stdout := output |}.
Definition failed : CommandResult := {| return_code := 1; stdout := [] |}.

Definition externals (respond : list string → string → CommandResult)
    (parse : string → string + ParsedDependency)
    (solver : Source → string → SolveResult)
    (hashes : Source → string → string → string + list string)
    : Externals (list string) :=
  {| run_process := fun cmd w => (cmd :: w, respond w cmd);
     parse_python := fun r w => (w, parse r);
     solve := fun s r w => (w, solver s r);
     get_package_hashes := fun s n v w => (w, hashes s n v) |}.

Definition start : State (list string) := {| world := []; trace := [] |}.

(** A requirement without specifier parses to its name. *)
Definition parse_name (r : string) : string + ParsedDependency :=
  match r with
  | EmptyString => inl "empty requirement"
  | _ => inr {| name := r; spec := [] |}
  end.

Definition no_hashes (s : Source) (n v : string) : string + list string := inr [].

(** Every listed requirement resolves to version 1.0, at every index. *)
Definition one_version (known : list string) (s : Source) (r : string) : SolveResult :=
  if bool_decide (r ∈ known) then SolveMapping [(r, ["1.0"])] else SolveNotFound.

Definition installed (n v : string) (deps : list string) : PipEntry :=
  {| pip_package := {| pip_key := lower n; pip_package_name := n;
                       pip_installed_version := v |};
     pip_dependencies :=
       map (fun d => {| pd_key := lower d; pd_package_name := d;
                        pd_installed_version := "?"; pd_required_version := None |})
           deps |}.

Definition install_of (n : string) : string :=
  "venv/bin/python3 -m pip install --force-reinstall --no-cache-dir --no-deps "
  +:+ n +:+ "==".

(** Every command succeeds; right after the install of a package of
    [table] the inventory lists its entry, otherwise it is empty. *)
Definition inventory (table : list (string * PipEntry)) (w : list string) (cmd : string)
    : CommandResult :=
  match w with
  | prev :: _ =>
      match List.find (fun p => String.prefix (install_of (fst p)) prev) table with
      | Some p => ok [snd p]
      | None => ok []
      end
  | [] => ok []
  end.

(** The inventory command fails right after an install. *)
Definition inspection_fails (w : list string) (cmd : string) : CommandResult :=
  match w with
  | prev :: _ =>
      if (String.prefix "venv/bin/python3 -m pip install --force-reinstall" prev
          && String.eqb cmd "venv/bin/python3 -m pipdeptree --json")%bool
      then failed else ok []
  | [] => ok []
  end.

(** The creation of the environment fails. *)
Definition virtualenv_fails (w : list string) (cmd : string) : CommandResult :=
  if String.eqb cmd "virtualenv -p python3 venv" then failed else ok [].

Definition pypi : string := "https://pypi.org/simple".
Definition mirror : string := "https://mirror.example/simple".

(** [foo] installs, then the inspection fails. *)
Definition broken_inspection : Externals (list string) :=
  externals inspection_fails parse_name (one_version ["foo"]) no_hashes.

(** [foo] has one version and no dependency. *)
Definition single_package : Externals (list string) :=
  externals (inventory [("foo", installed "foo" "1.0" [])]) parse_name
            (one_version ["foo"]) no_hashes.

(** [app] depends on [Foo] and on [foo]. *)
Definition mixed_case : Externals (list string) :=
  externals (inventory [("app", installed "app" "1.0" ["Foo"; "foo"]);
                        ("Foo", installed "foo" "1.0" []);
                        ("foo", installed "foo" "1.0" [])])
            parse_name (one_version ["app"; "Foo"; "foo"]) no_hashes.

(** [a] depends on [b]. *)
Definition a_needs_b : Externals (list string) :=
  externals (inventory [("a", installed "a" "1.0" ["b"]); ("b", installed "b" "1.0" [])])
            parse_name (one_version ["a"; "b"]) no_hashes.

(** What a pass over [a_needs_b] returns for the requirement [a]. *)
Definition b_of_a (index_urls : list string) : Dependency :=
  {| dep_package_name := "b"; dep_required_version := None;
     dep_resolved_versions :=
       Some (map (fun u => {| versions := ["1.0"]; index := u |}) index_urls) |}.

Definition entry_a (idx : string) (index_urls : list string) : Entry :=
  {| package_name := "a"; package_version := "1.0"; index_url := Some idx;
     sha256 := Some []; dependencies := [b_of_a index_urls] |}.

Definition entry_b (idx : string) : Entry :=
  {| package_name := "b"; package_version := "1.0"; index_url := Some idx;
     sha256 := Some []; dependencies := [] |}.

Definition only_a (idx : string) (index_urls : list string) : PassResult :=
  {| tree := [entry_a idx index_urls]; errors := []; unparsed := []; unresolved := [];
     environment := [] |}.

Definition a_and_b (idx : string) (index_urls : list string) : PassResult :=
  {| tree := [entry_a idx index_urls; entry_b idx]; errors := []; unparsed := [];
     unresolved := []; environment := [] |}.

(** What a pass over [single_package] returns for an unparsable and an
    unknown requirement. *)
Definition nothing_queued (idx : string) : PassResult :=
  {| tree := []; errors := [];
     unparsed := [ {| requirement := ""; details := "empty requirement" |} ];
     unresolved := [ {| unres_package_name := "zzz"; unres_version_spec := "";
                        unres_index := idx |} ];
     environment := [] |}.

(** The locals with just these pairs queued and seen. *)
Definition queued (pairs : list (string * string)) : Locals :=
  {| packages_seen := list_to_set pairs; packages := []; l_errors := [];
     l_unresolved := []; l_unparsed := []; queue := pairs |}.

(** The state right after the install of [foo] 1.0. *)
Definition foo_installed : State (list string) :=
  {| world := [install_of "foo" +:+ "1.0"]; trace := [] |}.

Definition no_environment : Externals (list string) :=
  externals virtualenv_fails parse_name (one_version ["foo"]) no_hashes.

End Script.

(** ** Properties *)

(** A command run through the environment's interpreter. *)
Definition runs_with (python_bin : string) (ev : event) : Prop :=
  ∃ rest, ev = Run (python_bin +:+ " -m " +:+ rest).

(** The interpreter of the environment that a pass uses. *)
Definition interpreter (python_version : Z) : string :=
  "venv/bin/" +:+ (if Z.eqb python_version 3 then "python3" else "python2").

(** An event of a pass after the environment is created: a command run
    through the interpreter, or the log line of a discovery. *)
Definition pass_event (python_bin : string) (ev : event) : Prop :=
  match ev with
  | Run cmd => ∃ rest, cmd = python_bin +:+ " -m " +:+ rest
  | Discover _ _ _ => True
  end.

(** The commands of a pass that run outside the [try] of the traversal. *)
Definition setup_commands (python_bin : string) : list string :=
  [ "virtualenv -p python3 venv";
    python_bin +:+ " -m pip install pipdeptree";
    python_bin +:+ " -m pipdeptree --json" ].

(** The pairs whose discovery the trace records, in order. *)
Definition discovered (evs : list event) : list (string * string) :=
  omap (fun ev => match ev with
                  | Discover _ n v => Some (n, v)
                  | Run _ => None
                  end) evs.

(** [admits P l l']: [l'] is [l] after some pairs, each new to the
    visited-set and satisfying [P], were added to the set and the queue. *)
Inductive admits (P : string * string → Prop) : Locals → Locals → Prop :=
| admits_refl l : admits P l l
| admits_step l l' k :
    admits P l l' → k ∉ packages_seen l' → P k → admits P l (enqueue k l').

(** [seeds P l l']: [l'] is [l] after the loop over the requirements
    recorded some of them as unparsed or unresolved and queued pairs
    satisfying [P] (without looking at the visited-set). *)
Inductive seeds (P : string * string → Prop) : Locals → Locals → Prop :=
| seeds_refl l : seeds P l l
| seeds_unparsed l l' u : seeds P l l' → seeds P l (add_unparsed u l')
| seeds_unresolved l l' u : seeds P l l' → seeds P l (add_unresolved u l')
| seeds_enqueue l l' k : seeds P l l' → P k → seeds P l (enqueue k l').

(** Every version listed in the [resolved_versions] of the entry's
    dependencies is, with the dependency's name, in the visited-set. *)
Definition versions_seen (l : Locals) (entry : Entry) : Prop :=
  ∀ d rvs rv v,
    d ∈ dependencies entry → dep_resolved_versions d = Some rvs →
    rv ∈ rvs → v ∈ versions rv → (dep_package_name d, v) ∈ packages_seen l.

(** A dependency record with one [resolved_versions] element per index,
    in the order of the indices. *)
Definition cross_resolved (index_urls : list string) (d : Dependency) : Prop :=
  ∃ rvs, dep_resolved_versions d = Some rvs ∧ map index rvs = index_urls.

(** The termination measure of the traversal, for a pool [U] of pairs. *)
Definition remaining (U : gset (string * string)) (l : Locals) : nat :=
  length (queue l) + size (U ∖ packages_seen l).

(** [post m R]: from every state, [m] extends the trace by some events
    [evs] and ends with an outcome [o] such that [R evs o].  The world is
    arbitrary, so [R] speaks about what the program did and returned, and
    about where the collaborators' answers came from. *)
Section Properties.

Context {World : Type}.
Variable ext : Externals World.

Definition post {A} (m : M World A) (R : list event → outcome A → Prop) : Prop :=
  ∀ st, ∃ evs, trace (m st).1 = trace st ++ evs ∧ R evs (m st).2.

(** What has to hold after [m] for [R] to hold after [bind m k]. *)
Definition after {A B} (R : list event → outcome B → Prop) (k : A → M World B)
    (evs : list event) (o : outcome A) : Prop :=
  match o with
  | Return a => post (k a) (fun evs' o' => R (evs ++ evs') o')
  | Raise e => R evs (Raise e)
  | OutOfFuel => R evs OutOfFuel
  end.

(** Where the collaborators' answers come from. *)

(** At some world the command exits with this non-zero code. *)
Definition command_fails (cmd : string) (code : Z) : Prop :=
  ∃ w, return_code (run_process ext cmd w).2 = code ∧ code ≠ 0%Z.

(** At some world the inventory lists this entry. *)
Definition inventory_entry (entry : PipEntry) : Prop :=
  ∃ cmd w, entry ∈ stdout (run_process ext cmd w).2.

(** At some world the index resolves the range to these versions. *)
Definition resolved_by (source : Source) (package_name : string)
    (version_spec : option string) (vs : list string) : Prop :=
  ∃ w key, (solve ext source (package_name +:+ or_empty version_spec) w).2
           = SolveMapping [(key, vs)].

(** At some world a solver answers with none or several packages. *)
Definition ambiguous_resolution : Prop :=
  ∃ source r w mapping,
    (solve ext source r w).2 = SolveMapping mapping ∧ length mapping ≠ 1.

(** At some world the hash lookup raises. *)
Definition hashes_fail (d : string) : Prop :=
  ∃ source n v w, (get_package_hashes ext source n v w).2 = inl d.

(** At some world the parser returns this dependency for the requirement. *)
Definition parses_to (requirement : string) (dependency : ParsedDependency) : Prop :=
  ∃ w, (parse_python ext requirement w).2 = inr dependency.

(** A pair that a seed requirement resolves to at the pass's own index. *)
Definition seed_key (requirements : list string) (exclude_packages : gset string)
    (source : Source) (k : string * string) : Prop :=
  ∃ requirement dependency vs,
    requirement ∈ requirements ∧ parses_to requirement dependency ∧
    (name dependency ∉ exclude_packages) ∧ k.1 = name dependency ∧
    resolved_by source (name dependency)
      (Some (_get_dependency_specification (spec dependency))) vs ∧
    k.2 ∈ vs.

(** A pair that a dependency of an inventory entry resolves to at some index. *)
Definition dependency_key (k : string * string) : Prop :=
  ∃ entry d source vs,
    inventory_entry entry ∧ d ∈ pip_dependencies entry ∧ k.1 = pd_package_name d ∧
    resolved_by source (pd_package_name d) (pd_required_version d) vs ∧ k.2 ∈ vs.

(** One [resolved_versions] element, for the solver it came from; [l] are
    the locals once it is attached. *)
Definition resolved_at (transitive : bool) (l : Locals) (d : Dependency)
    (solver : PythonSolver) (rv : ResolvedVersions) : Prop :=
  index rv = url (release_fetcher_source solver) ∧
  (versions rv = [] ∨
   resolved_by (release_fetcher_source solver) (dep_package_name d)
     (dep_required_version d) (versions rv)) ∧
  (transitive = true →
   ∀ v, v ∈ versions rv → (dep_package_name d, v) ∈ packages_seen l).

(** The dependency record [d'] that the expansion makes of [d]. *)
Definition expanded (transitive : bool) (all_solvers : list PythonSolver) (l : Locals)
    (d d' : Dependency) : Prop :=
  dep_package_name d' = dep_package_name d ∧
  dep_required_version d' = dep_required_version d ∧
  ∃ rvs, dep_resolved_versions d' = Some rvs ∧
         Forall2 (resolved_at transitive l d) all_solvers rvs.

(** A pair that one of these dependencies resolves to at some index. *)
Definition resolution_key (deps : list Dependency) (k : string * string) : Prop :=
  ∃ d source vs,
    d ∈ deps ∧ k.1 = dep_package_name d ∧
    resolved_by source (dep_package_name d) (dep_required_version d) vs ∧ k.2 ∈ vs.

(** What the expansion can raise. *)
Definition resolution_raises (e : exn) : Prop :=
  e = AssertionError multiple_packages ∧ ambiguous_resolution.

(** What the body of the traversal loop can raise, for the package popped. *)
Definition discover_raises (package_name : string) (e : exn) : Prop :=
  match e with
  | TypeError _ => package_name = ""
  | SourceError d => hashes_fail d
  | AssertionError _ => resolution_raises e
  | CommandError _ _ => False
  end.

(** What one turn of the traversal loop makes of the locals [l] (after
    the pop): an error record, or an entry with its dependencies expanded
    and, in transitive mode, their new versions admitted. *)
Definition discovers (transitive : bool) (all_solvers : list PythonSolver)
    (idx n v : string) (l l' : Locals) : Prop :=
  (∃ err, l' = add_error err l ∧ err_package_name err = n ∧
          err_version err = v ∧ err_index err = idx) ∨
  (∃ info entry l1,
     inventory_entry info ∧ lower (pip_key (pip_package info)) = lower n ∧
     l' = add_package entry l1 ∧
     package_name entry = pip_package_name (pip_package info) ∧
     package_version entry = pip_installed_version (pip_package info) ∧
     index_url entry = Some idx ∧
     Forall2 (expanded transitive all_solvers l1)
             (dependency_records info) (dependencies entry) ∧
     if transitive then admits (resolution_key (dependency_records info)) l l1
     else l1 = l).

(** An entry made from the inventory entry that matched (without regard
    to letter case) the name of a pair satisfying [P]. *)
Definition entry_of (P : string * string → Prop) (e : Entry) : Prop :=
  ∃ k info,
    P k ∧ inventory_entry info ∧ lower (pip_key (pip_package info)) = lower k.1 ∧
    package_name e = pip_package_name (pip_package info) ∧
    package_version e = pip_installed_version (pip_package info).

(** A pair that the traversal of a pass may queue: a seed, or in
    transitive mode a resolved dependency. *)
Definition queued_key (requirements : list string) (exclude_packages : gset string)
    (source : Source) (transitive : bool) (k : string * string) : Prop :=
  seed_key requirements exclude_packages source k ∨
  (transitive = true ∧ dependency_key k).

(** What a pass can raise before its traversal loop. *)
Definition setup_raises (python_bin : string) (e : exn) : Prop :=
  match e with
  | CommandError cmd code => cmd ∈ setup_commands python_bin ∧ command_fails cmd code
  | AssertionError _ => resolution_raises e
  | _ => False
  end.

(** What a pass can raise. *)
Definition pass_raises (requirements : list string) (exclude_packages : gset string)
    (source : Source) (python_version : Z) (transitive : bool) (e : exn) : Prop :=
  match e with
  | CommandError cmd code =>
      cmd ∈ setup_commands (interpreter python_version) ∧ command_fails cmd code
  | AssertionError _ => resolution_raises e
  | SourceError d => hashes_fail d
  | TypeError _ =>
      ∃ k, queued_key requirements exclude_packages source transitive k ∧ k.1 = ""
  end.

(** What [resolve] can raise once [python_version] is 2 or 3: what the
    pass of one of its indices raises. *)
Definition propagates (requirements index_urls : list string) (python_version : Z)
    (exclude_packages : gset string) (transitive : bool) (e : exn) : Prop :=
  ∃ u, u ∈ index_urls ∧
       pass_raises requirements exclude_packages {| url := u |} python_version
         transitive e.

(** The pairs that the traversal can admit all lie in the finite [U]. *)
Definition pool (U : gset (string * string)) (transitive : bool) : Prop :=
  transitive = true → ∀ k, dependency_key k → k ∈ U.

(** The [i]-th result is what the pass of the [i]-th index returns. *)
Definition aligned (fuel : nat) (requirements index_urls : list string)
    (python_version : Z) (exclude_packages : gset string) (transitive : bool)
    (results : list PassResult) : Prop :=
  Forall2 (λ u r,
             ∃ st1 st2,
               _do_resolve_index ext fuel (solver_of u) (map solver_of index_urls)
                 requirements python_version exclude_packages transitive st1
               = (st2, Return r))
          index_urls results.

End Properties.


(** ** Further properties *)

(** The command that the code after the [yield] of [_install_requirement]
    runs for what was installed before, if it gets to run one. *)
Definition restore_command (python_bin package : string)
    (previous_version : PipdeptreeResult) : option string :=
  match previous_version with
  | FoundEntry entry =>
      Some (python_bin +:+ " -m pip install --force-reinstall --no-cache-dir --no-deps "
            +:+ quote package +:+ "==" +:+ quote (pip_installed_version (pip_package entry)))
  | NoEntry | WholeOutput [] =>
      Some (python_bin +:+ " -m pip uninstall --yes " +:+ quote package)
  | WholeOutput (_ :: _) => None
  end.

(** The entry of the environment snapshot for an inventory entry. *)
Definition snapshot_entry (entry : PipEntry) : Entry :=
  {| package_name := pip_package_name (pip_package entry);
     package_version := pip_installed_version (pip_package entry);
     index_url := None; sha256 := None;
     dependencies := dependency_records entry |}.

(** The inventory entry matches the package name, letter case aside. *)
Definition matches (package_name : string) (entry : PipEntry) : Prop :=
  lower (pip_key (pip_package entry)) = lower package_name.

(** The index that the log line of a discovery names. *)
Definition discovered_from (idx : string) (ev : event) : Prop :=
  match ev with
  | Discover i _ _ => i = idx
  | Run _ => True
  end.

Section MoreProperties.

Context {World : Type}.
Variable ext : Externals World.

(** The state after [run_command] ran [cmd]. *)
Definition ran (cmd : string) (st : State World) : State World :=
  {| world := (run_process ext cmd (world st)).1; trace := trace st ++ [Run cmd] |}.

(** An [unparsed] record: a requirement of the input that the parser
    rejected with these details. *)
Definition unparsed_of (requirements : list string) (u : Unparsed) : Prop :=
  requirement u ∈ requirements ∧
  ∃ w, (parse_python ext (requirement u) w).2 = inl (details u).

(** An [unresolved] record: a requirement of the input, parsed and not
    excluded, with its range expression and the index of the pass. *)
Definition unresolved_of (requirements : list string) (exclude_packages : gset string)
    (source : Source) (u : Unresolved) : Prop :=
  unres_index u = url source ∧
  ∃ r dependency,
    r ∈ requirements ∧ parses_to ext r dependency ∧
    (name dependency ∉ exclude_packages) ∧
    unres_package_name u = name dependency ∧
    unres_version_spec u = _get_dependency_specification (spec dependency).

End MoreProperties.

(** ** The commands and the record of a probe *)

(** The inventory command. *)
Definition inventory_command (python_bin : string) : string :=
  python_bin +:+ " -m pipdeptree --json".

(** The command line that [_install_requirement] builds before its
    [yield]. *)
Definition install_command (python_bin package : string)
    (version index_url : option string) : string :=
  let cmd := python_bin +:+ " -m pip install --force-reinstall --no-cache-dir --no-deps "
             +:+ quote package in
  let cmd := match version with
             | Some v => if truthy v then cmd +:+ "==" +:+ quote v else cmd
             | None => cmd
             end in
  match index_url with
  | Some u => if truthy u
              then cmd +:+ " --index-url " +:+ dquote +:+ quote u +:+ dquote +:+ " "
              else cmd
  | None => cmd
  end.

Arguments inventory_command : simpl never.
Arguments install_command : simpl never.

(** The error records of the traversal loop. *)
Definition command_error_record (idx n v cmd : string) (code : Z) : ErrorRecord :=
  {| err_package_name := n; err_index := idx; err_version := v;
     err_type := "command_error"; err_details := CommandErrorDict cmd code |}.

Definition not_site_package_record (idx n v : string) : ErrorRecord :=
  {| err_package_name := n; err_index := idx; err_version := v;
     err_type := "not_site_package";
     err_details := Message
  "Failed to get information about installed package, probably not site package" |}.

(** The commands of a probe that got through: inventory for the version
    installed before, install, inspection, and the restoring command. *)
Definition probe_commands (python_bin idx n v restore : string) : list event :=
  [ Run (inventory_command python_bin);
    Run (install_command python_bin n (Some v) (Some idx));
    Run (inventory_command python_bin);
    Run restore ].

(** The commands of a probe that a failing command cut short, with the
    command that failed: the first inventory, the install, or the
    inspection (after which nothing is restored). *)
Definition cut_short (python_bin idx n v : string) (cmds : list event) (cmd : string)
    : Prop :=
  (cmds = [ Run (inventory_command python_bin) ] ∧ cmd = inventory_command python_bin) ∨
  (cmds = [ Run (inventory_command python_bin);
            Run (install_command python_bin n (Some v) (Some idx)) ] ∧
   cmd = install_command python_bin n (Some v) (Some idx)) ∨
  (cmds = [ Run (inventory_command python_bin);
            Run (install_command python_bin n (Some v) (Some idx));
            Run (inventory_command python_bin) ] ∧
   cmd = inventory_command python_bin).

Section ProbeProperties.

Context {World : Type}.
Variable ext : Externals World.

(** What the probe of the pair [(n, v)] left: its commands [cmds] and one
    record, in [tree] when the inspection found the package, else in
    [errors]. *)
Definition probe_record (python_bin idx n v : string) (cmds : list event)
    (tree : list Entry) (errors : list ErrorRecord) : Prop :=
  (∃ previous_version restore info entry,
     restore_command python_bin n previous_version = Some restore ∧
     cmds = probe_commands python_bin idx n v restore ∧
     inventory_entry ext info ∧ matches n info ∧ entry ∈ tree ∧
     package_name entry = pip_package_name (pip_package info) ∧
     package_version entry = pip_installed_version (pip_package info) ∧
     index_url entry = Some idx) ∨
  (∃ previous_version restore,
     restore_command python_bin n previous_version = Some restore ∧
     cmds = probe_commands python_bin idx n v restore ∧
     not_site_package_record idx n v ∈ errors) ∨
  (∃ cmd code,
     cut_short python_bin idx n v cmds cmd ∧ command_fails ext cmd code ∧
     command_error_record idx n v cmd code ∈ errors).

(** The package [n] has an entry of its own in [tree]: one made from the
    inventory entry that matched its name, with the index of the pass. *)
Definition own_entry (idx n : string) (tree : list Entry) : Prop :=
  ∃ info entry,
    entry ∈ tree ∧ inventory_entry ext info ∧ matches n info ∧
    package_name entry = pip_package_name (pip_package info) ∧
    package_version entry = pip_installed_version (pip_package info) ∧
    index_url entry = Some idx.

(** The pair was probed in the pass: its log line is in the trace,
    followed by the commands of its probe, and the probe left its record. *)
Definition probed (python_bin idx : string) (evs : list event) (tree : list Entry)
    (errors : list ErrorRecord) (k : string * string) : Prop :=
  ∃ before cmds after,
    evs = before ++ Discover idx k.1 k.2 :: cmds ++ after ∧
    probe_record python_bin idx k.1 k.2 cmds tree errors.

(** What one turn of the traversal loop leaves: the log line, the
    commands of the probe, and one more record. *)
Definition turn_record (python_bin idx n v : string) (l : Locals) (evs : list event)
    (l' : Locals) : Prop :=
  ∃ cmds record_tree record_errors,
    evs = Discover idx n v :: cmds ∧
    packages l' = packages l ++ record_tree ∧
    l_errors l' = l_errors l ++ record_errors ∧
    probe_record python_bin idx n v cmds record_tree record_errors.

(** The parser rejects the requirement, whatever the world. *)
Definition never_parses (req : string) : Prop :=
  ∀ w, ∃ d, (parse_python ext req w).2 = inl d.

(** The parser returns this dependency for the requirement, whatever the
    world. *)
Definition always_parses_to (req : string) (dependency : ParsedDependency) : Prop :=
  ∀ w, (parse_python ext req w).2 = inr dependency.

(** The index has no version for the dependency, whatever the world: it
    finds nothing, fails, or answers with an empty list of versions. *)
Definition never_resolves (source : Source) (dependency : ParsedDependency) : Prop :=
  ∀ w, match (solve ext source
                (name dependency +:+ _get_dependency_specification (spec dependency)) w).2
       with
       | SolveNotFound | SolveException | SolveMapping [(_, [])] => True
       | _ => False
       end.

(** The failures of the seed requirements [requirements] are recorded:
    one that never parses has an [unparsed] record with the parser's
    text, one that parses, is not excluded and never resolves has its
    [unresolved] record. *)
Definition captured_seeds (source : Source) (exclude_packages : gset string)
    (requirements : list string) (unparsed : list Unparsed)
    (unresolved : list Unresolved) : Prop :=
  (∀ req, req ∈ requirements → never_parses req →
     ∃ u, u ∈ unparsed ∧ requirement u = req ∧
          ∃ w, (parse_python ext req w).2 = inl (details u)) ∧
  (∀ req dependency,
     req ∈ requirements → always_parses_to req dependency →
     name dependency ∉ exclude_packages → never_resolves source dependency →
     {| unres_package_name := name dependency;
        unres_version_spec := _get_dependency_specification (spec dependency);
        unres_index := url source |} ∈ unresolved).

(** What a returned pass with events [evs] has captured in its result:
    the failures of its seed requirements, and for every pair it
    discovered the record of the probe, which for a probe cut short by a
    failing command is the [command_error] record of that command. *)
Definition captured (python_bin : string) (source : Source) (requirements : list string)
    (exclude_packages : gset string) (evs : list event) (r : PassResult) : Prop :=
  captured_seeds source exclude_packages requirements (unparsed r) (unresolved r) ∧
  ∀ k, k ∈ discovered evs →
       probed python_bin (url source) evs (tree r) (errors r) k.

End ProbeProperties.
(** ** Rules for [post] *)
Section Rules.

Context {World : Type}.
Variable ext : Externals World.

Local Abbreviation post := (@post World _).
Local Abbreviation command_fails := (command_fails ext).

Lemma post_mono {A} (m : M World A) (R R' : list event → outcome A → Prop) :
  post m R → (∀ evs o, R evs o → R' evs o) → post m R'.
Proof.
  intros H HR st. destruct (H st) as (evs & Ht & Ho). exists evs. auto.
Qed.

Lemma post_ret {A} (a : A) (R : list event → outcome A → Prop) :
  R [] (Return a) → post (ret a) R.
Proof. intros H st. exists []. simpl. by rewrite app_nil_r. Qed.

Lemma post_raise {A} (e : exn) (R : list event → outcome A → Prop) :
  R [] (Raise e) → post (raise e) R.
Proof. intros H st. exists []. simpl. by rewrite app_nil_r. Qed.

Lemma post_bind {A B} (m : M World A) (k : A → M World B) R :
  post m (after R k) → post (bind m k) R.
Proof.
  intros H st. destruct (H st) as (evs & Ht & Ho). unfold bind.
  destruct (m st) as [st1 [a|e|]]; simpl in *.
  - destruct (Ho st1) as (evs' & Ht' & Ho'). exists (evs ++ evs').
    by rewrite Ht', Ht, app_assoc.
  - by exists evs.
  - by exists evs.
Qed.

Lemma post_call {A} (f : World → World * A) (R : list event → outcome A → Prop) :
  (∀ w, R [] (Return (f w).2)) → post (call f) R.
Proof.
  intros H st. exists []. unfold call. specialize (H (world st)).
  destruct (f (world st)) as [w' a]. simpl in *. by rewrite app_nil_r.
Qed.

Lemma post_log (e : event) (R : list event → outcome unit → Prop) :
  R [e] (Return tt) → post (log e) R.
Proof. intros H st. by exists [e]. Qed.

Lemma post_run_command (cmd : string) (raise_on_error : bool) R :
  (∀ w, raise_on_error = false ∨ return_code (run_process ext cmd w).2 = 0%Z →
        R [Run cmd] (Return (run_process ext cmd w).2)) →
  (∀ code, raise_on_error = true → command_fails cmd code →
           R [Run cmd] (Raise (CommandError cmd code))) →
  post (run_command ext cmd raise_on_error) R.
Proof.
  intros Hok Hfail st. exists [Run cmd]. unfold run_command.
  specialize (Hok (world st)). pose proof (Hfail (return_code (run_process ext cmd (world st)).2)) as Hf.
  assert (Hw : command_fails cmd (return_code (run_process ext cmd (world st)).2)
               ∨ return_code (run_process ext cmd (world st)).2 = 0%Z).
  { destruct (decide (return_code (run_process ext cmd (world st)).2 = 0%Z)); [by right|].
    left. by exists (world st). }
  destruct (run_process ext cmd (world st)) as [w' r]. simpl in *.
  destruct raise_on_error; simpl.
  - destruct (Z.eqb_spec (return_code r) 0); simpl; split; auto.
    destruct Hw; [auto | done].
  - split; auto.
Qed.

Lemma post_try_CommandError {A} (m : M World A) R :
  post m (fun evs o =>
            match o with
            | Return a => R evs (Return (inr a))
            | Raise (CommandError cmd code) => R evs (Return (inl (cmd, code)))
            | Raise e => R evs (Raise e)
            | OutOfFuel => R evs OutOfFuel
            end) →
  post (try_CommandError m) R.
Proof.
  intros H st. destruct (H st) as (evs & Ht & Ho). exists evs. unfold try_CommandError.
  destruct (m st) as [st1 [a|[]|]]; simpl in *; auto.
Qed.

(** A [for] loop, with an invariant over the items done, the events so
    far and the accumulator. *)
Lemma post_for_each {A S} (l : list A) (body : S → A → M World S)
    (Inv : list A → list event → S → Prop) (R : list event → outcome S → Prop) (s : S) :
  Inv [] [] s →
  (∀ done x rest evs s, l = done ++ x :: rest → Inv done evs s →
     post (body s x)
       (fun evs' o => match o with
                      | Return s' => Inv (done ++ [x]) (evs ++ evs') s'
                      | Raise e => R (evs ++ evs') (Raise e)
                      | OutOfFuel => R (evs ++ evs') OutOfFuel
                      end)) →
  (∀ evs s, Inv l evs s → R evs (Return s)) →
  post (for_each l body s) R.
Proof.
  intros H0 Hstep Hend.
  cut (∀ rest done evs s, l = done ++ rest → Inv done evs s →
         post (for_each rest body s) (fun evs' o => R (evs ++ evs') o)).
  { intros Hcut. eapply post_mono; [apply (Hcut l [] [] s); [done | done] | done]. }
  induction rest as [|x rest IH]; intros done evs s' Hl Hinv; simpl.
  - apply post_ret. rewrite !app_nil_r in *. subst. auto.
  - apply post_bind. eapply post_mono; [by eapply Hstep|].
    intros evs' [s''| |]; simpl; auto. intros Hinv'.
    eapply post_mono; [apply (IH (done ++ [x]) (evs ++ evs') s'')|].
    + by rewrite <- app_assoc.
    + done.
    + intros evs'' o. by rewrite app_assoc.
Qed.

End Rules.

(** ** The visited-set and the queue *)
Section Admission.

Implicit Types (P Q : string * string → Prop) (l : Locals) (k : string * string).

Lemma admits_trans P l1 l2 l3 : admits P l1 l2 → admits P l2 l3 → admits P l1 l3.
Proof. induction 2; [done | constructor; auto]. Qed.

Lemma admits_mono P Q l l' : (∀ k, P k → Q k) → admits P l l' → admits Q l l'.
Proof. intros HPQ. induction 1; constructor; auto. Qed.

Lemma admits_frame P l l' :
  admits P l l' →
  packages l' = packages l ∧ l_errors l' = l_errors l ∧
  l_unresolved l' = l_unresolved l ∧ l_unparsed l' = l_unparsed l.
Proof. induction 1; simpl; auto. Qed.

Lemma admits_seen P l l' : admits P l l' → packages_seen l ⊆ packages_seen l'.
Proof. induction 1; simpl; set_solver. Qed.

Lemma admits_queue P l l' :
  admits P l l' →
  ∃ new, queue l' = new ++ queue l ∧
         packages_seen l' = list_to_set new ∪ packages_seen l ∧
         Forall P new ∧ Forall (λ k, k ∉ packages_seen l) new ∧ NoDup new.
Proof.
  induction 1 as [l | l l' k Hadm (new & Hq & Hs & HP & Hnew & Hnd) Hk HPk].
  - exists []. simpl. split; [done|]. split; [set_solver|]. repeat split; constructor.
  - exists (k :: new). simpl. rewrite Hq, Hs. repeat split.
    + set_solver.
    + by constructor.
    + constructor; [|done]. rewrite Hs in Hk. set_solver.
    + constructor; [|done]. rewrite Hs in Hk. set_solver.
Qed.

Lemma remaining_enqueue (U : gset (string * string)) l k :
  k ∈ U → k ∉ packages_seen l → remaining U (enqueue k l) = remaining U l.
Proof.
  intros HU Hk. unfold remaining. simpl.
  assert (Heq : U ∖ packages_seen l = {[k]} ∪ U ∖ ({[k]} ∪ packages_seen l)).
  { apply set_eq. intros x. destruct (decide (x = k)); set_solver. }
  assert (Hsz : size (U ∖ packages_seen l) = S (size (U ∖ ({[k]} ∪ packages_seen l)))).
  { rewrite Heq at 1. rewrite size_union by set_solver. by rewrite size_singleton. }
  lia.
Qed.

Lemma admits_remaining (U : gset (string * string)) P l l' :
  (∀ k, P k → k ∈ U) → admits P l l' → remaining U l' = remaining U l.
Proof.
  intros HU. induction 1; [done|]. rewrite remaining_enqueue; auto.
Qed.

Lemma admit_versions_admits P n vs l :
  (∀ v, v ∈ vs → P (n, v)) → admits P l (admit_versions n vs l).
Proof.
  unfold admit_versions. revert l.
  cut (∀ l0 l, admits P l0 l →
         (∀ v, v ∈ vs → P (n, v)) →
         admits P l0 (fold_left (λ l version,
           if decide ((n, version) ∈ packages_seen l) then l
           else enqueue (n, version) l) vs l)).
  { intros Hcut l HP. apply Hcut; [constructor | done]. }
  induction vs as [|v vs IH]; intros l0 l Hadm HP; simpl; [done|].
  apply IH; [|set_solver].
  case_decide; [done|]. constructor; [done..|]. apply HP. set_solver.
Qed.

Lemma admit_versions_seen n vs l :
  packages_seen l ⊆ packages_seen (admit_versions n vs l) ∧
  ∀ v, v ∈ vs → (n, v) ∈ packages_seen (admit_versions n vs l).
Proof.
  unfold admit_versions. revert l.
  induction vs as [|v vs IH]; intros l; simpl; [set_solver|].
  destruct (IH (if decide ((n, v) ∈ packages_seen l) then l else enqueue (n, v) l))
    as [Hsub Hin].
  split.
  - etrans; [|apply Hsub]. case_decide; simpl; set_solver.
  - intros v' [->|Hv']%elem_of_cons; [|by apply Hin].
    apply Hsub. case_decide; simpl; set_solver.
Qed.

Lemma remaining_popped (U : gset (string * string)) l k q :
  queue l = k :: q → S (remaining U (popped l)) = remaining U l.
Proof. intros Hq. unfold remaining. simpl. rewrite Hq. simpl. lia. Qed.

End Admission.

(** ** Events *)

Lemma append_assoc' (a b c : string) : (a +:+ b) +:+ c = a +:+ b +:+ c.
Proof.
  induction a as [|x a IH]; [done|].
  change (String x ((a +:+ b) +:+ c) = String x (a +:+ b +:+ c)). by rewrite IH.
Qed.

Lemma runs_with_intro python_bin rest :
  runs_with python_bin (Run (python_bin +:+ " -m " +:+ rest)).
Proof. by exists rest. Qed.

Lemma discovered_app evs evs' : discovered (evs ++ evs') = discovered evs ++ discovered evs'.
Proof. unfold discovered. by rewrite omap_app. Qed.

Lemma discovered_runs python_bin evs : Forall (runs_with python_bin) evs → discovered evs = [].
Proof.
  induction 1 as [|ev evs [rest ->] _ IH]; [done|]. unfold discovered in *. simpl. done.
Qed.

(** ** What each function does *)
Section Functions.

Context {World : Type}.
Variable ext : Externals World.

Local Abbreviation post := (@post World _).
Local Abbreviation command_fails := (command_fails ext).
Local Abbreviation inventory_entry := (inventory_entry ext).
Local Abbreviation resolved_by := (resolved_by ext).
Local Abbreviation ambiguous_resolution := (ambiguous_resolution ext).
Local Abbreviation hashes_fail := (hashes_fail ext).
Local Abbreviation resolved_at := (resolved_at ext).
Local Abbreviation expanded := (expanded ext).
Local Abbreviation resolution_key := (resolution_key ext).
Local Abbreviation resolution_raises := (resolution_raises ext).
Local Abbreviation discover_raises := (discover_raises ext).
Local Abbreviation discovers := (discovers ext).
Local Abbreviation seed_key := (seed_key ext).

Lemma post_resolve_versions solver source n vspec :
  post (_resolve_versions ext solver source n vspec)
    (λ evs o, evs = [] ∧
       match o with
       | Return vs => vs = [] ∨ resolved_by (release_fetcher_source solver) n vspec vs
       | Raise e => resolution_raises e
       | OutOfFuel => False
       end).
Proof.
  unfold _resolve_versions. apply post_bind, post_call. intros w. simpl.
  destruct (solve ext _ _ w).2 as [| |mapping] eqn:Hs.
  - apply post_ret. auto.
  - apply post_ret. auto.
  - destruct mapping as [|[key vs] [|]].
    + apply post_raise. repeat split.
      eexists (release_fetcher_source solver), _, w, _. split; [exact Hs|]. simpl. lia.
    + apply post_ret. split; [done|]. right. by exists w, key.
    + apply post_raise. repeat split.
      eexists (release_fetcher_source solver), _, w, _. split; [exact Hs|]. simpl. lia.
Qed.

Lemma post_pipdeptree python_bin n :
  post (_pipdeptree ext python_bin n)
    (λ evs o, evs = [Run (python_bin +:+ " -m pipdeptree --json")] ∧
       match o with
       | Return r =>
           if truthy n
           then r = NoEntry ∨
                ∃ entry, r = FoundEntry entry ∧ inventory_entry entry ∧
                         lower (pip_key (pip_package entry)) = lower n
           else ∃ output, r = WholeOutput output
       | Raise e =>
           ∃ code, e = CommandError (python_bin +:+ " -m pipdeptree --json") code ∧
                   command_fails (python_bin +:+ " -m pipdeptree --json") code
       | OutOfFuel => False
       end).
Proof.
  unfold _pipdeptree. apply post_bind, post_run_command.
  - intros w _. simpl. destruct (truthy n); simpl.
    + destruct (find _ _) as [entry|] eqn:Hf; apply post_ret; (split; [done|]); [|by left].
      right. exists entry. split; [done|]. apply find_some in Hf as [Hin Heq].
      split; [|by apply String.eqb_eq].
      exists (python_bin +:+ " -m pipdeptree --json"), w. by apply list_elem_of_In.
    + apply post_ret. eauto.
  - intros code _ Hf. simpl. eauto.
Qed.

Lemma post_create_entry_source entry source :
  post (_create_entry ext entry (Some source))
    (λ evs o, evs = [] ∧
       match o with
       | Return e =>
           package_name e = pip_package_name (pip_package entry) ∧
           package_version e = pip_installed_version (pip_package entry) ∧
           index_url e = Some (url source) ∧
           dependencies e = dependency_records entry
       | Raise e => ∃ d, e = SourceError d ∧ hashes_fail d
       | OutOfFuel => False
       end).
Proof.
  unfold _create_entry. apply post_bind. intros st. exists []. rewrite app_nil_r.
  destruct (get_package_hashes ext _ _ _ (world st)) as [w' [d|hs]] eqn:Hh; simpl.
  - split; [done|]. split; [done|]. exists d. split; [done|].
    eexists _, _, _, (world st). by rewrite Hh.
  - split; [done|]. by apply post_ret.
Qed.

Lemma post_create_entry_none entry :
  post (_create_entry ext entry None)
    (λ evs o, evs = [] ∧ ∃ e, o = Return e).
Proof. unfold _create_entry. apply post_ret. eauto. Qed.

Lemma post_get_environment_details python_bin :
  post (_get_environment_details ext python_bin)
    (λ evs o, evs = [Run (python_bin +:+ " -m pipdeptree --json")] ∧
       match o with
       | Return _ => True
       | Raise e =>
           ∃ code, e = CommandError (python_bin +:+ " -m pipdeptree --json") code ∧
                   command_fails (python_bin +:+ " -m pipdeptree --json") code
       | OutOfFuel => False
       end).
Proof.
  unfold _get_environment_details. apply post_bind, post_run_command.
  - intros w _. simpl.
    apply (post_for_each _ _ (λ _ evs _, evs = [])); [done| |by intros ?? ->].
    intros done x rest evs s _ ->. apply post_bind.
    eapply post_mono; [apply post_create_entry_none|].
    intros evs' o [-> [e ->]]. simpl. by apply post_ret.
  - intros code _ Hf. simpl. eauto.
Qed.

Lemma resolved_at_mono transitive l l' d solver rv :
  packages_seen l ⊆ packages_seen l' →
  resolved_at transitive l d solver rv → resolved_at transitive l' d solver rv.
Proof. intros Hsub (Hi & Hv & Hs). split; [done|]. split; [done|]. intros Ht v Hin. by apply Hsub, Hs. Qed.

Lemma expanded_mono transitive all_solvers l l' d d' :
  packages_seen l ⊆ packages_seen l' →
  expanded transitive all_solvers l d d' → expanded transitive all_solvers l' d d'.
Proof.
  intros Hsub (Hn & Hr & rvs & Hrvs & Hall). repeat split; auto. exists rvs. split; [done|].
  eapply Forall2_impl; [exact Hall|]. intros s rv. by apply resolved_at_mono.
Qed.

Lemma post_resolve_dependency all_solvers source transitive l deps d :
  post (resolve_dependency ext all_solvers source transitive (l, deps) d)
    (λ evs o, evs = [] ∧
       match o with
       | Return (l', deps') =>
           (∃ d', deps' = deps ++ [d'] ∧ expanded transitive all_solvers l' d d') ∧
           if transitive then admits (resolution_key [d]) l l' else l' = l
       | Raise e => resolution_raises e
       | OutOfFuel => False
       end).
Proof.
  unfold resolve_dependency. apply post_bind.
  apply (post_for_each _ _
    (λ done evs acc, evs = [] ∧
       Forall2 (resolved_at transitive acc.1 d) done acc.2 ∧
       if transitive then admits (resolution_key [d]) l acc.1 else acc.1 = l)).
  - split; [done|]. split; [constructor|]. destruct transitive; [constructor | done].
  - intros done s rest evs [l1 rvs] Hl (-> & Hall & Hadm). simpl in *.
    unfold resolve_at_index. apply post_bind.
    eapply post_mono; [apply post_resolve_versions|].
    intros evs' [vs|e|]; simpl; [|by intros [-> ?]|by intros [-> ?]].
    intros [-> Hvs]. destruct transitive; simpl; apply post_ret; simpl.
    + destruct (admit_versions_seen (dep_package_name d) vs l1) as [Hsub Hin].
      split; [done|]. split.
      * apply Forall2_app.
        -- eapply Forall2_impl; [exact Hall|]. intros ??. by apply resolved_at_mono.
        -- constructor; [|constructor]. split; [done|]. split; [done|]. by intros _.
      * eapply admits_trans; [exact Hadm|]. apply admit_versions_admits.
        intros v Hv. destruct Hvs as [->|Hvs]; [by apply elem_of_nil in Hv|].
        exists d, (release_fetcher_source s), vs. set_solver.
    + split; [done|]. split; [|done]. apply Forall2_app; [done|].
      constructor; [|constructor]. split; [done|]. split; [done|]. done.
  - intros evs [l1 rvs] (-> & Hall & Hadm). simpl in *. apply post_ret. simpl.
    split; [done|]. split; [|done]. eexists. split; [done|]. repeat split; simpl; eauto.
Qed.

Lemma resolution_key_mono deps deps' k :
  deps ⊆ deps' → resolution_key deps k → resolution_key deps' k.
Proof. intros Hsub (d & s & vs & Hd & ?). exists d, s, vs. split; [by apply Hsub | done]. Qed.

(** The loop over the dependencies of an entry. *)
Lemma post_expansion all_solvers source transitive l deps :
  post (for_each deps (resolve_dependency ext all_solvers source transitive) (l, []))
    (λ evs o, evs = [] ∧
       match o with
       | Return (l', deps') =>
           Forall2 (expanded transitive all_solvers l') deps deps' ∧
           if transitive then admits (resolution_key deps) l l' else l' = l
       | Raise e => resolution_raises e
       | OutOfFuel => False
       end).
Proof.
  apply (post_for_each _ _
    (λ done evs acc, evs = [] ∧
       Forall2 (expanded transitive all_solvers acc.1) done acc.2 ∧
       if transitive then admits (resolution_key deps) l acc.1 else acc.1 = l)).
  - split; [done|]. split; [constructor|]. destruct transitive; [constructor | done].
  - intros done d rest evs [l1 deps1] Hl (-> & Hall & Hadm). simpl in *.
    eapply post_mono; [apply post_resolve_dependency|].
    intros evs' [[l2 deps2]|e|]; simpl; [|by intros [-> ?]|by intros [-> ?]].
    intros (-> & (d' & -> & Hd') & Hadm'). split; [done|].
    assert (Hsub : packages_seen l1 ⊆ packages_seen l2).
    { destruct transitive; [by eapply admits_seen | by subst]. }
    split.
    + apply Forall2_app; [|by constructor; [|constructor]].
      eapply Forall2_impl; [exact Hall|]. intros ??. by apply expanded_mono.
    + destruct transitive; [|by subst]. eapply admits_trans; [exact Hadm|].
      eapply admits_mono; [|exact Hadm']. intros k. apply resolution_key_mono.
      subst deps. set_solver.
  - intros evs [l1 deps1] (-> & Hall & Hadm). done.
Qed.

Lemma runs_with_literal python_bin a b :
  a = " -m " +:+ b → runs_with python_bin (Run (python_bin +:+ a)).
Proof. intros ->. by exists b. Qed.

Lemma runs_with_append python_bin cmd x :
  runs_with python_bin (Run cmd) → runs_with python_bin (Run (cmd +:+ x)).
Proof.
  intros [rest [= ->]]. exists (rest +:+ x). by rewrite !append_assoc'.
Qed.

Lemma not_truthy n : truthy n = false → n = "".
Proof. by destruct n. Qed.

Lemma post_install_requirement_enter python_bin n version idx :
  post (_install_requirement_enter ext python_bin n version idx)
    (λ evs o, Forall (runs_with python_bin) evs ∧
       match o with
       | Return prev =>
           if truthy n then prev = NoEntry ∨ ∃ entry, prev = FoundEntry entry
           else ∃ output, prev = WholeOutput output
       | Raise e => ∃ cmd code, e = CommandError cmd code
       | OutOfFuel => False
       end).
Proof.
  unfold _install_requirement_enter. apply post_bind.
  eapply post_mono; [apply post_pipdeptree|].
  assert (Hp : runs_with python_bin (Run (python_bin +:+ " -m pipdeptree --json"))).
  { by apply runs_with_literal with (b := "pipdeptree --json"). }
  intros evs [prev|e|]; simpl; [|intros [-> (code & -> & _)]|by intros []].
  2: { split; [by repeat constructor | eauto]. }
  intros [-> Hprev]. apply post_bind, post_run_command.
  - intros w _. simpl. apply post_ret. split.
    + repeat constructor; [done|].
      assert (H0 : runs_with python_bin (Run (python_bin +:+
        " -m pip install --force-reinstall --no-cache-dir --no-deps " +:+ quote n))).
      { rewrite <- append_assoc'. apply runs_with_append.
        by apply runs_with_literal with
          (b := "pip install --force-reinstall --no-cache-dir --no-deps "). }
      assert (H1 : runs_with python_bin (Run
        match version with
        | Some v => if truthy v then (python_bin +:+
            " -m pip install --force-reinstall --no-cache-dir --no-deps " +:+ quote n)
            +:+ "==" +:+ quote v else python_bin +:+
            " -m pip install --force-reinstall --no-cache-dir --no-deps " +:+ quote n
        | None => python_bin +:+
            " -m pip install --force-reinstall --no-cache-dir --no-deps " +:+ quote n
        end)).
      { destruct version as [v|]; [|done]. destruct (truthy v); [|done].
        by apply runs_with_append. }
      destruct idx as [u|]; [|done]. destruct (truthy u); [|done].
      by apply runs_with_append.
    + destruct (truthy n); [|done]. destruct Hprev as [?|(entry & ? & _)]; eauto.
  - intros code _ _. simpl. split; [|eauto]. repeat constructor; [done|].
    set (c0 := python_bin +:+
        " -m pip install --force-reinstall --no-cache-dir --no-deps " +:+ quote n).
    assert (H0 : runs_with python_bin (Run c0)).
    { unfold c0. rewrite <- append_assoc'. apply runs_with_append.
      by apply runs_with_literal with
        (b := "pip install --force-reinstall --no-cache-dir --no-deps "). }
    assert (H1 : runs_with python_bin (Run
        match version with
        | Some v => if truthy v then c0 +:+ "==" +:+ quote v else c0
        | None => c0
        end)).
    { destruct version as [v|]; [|done]. destruct (truthy v); [|done].
      by apply runs_with_append. }
    destruct idx as [u|]; [|done]. destruct (truthy u); [|done].
    by apply runs_with_append.
Qed.

Lemma post_install_requirement_exit python_bin n prev :
  post (_install_requirement_exit ext python_bin n true prev)
    (λ evs o, Forall (runs_with python_bin) evs ∧
       match o with
       | Return _ => True
       | Raise e => (∃ msg, e = TypeError msg) ∧ ∃ output, prev = WholeOutput output
       | OutOfFuel => False
       end).
Proof.
  unfold _install_requirement_exit. simpl.
  destruct (pipdeptree_truthy prev) eqn:Ht.
  - apply post_bind. destruct prev as [[|]|entry|]; try done; simpl.
    + apply post_raise. split; [constructor | eauto].
    + apply post_ret. simpl. apply post_bind, post_run_command; [|done].
      intros w _. simpl. apply post_ret. split; [|done]. repeat constructor.
      rewrite <- append_assoc'. apply runs_with_append.
      by apply runs_with_literal with
        (b := "pip install --force-reinstall --no-cache-dir --no-deps ").
  - apply post_bind, post_run_command; [|done].
    intros w _. simpl. apply post_ret. split; [|done]. repeat constructor.
    rewrite <- append_assoc'. apply runs_with_append.
    by apply runs_with_literal with (b := "pip uninstall --yes ").
Qed.

(** The [try] around the [with] of the traversal loop (lines 218-233). *)
Lemma post_probe python_bin n v idx :
  post (try_CommandError
          (_install_requirement ext python_bin n (Some v) (Some idx) true
             (_pipdeptree ext python_bin n)))
    (λ evs o, Forall (runs_with python_bin) evs ∧
       match o with
       | Return (inl _) => True
       | Return (inr r) =>
           if truthy n
           then r = NoEntry ∨
                ∃ entry, r = FoundEntry entry ∧ inventory_entry entry ∧
                         lower (pip_key (pip_package entry)) = lower n
           else ∃ output, r = WholeOutput output
       | Raise e => (∃ msg, e = TypeError msg) ∧ n = ""
       | OutOfFuel => False
       end).
Proof.
  assert (Hp : runs_with python_bin (Run (python_bin +:+ " -m pipdeptree --json"))).
  { by apply runs_with_literal with (b := "pipdeptree --json"). }
  apply post_try_CommandError. unfold _install_requirement, with_. apply post_bind.
  eapply post_mono; [apply post_install_requirement_enter|].
  intros evs [prev|e|]; simpl; [|by intros [? (cmd & code & ->)]|by intros []].
  intros [Hevs Hprev]. apply post_bind.
  eapply post_mono; [apply post_pipdeptree|].
  intros evs' [r|e|]; simpl; [|intros [-> (code & -> & _)]|by intros []].
  2: { split; [|done]. apply Forall_app. split; [done | by repeat constructor]. }
  intros [-> Hr]. apply post_bind.
  eapply post_mono; [apply post_install_requirement_exit|].
  intros evs'' [[]|e|]; simpl; [| |by intros []].
  - intros [Hevs'' _]. apply post_ret. rewrite app_nil_r. split; [|done].
    apply Forall_app. split; [done | by constructor].
  - intros [Hevs'' ([msg ->] & output & ->)]. split.
    + apply Forall_app. split; [done | by constructor].
    + split; [eauto|]. destruct (truthy n) eqn:Hn; [|by apply not_truthy].
      by destruct Hprev as [?|[? ?]].
Qed.

Lemma post_discover solver all_solvers python_bin transitive n v l :
  post (discover ext solver all_solvers python_bin transitive n v l)
    (λ evs o,
       (∃ cmds, evs = Discover (url (release_fetcher_source solver)) n v :: cmds ∧
                Forall (runs_with python_bin) cmds) ∧
       match o with
       | Return l' =>
           discovers transitive all_solvers (url (release_fetcher_source solver)) n v l l'
       | Raise e => discover_raises n e
       | OutOfFuel => False
       end).
Proof.
  unfold discover. apply post_bind, post_log. simpl. apply post_bind.
  eapply post_mono; [apply post_probe|].
  intros evs [[[cmd code]|r]|e|]; simpl; [| | |by intros []].
  - intros [Hevs _]. apply post_ret. rewrite app_nil_r. split; [eauto|].
    left. eexists. split; [done|]. done.
  - intros [Hevs Hr]. destruct r as [output|info|].
    + apply post_raise. rewrite app_nil_r. split; [eauto|]. simpl.
      destruct (truthy n) eqn:Hn; [|by apply not_truthy].
      by destruct Hr as [?|(? & ? & _)].
    + assert (inventory_entry info ∧
              lower (pip_key (pip_package info)) = lower n) as [Hinfo Hkey].
      { destruct (truthy n); [|by destruct Hr]. by destruct Hr as [?|(? & [= ->] & ?)]. }
      apply post_bind. eapply post_mono; [apply post_create_entry_source|].
      intros evs' [entry|e|]; simpl; [| |by intros []].
      2: { intros [-> (d & -> & Hd)]. rewrite app_nil_r. split; [eauto | done]. }
      intros (-> & Hname & Hversion & Hurl & Hdeps). apply post_bind. rewrite Hdeps.
      eapply post_mono; [apply post_expansion|].
      intros evs' [[l1 deps1]|e|]; simpl; [| |by intros []].
      2: { intros [-> He]. rewrite !app_nil_r. split; [eauto|].
           destruct He as [-> ?]. simpl. done. }
      intros (-> & Hall & Hadm). apply post_ret. rewrite !app_nil_r.
      split; [eauto|]. right. exists info, (with_dependencies deps1 entry), l1.
      repeat split; try done.
    + apply post_ret. rewrite app_nil_r. split; [eauto|].
      left. eexists. split; [done|]. done.
  - intros [Hevs ([msg ->] & ->)]. split; [eauto | done].
Qed.

Lemma seeds_trans P l1 l2 l3 : seeds P l1 l2 → seeds P l2 l3 → seeds P l1 l3.
Proof. induction 2; [done | constructor; auto..]. Qed.

Lemma seeds_mono (P Q : string * string → Prop) l l' :
  (∀ k, P k → Q k) → seeds P l l' → seeds Q l l'.
Proof. intros HPQ. induction 1; constructor; auto. Qed.

Lemma seeds_fold_enqueue (P : string * string → Prop) n vs l :
  (∀ v, v ∈ vs → P (n, v)) →
  seeds P l (fold_left (λ l version, enqueue (n, version) l) vs l).
Proof.
  cut (∀ l0 l, seeds P l0 l → (∀ v, v ∈ vs → P (n, v)) →
         seeds P l0 (fold_left (λ l version, enqueue (n, version) l) vs l)).
  { intros Hcut HP. apply Hcut; [constructor | done]. }
  induction vs as [|v vs IH]; intros l0 l1 Hs HP; simpl; [done|].
  apply IH; [|set_solver]. constructor; [done|]. apply HP. set_solver.
Qed.

Lemma post_seed_requirement solver exclude_packages l requirement :
  post (seed_requirement ext solver exclude_packages l requirement)
    (λ evs o, evs = [] ∧
       match o with
       | Return l' =>
           seeds (seed_key [requirement] exclude_packages (release_fetcher_source solver))
                 l l'
       | Raise e => resolution_raises e
       | OutOfFuel => False
       end).
Proof.
  unfold seed_requirement. apply post_bind, post_call. intros w. simpl.
  destruct (parse_python ext requirement w).2 as [exc_str|dependency] eqn:Hp.
  - apply post_ret. split; [done|]. repeat constructor.
  - case_decide as Hex; [apply post_ret; split; [done | constructor]|].
    apply post_bind. eapply post_mono; [apply post_resolve_versions|].
    intros evs [vs|e|]; simpl; [|done|by intros []].
    intros [-> Hvs]. destruct vs as [|v vs'].
    + apply post_ret. split; [done|]. repeat constructor.
    + apply post_ret. split; [done|].
      apply (seeds_fold_enqueue _ (name dependency) (v :: vs') l). intros v' Hv'.
      destruct Hvs as [?|Hvs]; [done|].
      exists requirement, dependency, (v :: vs'). repeat split; try done; [set_solver|].
      by exists w.
Qed.

Lemma seed_key_mono requirements requirements' exclude_packages source k :
  requirements ⊆ requirements' →
  seed_key requirements exclude_packages source k →
  seed_key requirements' exclude_packages source k.
Proof.
  intros Hsub (r & d & vs & Hr & H). exists r, d, vs. split; [by apply Hsub | done].
Qed.

(** The loop over [requirements]. *)
Lemma post_seed_loop solver exclude_packages requirements l :
  post (for_each requirements (seed_requirement ext solver exclude_packages) l)
    (λ evs o, evs = [] ∧
       match o with
       | Return l' =>
           seeds (seed_key requirements exclude_packages (release_fetcher_source solver))
                 l l'
       | Raise e => resolution_raises e
       | OutOfFuel => False
       end).
Proof.
  apply (post_for_each _ _
    (λ done evs l', evs = [] ∧
       seeds (seed_key requirements exclude_packages (release_fetcher_source solver))
             l l')).
  - split; [done | constructor].
  - intros done r rest evs l1 Hl [-> Hs].
    eapply post_mono; [apply post_seed_requirement|].
    intros evs' [l2|e|]; simpl; [|by intros [-> ?]|by intros []].
    intros [-> Hs']. split; [done|]. eapply seeds_trans; [exact Hs|].
    eapply seeds_mono; [|exact Hs']. intros k. apply seed_key_mono.
    subst requirements. set_solver.
  - by intros evs l' [-> ?].
Qed.

(** The traversal loop, with an invariant over the fuel left, the events
    so far and the locals. *)
Lemma post_drain solver all_solvers python_bin transitive
    (Inv : nat → list event → Locals → Prop) fuel l :
  Inv fuel [] l →
  (∀ fuel evs l n v q cmds l',
     Inv (S fuel) evs l → queue l = (n, v) :: q →
     Forall (runs_with python_bin) cmds →
     discovers transitive all_solvers (url (release_fetcher_source solver)) n v
       (popped l) l' →
     Inv fuel (evs ++ Discover (url (release_fetcher_source solver)) n v :: cmds) l') →
  post (drain ext fuel solver all_solvers python_bin transitive l)
    (λ evs o,
       match o with
       | Return l' => ∃ fuel', Inv fuel' evs l' ∧ queue l' = []
       | Raise e =>
           ∃ fuel' evs0 l0 n v q cmds,
             Inv fuel' evs0 l0 ∧ queue l0 = (n, v) :: q ∧
             evs = evs0 ++ Discover (url (release_fetcher_source solver)) n v :: cmds ∧
             Forall (runs_with python_bin) cmds ∧ discover_raises n e
       | OutOfFuel => ∃ l0, Inv 0 evs l0 ∧ queue l0 ≠ []
       end).
Proof.
  intros H0 Hstep.
  cut (∀ fuel evs l, Inv fuel evs l →
         post (drain ext fuel solver all_solvers python_bin transitive l)
           (λ evs' o,
              match o with
              | Return l' => ∃ fuel', Inv fuel' (evs ++ evs') l' ∧ queue l' = []
              | Raise e =>
                  ∃ fuel' evs0 l0 n v q cmds,
                    Inv fuel' evs0 l0 ∧ queue l0 = (n, v) :: q ∧
                    evs ++ evs' =
                      evs0 ++ Discover (url (release_fetcher_source solver)) n v :: cmds ∧
                    Forall (runs_with python_bin) cmds ∧ discover_raises n e
              | OutOfFuel => ∃ l0, Inv 0 (evs ++ evs') l0 ∧ queue l0 ≠ []
              end)).
  { intros Hcut. eapply post_mono; [by apply (Hcut fuel [] l)|]. by intros evs o. }
  clear fuel l H0. induction fuel as [|fuel IH]; intros evs l Hinv.
  - destruct l as [seen pk er ur up q]. destruct q as [|[n v] q]; simpl.
    + apply post_ret. rewrite app_nil_r. eauto.
    + intros st. exists []. rewrite !app_nil_r. split; [done|]. simpl. eauto.
  - destruct (queue l) as [|[n v] q] eqn:Hq.
    + destruct l; simpl in *; subst. apply post_ret. rewrite app_nil_r. eauto.
    + replace (drain ext (S fuel) solver all_solvers python_bin transitive l) with
        (bind (discover ext solver all_solvers python_bin transitive n v (popped l))
              (drain ext fuel solver all_solvers python_bin transitive)).
      2: { destruct l; simpl in *; by subst. }
      apply post_bind. eapply post_mono; [apply post_discover|].
      intros evs' [l'|e|]; simpl; [| |by intros [_ []]].
      * intros [(cmds & -> & Hcmds) Hd].
        eapply post_mono; [apply IH; by eapply Hstep|].
        intros evs'' o Ho. simpl in Ho. rewrite <- app_assoc in Ho. exact Ho.
      * intros [(cmds & -> & Hcmds) He]. by exists (S fuel), evs, l, n, v, q, cmds.
Qed.

End Functions.

(** ** A pass *)
Section Pass.

Context {World : Type}.
Variable ext : Externals World.

Local Abbreviation post := (@post World _).
Local Abbreviation command_fails := (command_fails ext).
Local Abbreviation inventory_entry := (inventory_entry ext).
Local Abbreviation resolution_raises := (resolution_raises ext).
Local Abbreviation discover_raises := (discover_raises ext).
Local Abbreviation setup_raises := (setup_raises ext).
Local Abbreviation discovers := (discovers ext).
Local Abbreviation seed_key := (seed_key ext).
Local Abbreviation dependency_key := (dependency_key ext).
Local Abbreviation resolution_key := (resolution_key ext).

Lemma runs_with_pass_event python_bin ev : runs_with python_bin ev → pass_event python_bin ev.
Proof. intros [rest ->]. by exists rest. Qed.

Lemma post_elim {A} (m : M World A) R st :
  post m R → ∃ evs, trace (m st).1 = trace st ++ evs ∧ R evs (m st).2.
Proof. intros H. apply H. Qed.

(** A pass, with an invariant [Inv] of its traversal loop that holds of
    what the seed loop leaves.  The events of the pass begin with the
    creation of the environment; [devs] are those of the traversal. *)
Lemma post_do_resolve_index fuel solver all_solvers requirements python_version
    exclude_packages transitive (Inv : nat → list event → Locals → Prop) :
  let idx := url (release_fetcher_source solver) in
  let python_bin := interpreter python_version in
  (∀ l0, seeds (seed_key requirements exclude_packages (release_fetcher_source solver))
               initial_locals l0 → Inv fuel [] l0) →
  (∀ fuel evs l n v q cmds l',
     Inv (S fuel) evs l → queue l = (n, v) :: q →
     Forall (runs_with python_bin) cmds →
     discovers transitive all_solvers idx n v (popped l) l' →
     Inv fuel (evs ++ Discover idx n v :: cmds) l') →
  post (_do_resolve_index ext fuel solver all_solvers requirements python_version
          exclude_packages transitive)
    (λ evs o,
       ∃ evs', evs = Run "virtualenv -p python3 venv" :: evs' ∧
               Forall (pass_event python_bin) evs' ∧
       match o with
       | Return r =>
           ∃ fuel' devs l,
             evs' = Run (python_bin +:+ " -m pip install pipdeptree")
                    :: Run (python_bin +:+ " -m pipdeptree --json") :: devs ∧
             Inv fuel' devs l ∧ queue l = [] ∧
             tree r = packages l ∧ errors r = l_errors l ∧
             unparsed r = l_unparsed l ∧ unresolved r = l_unresolved l
       | Raise e =>
           setup_raises python_bin e ∨
           ∃ fuel' evs0 l0 n v q, Inv fuel' evs0 l0 ∧ queue l0 = (n, v) :: q ∧
                                  discover_raises n e
       | OutOfFuel => ∃ devs l0, Inv 0 devs l0 ∧ queue l0 ≠ []
       end).
Proof.
  intros idx python_bin Hseed Hstep. unfold _do_resolve_index.
  change ("venv/bin/" +:+ (if Z.eqb python_version 3 then "python3" else "python2"))
    with python_bin.
  assert (Hi : pass_event python_bin (Run (python_bin +:+ " -m pip install pipdeptree"))).
  { by exists "pip install pipdeptree". }
  assert (Hj : pass_event python_bin (Run (python_bin +:+ " -m pipdeptree --json"))).
  { by exists "pipdeptree --json". }
  apply post_bind, post_run_command; simpl.
  2: { intros code _ Hf. eexists. split; [done|]. split; [constructor|]. left.
       split; [set_solver | done]. }
  intros w _. apply post_bind, post_run_command; simpl.
  2: { intros code _ Hf. eexists. split; [done|]. split; [by repeat constructor|]. left.
       split; [set_solver | done]. }
  intros w' _. apply post_bind.
  eapply post_mono; [apply post_seed_loop|].
  intros evs [l0|e|]; simpl; [| |by intros []].
  2: { intros [-> He]. eexists. split; [done|]. split; [by repeat constructor|]. left.
       destruct He as [-> ?]. by split. }
  intros [-> Hl0]. apply post_bind.
  eapply post_mono; [apply post_get_environment_details|].
  intros evs [environment_details|e|]; simpl; [| |by intros []].
  2: { intros [-> (code & -> & Hf)]. eexists. split; [done|].
       split; [by repeat constructor|]. left. split; [set_solver | done]. }
  intros [-> _]. apply post_bind.
  eapply post_mono.
  { apply (post_drain ext solver all_solvers python_bin transitive
             (λ f evs l, Inv f evs l ∧ Forall (pass_event python_bin) evs)).
    - split; [by apply Hseed | constructor].
    - intros f evs l n v q cmds l' [Hinv Hevs] Hq Hcmds Hd. split; [by eapply Hstep|].
      apply Forall_app. split; [done|]. constructor; [done|].
      eapply Forall_impl; [exact Hcmds|]. apply runs_with_pass_event. }
  intros evs [l|e|]; simpl.
  - intros (fuel' & [Hinv Hevs] & Hq). apply post_ret. rewrite app_nil_r.
    eexists. split; [done|]. split; [by repeat constructor|].
    exists fuel', evs, l. done.
  - intros (fuel' & evs0 & l1 & n & v & q & cmds & [Hinv Hevs] & Hq & -> & Hcmds & He).
    eexists. split; [done|]. split.
    + repeat (constructor; [done|]). apply Forall_app. split; [done|].
      constructor; [done|]. eapply Forall_impl; [exact Hcmds|]. apply runs_with_pass_event.
    + right. by exists fuel', evs0, l1, n, v, q.
  - intros (l1 & [Hinv Hevs] & Hq). eexists. split; [done|].
    split; [by repeat constructor|]. by exists evs, l1.
Qed.

End Pass.

(** ** The environment of a pass *)
Section Environment.

Context {World : Type}.
Variable ext : Externals World.

(** C10: every pass creates its environment with the command
    [virtualenv -p python3 venv], whatever [python_version] is; every later
    command of the pass goes through [venv/bin/python3] when
    [python_version] is 3 and through [venv/bin/python2] otherwise. *)
Theorem environment_created_with_python3 fuel solver all_solvers requirements
    python_version exclude_packages transitive (st : State World) :
  ∃ evs,
    trace (_do_resolve_index ext fuel solver all_solvers requirements python_version
             exclude_packages transitive st).1
    = trace st ++ Run "virtualenv -p python3 venv" :: evs ∧
    Forall (pass_event (interpreter python_version)) evs ∧
    interpreter python_version =
      if Z.eqb python_version 3 then "venv/bin/python3" else "venv/bin/python2".
Proof.
  destruct (post_do_resolve_index ext fuel solver all_solvers requirements
              python_version exclude_packages transitive (λ _ _ _, True)
              (λ _ _, I) (λ _ _ _ _ _ _ _ _ _ _ _ _, I) st)
    as (evs & Ht & evs' & -> & Hevs & _).
  exists evs'. split; [done|]. split; [done|].
  unfold interpreter. by destruct (Z.eqb python_version 3).
Qed.

End Environment.

(** ** The orchestration *)
Section Orchestration.

Context {World : Type}.
Variable ext : Externals World.

Local Abbreviation post := (@post World _).

Lemma solver_of_urls index_urls :
  map (λ s, url (release_fetcher_source s)) (map solver_of index_urls) = index_urls.
Proof. induction index_urls as [|u us IH]; simpl; [done | by rewrite IH]. Qed.

(** [resolve] runs the passes in order: what holds of every pass's result
    holds of every element of its result. *)
Lemma post_resolve fuel requirements index_urls python_version exclude_packages transitive
    (P : PassResult → Prop) (E : exn → Prop) :
  (∀ solver, solver ∈ map solver_of index_urls →
     post (_do_resolve_index ext fuel solver (map solver_of index_urls) requirements
             python_version exclude_packages transitive)
       (λ evs o, match o with
                 | Return r => P r
                 | Raise e => E e
                 | OutOfFuel => True
                 end)) →
  post (resolve ext fuel requirements index_urls python_version exclude_packages transitive)
    (λ evs o, match o with
              | Return results =>
                  Forall P results ∧ length results = length index_urls
              | Raise e =>
                  if (Z.eqb python_version 2 || Z.eqb python_version 3)%bool then E e
                  else e = AssertionError "Unknown Python version"
              | OutOfFuel => True
              end).
Proof.
  intros Hpass. unfold resolve.
  destruct (Z.eqb python_version 2 || Z.eqb python_version 3)%bool; simpl;
    [|by apply post_raise].
  apply (post_for_each _ _
    (λ done evs results, Forall P results ∧ length results = length done)).
  - by split.
  - intros done solver rest evs results Hl [HP Hlen]. apply post_bind.
    eapply post_mono; [apply Hpass; rewrite Hl; set_solver|].
    intros evs' [r|e|]; simpl; [|done..].
    intros Hr. apply post_ret. split.
    + apply Forall_app. split; [done | by constructor].
    + rewrite !length_app. simpl. lia.
  - intros evs results [HP Hlen]. split; [done|]. by rewrite Hlen, length_map.
Qed.

End Orchestration.

(** ** The tree of a pass *)
Section Tree.

Context {World : Type}.
Variable ext : Externals World.

Local Abbreviation post := (@post World _).
Local Abbreviation discovers := (discovers ext).
Local Abbreviation expanded := (expanded ext).

Lemma seeds_initial (P : string * string → Prop) l l' :
  seeds P l l' →
  packages l' = packages l ∧ l_errors l' = l_errors l ∧
  ∃ new, queue l' = new ++ queue l ∧ Forall P new ∧
         packages_seen l' = list_to_set new ∪ packages_seen l.
Proof.
  induction 1 as [l| l l' u _ IH | l l' u _ IH | l l' k _ IH HP]; simpl.
  - split; [done|]. split; [done|]. exists []. split; [done|]. split; [done|]. set_solver.
  - done.
  - done.
  - destruct IH as (Hp & He & new & Hq & Hnew & Hs). split; [done|]. split; [done|].
    exists (k :: new). rewrite Hq, Hs. split; [done|]. split; [by constructor|]. set_solver.
Qed.

Lemma expanded_cross_resolved transitive all_solvers l d d' :
  expanded transitive all_solvers l d d' →
  cross_resolved (map (λ s, url (release_fetcher_source s)) all_solvers) d'.
Proof.
  intros (_ & _ & rvs & Hrvs & Hall). exists rvs. split; [done|].
  clear Hrvs. induction Hall as [|s rv ss rvs' (Hi & _) _ IH]; simpl; [done|].
  by rewrite Hi, IH.
Qed.

(** What one turn of the traversal does to [packages] and [errors]. *)
Lemma discovers_records transitive all_solvers idx n v l l' :
  discovers transitive all_solvers idx n v l l' →
  (packages l' = packages l ∧ ∃ err, l_errors l' = l_errors l ++ [err]) ∨
  (l_errors l' = l_errors l ∧
   ∃ entry, packages l' = packages l ++ [entry] ∧
            Forall (cross_resolved (map (λ s, url (release_fetcher_source s)) all_solvers))
                   (dependencies entry)).
Proof.
  intros [(err & -> & _)|(info & entry & l1 & _ & _ & -> & _ & _ & _ & Hall & Hadm)].
  - left. simpl. eauto.
  - right. assert (packages l1 = packages l ∧ l_errors l1 = l_errors l) as [Hp He].
    { destruct transitive; [|by subst]. by apply admits_frame in Hadm as (? & ? & _). }
    simpl. rewrite Hp, He. split; [done|]. exists entry. split; [done|].
    clear -Hall. induction Hall as [|d d' ds ds' Hd _ IH]; constructor; [|done].
    by eapply expanded_cross_resolved.
Qed.

Lemma post_tree_cross_resolved fuel solver all_solvers requirements python_version
    exclude_packages transitive :
  post (_do_resolve_index ext fuel solver all_solvers requirements python_version
          exclude_packages transitive)
    (λ evs o,
       match o with
       | Return r =>
           Forall (λ entry,
                     Forall (cross_resolved
                               (map (λ s, url (release_fetcher_source s)) all_solvers))
                            (dependencies entry))
                  (tree r)
       | _ => True
       end).
Proof.
  eapply post_mono.
  { apply (post_do_resolve_index ext fuel solver all_solvers requirements python_version
             exclude_packages transitive
             (λ _ _ l,
                Forall (λ entry,
                          Forall (cross_resolved
                                    (map (λ s, url (release_fetcher_source s)) all_solvers))
                                 (dependencies entry))
                       (packages l))).
    - intros l0 (Hp & _)%seeds_initial. rewrite Hp. constructor.
    - intros _ _ l n v q cmds l' Hinv _ _ Hd.
      apply discovers_records in Hd as [[Hp _]|(_ & entry & Hp & He)]; rewrite Hp.
      + done.
      + apply Forall_app. split; [done | by constructor]. }
  intros evs [r| |]; [|done..].
  intros (evs' & _ & _ & fuel' & devs & l & _ & Hinv & _ & -> & _). done.
Qed.

(** C5: in every [PassResult] that [resolve] returns, every dependency
    record of every entry of [tree] has a [resolved_versions] sequence with
    exactly one element per configured index, in the order of [index_urls],
    whatever the resolutions gave. *)
Theorem resolved_versions_one_per_index fuel requirements index_urls python_version
    exclude_packages transitive (st st' : State World) results r entry d :
  resolve ext fuel requirements index_urls python_version exclude_packages transitive st
    = (st', Return results) →
  r ∈ results → entry ∈ tree r → d ∈ dependencies entry →
  cross_resolved index_urls d.
Proof.
  intros Hrun Hr He Hd.
  pose proof (post_resolve ext fuel requirements index_urls python_version
                exclude_packages transitive
                (λ r, Forall (λ entry,
                        Forall (cross_resolved
                                  (map (λ s, url (release_fetcher_source s))
                                       (map solver_of index_urls)))
                               (dependencies entry)) (tree r))
                (λ _, True)) as Hpost.
  destruct (Hpost) with (st := st) as (evs & _ & Hres).
  { intros solver _. eapply post_mono; [apply post_tree_cross_resolved|].
    by intros evs [| |]. }
  rewrite Hrun in Hres. simpl in Hres. destruct Hres as [Hall _].
  rewrite Forall_forall in Hall. specialize (Hall r Hr). simpl in Hall.
  rewrite Forall_forall in Hall. specialize (Hall entry He).
  rewrite Forall_forall in Hall. specialize (Hall d Hd).
  by rewrite solver_of_urls in Hall.
Qed.

End Tree.

(** ** The traversal of a pass *)
Section Traversal.

Context {World : Type}.
Variable ext : Externals World.

Local Abbreviation post := (@post World _).
Local Abbreviation discovers := (discovers ext).
Local Abbreviation expanded := (expanded ext).
Local Abbreviation inventory_entry := (inventory_entry ext).
Local Abbreviation resolution_key := (resolution_key ext).
Local Abbreviation dependency_key := (dependency_key ext).
Local Abbreviation seed_key := (seed_key ext).
Local Abbreviation queued_key := (queued_key ext).
Local Abbreviation entry_of := (entry_of ext).

Lemma discovered_step python_bin evs idx n v cmds :
  Forall (runs_with python_bin) cmds →
  discovered (evs ++ Discover idx n v :: cmds) = discovered evs ++ [(n, v)].
Proof.
  intros Hcmds. rewrite discovered_app. f_equal.
  change (Discover idx n v :: cmds) with ([Discover idx n v] ++ cmds).
  rewrite discovered_app, (discovered_runs python_bin cmds Hcmds). done.
Qed.

Lemma resolution_key_dependency info k :
  inventory_entry info → resolution_key (dependency_records info) k → dependency_key k.
Proof.
  intros Hinfo (d & source & vs & Hd & Hk & Hres & Hv).
  unfold dependency_records in Hd. apply list_elem_of_fmap in Hd as (pd & -> & Hpd).
  simpl in *. by exists info, pd, source, vs.
Qed.

Lemma versions_seen_mono l l' entry :
  packages_seen l ⊆ packages_seen l' → versions_seen l entry → versions_seen l' entry.
Proof. intros Hsub Hv d rvs rv v ????. apply Hsub. by eapply Hv. Qed.

Lemma expanded_versions_seen all_solvers l deps entry :
  Forall2 (expanded true all_solvers l) deps (dependencies entry) →
  versions_seen l entry.
Proof.
  intros Hall d' rvs rv v Hd' Hrvs Hrv Hv.
  apply list_elem_of_lookup in Hd' as [i Hi].
  destruct (Forall2_lookup_r _ _ _ _ _ Hall Hi) as (d & _ & Hn & _ & rvs' & Hrvs' & Hres).
  rewrite Hrvs in Hrvs'. injection Hrvs' as <-.
  apply list_elem_of_lookup in Hrv as [j Hj].
  destruct (Forall2_lookup_r _ _ _ _ _ Hres Hj) as (s & _ & _ & _ & Hseen).
  rewrite Hn. by apply Hseen.
Qed.

(** The accounting of a pass: every discovery is of a pair that may be
    queued, every entry of [tree] comes from such a discovery, and every
    discovery left one record in [tree] or [errors]. *)
Lemma post_accounting fuel solver all_solvers requirements python_version
    exclude_packages transitive :
  let P := queued_key requirements exclude_packages (release_fetcher_source solver)
             transitive in
  post (_do_resolve_index ext fuel solver all_solvers requirements python_version
          exclude_packages transitive)
    (λ evs o,
       match o with
       | Return r =>
           Forall P (discovered evs) ∧ Forall (entry_of P) (tree r) ∧
           length (discovered evs) = length (tree r) + length (errors r)
       | _ => True
       end).
Proof.
  intros P. eapply post_mono.
  { apply (post_do_resolve_index ext fuel solver all_solvers requirements python_version
             exclude_packages transitive
             (λ _ evs l,
                Forall P (queue l) ∧ Forall P (discovered evs) ∧
                Forall (entry_of P) (packages l) ∧
                length (discovered evs) = length (packages l) + length (l_errors l))).
    - intros l0 (Hp & He & new & Hq & Hnew & _)%seeds_initial.
      rewrite Hp, He, Hq. simpl. rewrite app_nil_r. repeat split; try constructor.
      eapply Forall_impl; [exact Hnew|]. intros k Hk. by left.
    - intros _ evs l n v q cmds l' (Hqueue & Hdisc & Hpk & Hlen) Hq Hcmds Hd.
      rewrite Hq in Hqueue. apply Forall_cons in Hqueue as [Hnv Hqueue].
      rewrite (discovered_step _ _ _ _ _ _ Hcmds), length_app. simpl.
      assert (Hdisc' : Forall P (discovered evs ++ [(n, v)])).
      { apply Forall_app. split; [done | by constructor]. }
      destruct Hd as [(err & -> & _)
                     |(info & entry & l1 & Hinfo & Hkey & -> & Hpn & Hpv & _ & Hall & Hadm)];
        simpl.
      + rewrite Hq. simpl. repeat split; try done. rewrite length_app. simpl. lia.
      + assert (packages l1 = packages l ∧ l_errors l1 = l_errors l ∧
                Forall P (queue l1)) as (Hp & He & Hq1).
        { destruct transitive.
          - pose proof (admits_frame _ _ _ Hadm) as (Hp & He & _).
            apply admits_queue in Hadm as (new & Hq1 & _ & Hnew & _).
            split; [done|]. split; [done|]. rewrite Hq1. simpl. rewrite Hq. simpl.
            apply Forall_app. split; [|done].
            eapply Forall_impl; [exact Hnew|]. intros k Hk. right. split; [done|].
            by eapply resolution_key_dependency.
          - subst l1. simpl. rewrite Hq. done. }
        rewrite Hp, He. repeat split; try done.
        * apply Forall_app. split; [done|]. constructor; [|done].
          by exists (n, v), info.
        * rewrite length_app. simpl. lia. }
  intros evs [r| |]; [|done..].
  intros (evs' & -> & _ & fuel' & devs & l & -> & (_ & Hdisc & Hpk & Hlen) & _ & -> & -> & _).
  done.
Qed.

(** The visited-set of a transitive pass: every pair in it is queued or
    discovered, and it holds every version resolved for a dependency of
    an entry of [tree]. *)
Lemma post_transitive_closure fuel solver all_solvers requirements python_version
    exclude_packages :
  post (_do_resolve_index ext fuel solver all_solvers requirements python_version
          exclude_packages true)
    (λ evs o,
       match o with
       | Return r =>
           ∀ entry d rvs rv v,
             entry ∈ tree r → d ∈ dependencies entry →
             dep_resolved_versions d = Some rvs → rv ∈ rvs → v ∈ versions rv →
             (dep_package_name d, v) ∈ discovered evs
       | _ => True
       end).
Proof.
  eapply post_mono.
  { apply (post_do_resolve_index ext fuel solver all_solvers requirements python_version
             exclude_packages true
             (λ _ evs l,
                (∀ k, k ∈ packages_seen l → k ∈ queue l ∨ k ∈ discovered evs) ∧
                Forall (versions_seen l) (packages l))).
    - intros l0 (Hp & _ & new & Hq & _ & Hs)%seeds_initial.
      rewrite Hp, Hq, Hs. simpl. rewrite app_nil_r. split; [|constructor].
      intros k Hk. left. set_solver.
    - intros _ evs l n v q cmds l' (Hseen & Hpk) Hq Hcmds Hd.
      rewrite (discovered_step _ _ _ _ _ _ Hcmds).
      assert (Hseen' : ∀ k, k ∈ packages_seen l → k ∈ q ∨ k ∈ discovered evs ++ [(n, v)]).
      { intros k Hk. destruct (Hseen k Hk) as [Hin|Hin]; [|set_solver].
        rewrite Hq in Hin. set_solver. }
      destruct Hd as [(err & -> & _)
                     |(info & entry & l1 & Hinfo & Hkey & -> & _ & _ & _ & Hall & Hadm)];
        simpl.
      + rewrite Hq. done.
      + pose proof (admits_frame _ _ _ Hadm) as (Hp & _).
        pose proof (admits_seen _ _ _ Hadm) as Hsub.
        apply admits_queue in Hadm as (new & Hq1 & Hs1 & _).
        simpl in *. rewrite Hq in Hq1. simpl in Hq1. split.
        * intros k Hk. rewrite Hs1 in Hk. rewrite Hq1.
          apply elem_of_union in Hk as [Hk|Hk]; [left; set_solver|].
          destruct (Hseen' k Hk); set_solver.
        * rewrite Hp. apply Forall_app. split.
          -- eapply Forall_impl; [exact Hpk|]. intros e. by apply versions_seen_mono.
          -- constructor; [|done]. by eapply expanded_versions_seen. }
  intros evs [r| |]; [|done..].
  intros (evs' & -> & _ & fuel' & devs & l & -> & (Hseen & Hpk) & Hq & -> & _).
  intros entry d rvs rv v He Hd Hrvs Hrv Hv.
  rewrite Forall_forall in Hpk. specialize (Hpk entry He d rvs rv v Hd Hrvs Hrv Hv).
  destruct (Hseen _ Hpk) as [Hin|Hin]; [rewrite Hq in Hin; set_solver|]. done.
Qed.

(** What a turn of the traversal loop leaves of the visited-set and the
    queue when the pass is not transitive. *)
Lemma discover_not_transitive solver all_solvers python_bin n v l (st st' : State World) l' :
  discover ext solver all_solvers python_bin false n v l st = (st', Return l') →
  packages_seen l' = packages_seen l ∧ queue l' = queue l.
Proof.
  intros Hrun.
  destruct (post_discover ext solver all_solvers python_bin false n v l st)
    as (evs & _ & _ & Hd).
  rewrite Hrun in Hd. simpl in Hd.
  by destruct Hd as [(err & -> & _)|(info & entry & l1 & _ & _ & -> & _ & _ & _ & _ & ->)].
Qed.

(** C7: when [transitive] is false, a turn of the traversal loop leaves
    the visited-set and the queue as the pop left them, every discovery of
    the pass is of a pair that a seed requirement resolved to at the
    pass's own index, and every entry of [tree] comes from the discovery of
    such a pair. *)
Theorem non_transitive_probes_only_seeds fuel solver all_solvers requirements
    python_version exclude_packages (st st' : State World) r :
  _do_resolve_index ext fuel solver all_solvers requirements python_version
    exclude_packages false st = (st', Return r) →
  (∀ python_bin n v l (st1 st2 : State World) l',
     discover ext solver all_solvers python_bin false n v l st1 = (st2, Return l') →
     packages_seen l' = packages_seen l ∧ queue l' = queue l) ∧
  ∃ evs,
    trace st' = trace st ++ evs ∧
    Forall (seed_key requirements exclude_packages (release_fetcher_source solver))
           (discovered evs) ∧
    Forall (entry_of (seed_key requirements exclude_packages
                        (release_fetcher_source solver)))
           (tree r) ∧
    length (discovered evs) = length (tree r) + length (errors r).
Proof.
  intros Hrun. split; [intros; by eapply discover_not_transitive|].
  destruct (post_accounting fuel solver all_solvers requirements python_version
              exclude_packages false st) as (evs & Ht & Hacc).
  rewrite Hrun in *. simpl in *. destruct Hacc as (Hdisc & Htree & Hlen).
  exists evs. split; [done|].
  assert (Hq : ∀ k, queued_key requirements exclude_packages
                      (release_fetcher_source solver) false k →
                    seed_key requirements exclude_packages
                      (release_fetcher_source solver) k).
  { by intros k [?|[? _]]. }
  split; [by eapply Forall_impl|]. split; [|done].
  eapply Forall_impl; [exact Htree|].
  intros e (k & info & Hk & ?). exists k, info. split; [by apply Hq | done].
Qed.

End Traversal.

(** ** Termination and what is raised *)
Section Termination.

Context {World : Type}.
Variable ext : Externals World.

Local Open Scope nat_scope.

Local Abbreviation post := (@post World _).
Local Abbreviation discovers := (discovers ext).
Local Abbreviation inventory_entry := (inventory_entry ext).
Local Abbreviation resolution_key := (resolution_key ext).
Local Abbreviation dependency_key := (dependency_key ext).
Local Abbreviation queued_key := (queued_key ext).
Local Abbreviation pass_raises := (pass_raises ext).
Local Abbreviation propagates := (propagates ext).
Local Abbreviation pool := (pool ext).
Local Abbreviation aligned := (aligned ext).

Lemma bind_run {A B} (m : M World A) (k : A → M World B) st :
  bind m k st = match m st with
                | (st', Return a) => k a st'
                | (st', Raise e) => (st', Raise e)
                | (st', OutOfFuel) => (st', OutOfFuel)
                end.
Proof. done. Qed.

Lemma for_each_cons_run {A S} (x : A) l (body : S → A → M World S) s st :
  for_each (x :: l) body s st
  = match body s x st with
    | (st', Return s') => for_each l body s' st'
    | (st', Raise e) => (st', Raise e)
    | (st', OutOfFuel) => (st', OutOfFuel)
    end.
Proof. done. Qed.

(** More fuel does not change a traversal that had enough. *)
Lemma drain_fuel_mono solver all_solvers python_bin transitive fuel :
  ∀ fuel' l (st : State World),
    fuel ≤ fuel' →
    (drain ext fuel solver all_solvers python_bin transitive l st).2 ≠ OutOfFuel →
    drain ext fuel' solver all_solvers python_bin transitive l st
    = drain ext fuel solver all_solvers python_bin transitive l st.
Proof.
  induction fuel as [|fuel IH]; intros fuel' l st Hle Hout.
  - destruct l as [seen pk er ur up [|[n v] q]]; [by destruct fuel'|]. by simpl in Hout.
  - destruct fuel' as [|fuel']; [lia|].
    destruct l as [seen pk er ur up [|[n v] q]]; [done|]. simpl in *. unfold bind in *.
    destruct (discover _ _ _ _ _ _ _ _ _) as [st1 [l'| |]]; [|done..].
    apply IH; [lia | done].
Qed.

Lemma discovers_remaining U transitive all_solvers idx n v l l' :
  pool U transitive →
  discovers transitive all_solvers idx n v l l' → remaining U l' = remaining U l.
Proof.
  intros HU [(err & -> & _)|(info & entry & l1 & Hinfo & _ & -> & _ & _ & _ & _ & Hadm)].
  - done.
  - change (remaining U (add_package entry l1)) with (remaining U l1).
    destruct transitive; [|by subst].
    eapply admits_remaining; [|exact Hadm]. intros k Hk. apply HU; [done|].
    by eapply resolution_key_dependency.
Qed.

(** With a finite pool, fuel beyond the measure is enough. *)
Lemma drain_enough U solver all_solvers python_bin transitive fuel l (st : State World) :
  pool U transitive → remaining U l < fuel →
  (drain ext fuel solver all_solvers python_bin transitive l st).2 ≠ OutOfFuel.
Proof.
  intros HU Hfuel Hout.
  destruct (post_drain ext solver all_solvers python_bin transitive
              (λ f _ l, remaining U l < f) fuel l Hfuel) with (st := st)
    as (evs & _ & Hres).
  { intros f evs l0 n v q cmds l' Hf Hq _ Hd.
    rewrite (discovers_remaining U _ _ _ _ _ _ _ HU Hd).
    pose proof (remaining_popped U l0 (n, v) q Hq). lia. }
  rewrite Hout in Hres. destruct Hres as (l0 & Hl0 & _). lia.
Qed.

Lemma run_command_fuel cmd raise_on_error (st : State World) :
  (run_command ext cmd raise_on_error st).2 ≠ OutOfFuel.
Proof.
  destruct (post_run_command ext cmd raise_on_error (λ _ o, o ≠ OutOfFuel)) with (st := st)
    as (evs & _ & H); done.
Qed.

(** A pass settles: from some fuel on, its result no longer depends on
    the fuel and it is not out of fuel. *)
Lemma pass_settles U solver all_solvers requirements python_version exclude_packages
    transitive (st : State World) :
  pool U transitive →
  ∃ fuel0, ∀ fuel, fuel0 ≤ fuel →
    _do_resolve_index ext fuel solver all_solvers requirements python_version
      exclude_packages transitive st
    = _do_resolve_index ext fuel0 solver all_solvers requirements python_version
        exclude_packages transitive st ∧
    (_do_resolve_index ext fuel0 solver all_solvers requirements python_version
       exclude_packages transitive st).2 ≠ OutOfFuel.
Proof.
  intros HU. unfold _do_resolve_index, bind.
  pose proof (run_command_fuel "virtualenv -p python3 venv" true st) as H1.
  destruct (run_command ext "virtualenv -p python3 venv" true st) as [st1 [r1|e1|]];
    [|by exists 0..].
  match goal with |- context [run_command ext ?c true st1] =>
    pose proof (run_command_fuel c true st1) as H2;
    destruct (run_command ext c true st1) as [st2 [r2|e2|]]; [|by exists 0..]
  end.
  destruct (post_seed_loop ext solver exclude_packages requirements initial_locals st2)
    as (evs3 & _ & _ & H3).
  destruct (for_each requirements _ initial_locals st2) as [st3 [l0|e3|]];
    [|by exists 0..].
  match goal with |- context [_get_environment_details ext ?pb st3] =>
    destruct (post_get_environment_details ext pb st3) as (evs4 & _ & _ & H4);
    destruct (_get_environment_details ext pb st3) as [st4 [env|e4|]]; [|by exists 0..]
  end.
  exists (S (remaining U l0)). intros fuel Hfuel.
  match goal with |- context [drain ext _ solver all_solvers ?pb transitive l0 st4] =>
    pose proof (drain_enough U solver all_solvers pb transitive (S (remaining U l0))
                  l0 st4 HU ltac:(lia)) as H5;
    rewrite (drain_fuel_mono solver all_solvers pb transitive (S (remaining U l0))
               fuel l0 st4 Hfuel H5)
  end.
  split; [done|].
  destruct (drain ext _ _ _ _ _ _ _) as [st5 [l'|e5|]]; done.
Qed.

(** The loop of [resolve] over the solvers settles too. *)
Lemma passes_settle U all_solvers requirements python_version exclude_packages transitive :
  pool U transitive →
  ∀ solvers results (st : State World),
  ∃ fuel0, ∀ fuel, fuel0 ≤ fuel →
    for_each solvers
      (λ result solver,
         bind (_do_resolve_index ext fuel solver all_solvers requirements python_version
                 exclude_packages transitive)
              (λ r, ret (result ++ [r]))) results st
    = for_each solvers
        (λ result solver,
           bind (_do_resolve_index ext fuel0 solver all_solvers requirements
                   python_version exclude_packages transitive)
                (λ r, ret (result ++ [r]))) results st ∧
    (for_each solvers
       (λ result solver,
          bind (_do_resolve_index ext fuel0 solver all_solvers requirements
                  python_version exclude_packages transitive)
               (λ r, ret (result ++ [r]))) results st).2 ≠ OutOfFuel.
Proof.
  intros HU. induction solvers as [|solver solvers IH]; intros results st.
  - by exists 0.
  - destruct (pass_settles U solver all_solvers requirements python_version
                exclude_packages transitive st HU) as (f1 & Hf1).
    destruct (_do_resolve_index ext f1 solver all_solvers requirements python_version
                exclude_packages transitive st) as [st1 o1] eqn:Hp.
    assert (Hany : ∀ f, f1 ≤ f →
              _do_resolve_index ext f solver all_solvers requirements python_version
                exclude_packages transitive st = (st1, o1)).
    { intros f Hf. by destruct (Hf1 f Hf) as [-> _]. }
    assert (Ho1 : o1 ≠ OutOfFuel). { by destruct (Hf1 f1 (le_n _)) as [_ ?]. }
    destruct o1 as [r|e|]; [| |done].
    + destruct (IH (results ++ [r]) st1) as (f2 & Hf2).
      exists (f1 `max` f2). intros f Hf. rewrite !for_each_cons_run, !bind_run.
      rewrite (Hany f ltac:(lia)), (Hany (f1 `max` f2) ltac:(lia)).
      change (ret (results ++ [r]) st1) with (st1, Return (results ++ [r])). cbv iota.
      destruct (Hf2 f ltac:(lia)) as [-> _].
      destruct (Hf2 (f1 `max` f2) ltac:(lia)) as [-> Hne]. done.
    + exists f1. intros f Hf. rewrite !for_each_cons_run, !bind_run.
      rewrite (Hany f Hf), Hp. done.
Qed.

(** A returned list of results is aligned with the solvers. *)
Lemma passes_aligned fuel all_solvers requirements python_version exclude_packages
    transitive :
  ∀ solvers results (st st' : State World) results',
    for_each solvers
      (λ result solver,
         bind (_do_resolve_index ext fuel solver all_solvers requirements python_version
                 exclude_packages transitive)
              (λ r, ret (result ++ [r]))) results st
    = (st', Return results') →
    ∃ rs, results' = results ++ rs ∧
          Forall2 (λ solver r,
                     ∃ st1 st2,
                       _do_resolve_index ext fuel solver all_solvers requirements
                         python_version exclude_packages transitive st1
                       = (st2, Return r))
                  solvers rs.
Proof.
  induction solvers as [|solver solvers IH]; intros results st st' results' Hrun.
  - injection Hrun as <- <-. exists []. by rewrite app_nil_r.
  - rewrite for_each_cons_run, bind_run in Hrun.
    destruct (_do_resolve_index ext fuel solver _ _ _ _ _ st) as [st1 [r|e|]] eqn:Hp;
      [|done..].
    change (ret (results ++ [r]) st1) with (st1, Return (results ++ [r])) in Hrun.
    cbv iota in Hrun. apply IH in Hrun as (rs & -> & Hall).
    exists (r :: rs). rewrite <- app_assoc. split; [done|]. constructor; [eauto | done].
Qed.

(** What a pass raises. *)
Lemma post_pass_raises fuel solver all_solvers requirements python_version
    exclude_packages transitive :
  post (_do_resolve_index ext fuel solver all_solvers requirements python_version
          exclude_packages transitive)
    (λ evs o,
       match o with
       | Raise e =>
           pass_raises requirements exclude_packages (release_fetcher_source solver)
             python_version transitive e
       | _ => True
       end).
Proof.
  eapply post_mono.
  { apply (post_do_resolve_index ext fuel solver all_solvers requirements python_version
             exclude_packages transitive
             (λ _ _ l,
                Forall (queued_key requirements exclude_packages
                          (release_fetcher_source solver) transitive) (queue l))).
    - intros l0 (_ & _ & new & Hq & Hnew & _)%seeds_initial.
      rewrite Hq. simpl. rewrite app_nil_r.
      eapply Forall_impl; [exact Hnew|]. intros k Hk. by left.
    - intros _ evs l n v q cmds l' Hqueue Hq Hcmds Hd.
      rewrite Hq in Hqueue. apply Forall_cons in Hqueue as [_ Hqueue].
      destruct Hd as [(err & -> & _)
                     |(info & entry & l1 & Hinfo & _ & -> & _ & _ & _ & _ & Hadm)];
        simpl; [by rewrite Hq|].
      destruct transitive; [|subst l1; simpl; by rewrite Hq].
      apply admits_queue in Hadm as (new & -> & _ & Hnew & _). simpl. rewrite Hq. simpl.
      apply Forall_app. split; [|done].
      eapply Forall_impl; [exact Hnew|]. intros k Hk. right. split; [done|].
      by eapply resolution_key_dependency. }
  intros evs [r|e|]; [done| |done].
  intros (evs' & _ & _ & [Hsetup|(f & evs0 & l0 & n & v & q & Hinv & Hq & He)]).
  - destruct e; simpl in *; done.
  - rewrite Hq in Hinv. apply Forall_cons in Hinv as [Hnv _].
    destruct e; simpl in *; try done. subst n. by exists ("", v).
Qed.

(** [resolve], once [python_version] is 2 or 3 and the pool is finite:
    with enough fuel it returns results aligned with the indices or raises
    what the pass of one index raises. *)
Lemma resolve_outcome U requirements index_urls python_version exclude_packages
    transitive (st : State World) :
  (python_version = 2 ∨ python_version = 3)%Z → pool U transitive →
  ∃ fuel0, ∀ fuel, fuel0 ≤ fuel →
    ∃ st' o,
      resolve ext fuel requirements index_urls python_version exclude_packages
        transitive st = (st', o) ∧
      match o with
      | Return results =>
          length results = length index_urls ∧
          aligned fuel requirements index_urls python_version exclude_packages
            transitive results
      | Raise e =>
          propagates requirements index_urls python_version exclude_packages transitive e
      | OutOfFuel => False
      end.
Proof.
  intros Hpv HU.
  destruct (passes_settle U (map solver_of index_urls) requirements python_version
              exclude_packages transitive HU (map solver_of index_urls) [] st)
    as (fuel0 & Hsettle).
  exists fuel0. intros fuel Hfuel.
  destruct (resolve ext fuel requirements index_urls python_version exclude_packages
              transitive st) as [st' o] eqn:Hrun.
  exists st', o. split; [done|].
  pose proof (post_resolve ext fuel requirements index_urls python_version
                exclude_packages transitive (λ _, True)
                (propagates requirements index_urls python_version exclude_packages
                   transitive)) as Hpost.
  destruct Hpost with (st := st) as (evs & _ & Hres).
  { intros solver Hs. eapply post_mono; [apply post_pass_raises|].
    intros evs [r|e|]; [done| |done]. intros He.
    apply list_elem_of_fmap in Hs as (u & -> & Hu). by exists u. }
  rewrite Hrun in Hres. simpl in Hres.
  assert (Hok : (Z.eqb python_version 2 || Z.eqb python_version 3)%bool = true).
  { by destruct Hpv as [-> | ->]. }
  rewrite Hok in Hres.
  unfold resolve in Hrun. rewrite Hok in Hrun. simpl in Hrun.
  destruct o as [results|e|].
  - destruct Hres as [_ Hlen]. split; [done|].
    apply passes_aligned in Hrun as (rs & -> & Hall). unfold aligned. simpl.
    by apply Forall2_fmap_l in Hall.
  - done.
  - destruct (Hsettle fuel Hfuel) as [Heq Hne]. rewrite Hrun in Heq.
    by rewrite <- Heq in Hne.
Qed.

End Termination.

(** ** The commands and the record of a probe *)
Section ProbeRecord.

Context {World : Type}.
Variable ext : Externals World.

Local Abbreviation post := (@post World _).
Local Abbreviation command_fails := (command_fails ext).
Local Abbreviation inventory_entry := (inventory_entry ext).
Local Abbreviation discovers := (discovers ext).
Local Abbreviation seed_key := (seed_key ext).
Local Abbreviation probe_record := (probe_record ext).
Local Abbreviation probed := (probed ext).
Local Abbreviation turn_record := (turn_record ext).

Lemma post_conj {A} (m : M World A) (R1 R2 : list event → outcome A → Prop) :
  post m R1 → post m R2 → post m (λ evs o, R1 evs o ∧ R2 evs o).
Proof.
  intros H1 H2 st. destruct (H1 st) as (evs & Ht & Hr1). destruct (H2 st) as (evs' & Ht' & Hr2).
  rewrite Ht in Ht'. apply app_inv_head in Ht' as <-. by exists evs.
Qed.

Lemma post_pipdeptree_command python_bin n :
  post (_pipdeptree ext python_bin n)
    (λ evs o, evs = [Run (inventory_command python_bin)] ∧
       match o with
       | Return r => ∀ info, r = FoundEntry info → inventory_entry info ∧ matches n info
       | Raise e => ∃ code, e = CommandError (inventory_command python_bin) code ∧
                            command_fails (inventory_command python_bin) code
       | OutOfFuel => False
       end).
Proof.
  eapply post_mono; [apply post_pipdeptree|].
  intros evs [r|e|]; [|done..]. intros [-> Hr]. split; [done|]. intros info ->.
  destruct (truthy n); [|by destruct Hr]. by destruct Hr as [?|(? & [= <-] & ? & ?)].
Qed.

Lemma post_enter_commands python_bin n version idx :
  post (_install_requirement_enter ext python_bin n version idx)
    (λ evs o,
       match o with
       | Return _ =>
           evs = [ Run (inventory_command python_bin);
                   Run (install_command python_bin n version idx) ]
       | Raise e =>
           ∃ cmd code,
             e = CommandError cmd code ∧ command_fails cmd code ∧
             ((evs = [ Run (inventory_command python_bin) ] ∧
               cmd = inventory_command python_bin) ∨
              (evs = [ Run (inventory_command python_bin);
                       Run (install_command python_bin n version idx) ] ∧
               cmd = install_command python_bin n version idx))
       | OutOfFuel => False
       end).
Proof.
  unfold _install_requirement_enter. apply post_bind.
  eapply post_mono; [apply post_pipdeptree_command|].
  intros evs [prev|e|]; simpl; [|intros [-> (code & -> & Hf)]; eauto 10|by intros []].
  intros [-> _]. apply post_bind, post_run_command.
  - intros w _. simpl. by apply post_ret.
  - intros code _ Hf. simpl. exists (install_command python_bin n version idx), code.
    split; [done|]. split; [done|]. by right.
Qed.

Lemma post_exit_commands python_bin n previous_version :
  post (_install_requirement_exit ext python_bin n true previous_version)
    (λ evs o,
       match o with
       | Return _ =>
           ∃ restore, restore_command python_bin n previous_version = Some restore ∧
                      evs = [Run restore]
       | Raise e => ∃ msg, e = TypeError msg
       | OutOfFuel => True
       end).
Proof.
  unfold _install_requirement_exit. simpl.
  destruct previous_version as [[|e out]|entry|]; simpl.
  - apply post_bind, post_run_command; [|done]. intros w _. simpl. apply post_ret. eauto.
  - apply post_bind. apply post_raise. simpl. eauto.
  - apply post_bind, post_ret. simpl. apply post_bind, post_run_command; [|done].
    intros w _. simpl. apply post_ret. eauto.
  - apply post_bind, post_run_command; [|done]. intros w _. simpl. apply post_ret. eauto.
Qed.

(** The [try] around the [with] of the traversal loop, command by
    command. *)
Lemma post_probe_commands python_bin n v idx :
  post (try_CommandError
          (_install_requirement ext python_bin n (Some v) (Some idx) true
             (_pipdeptree ext python_bin n)))
    (λ evs o,
       match o with
       | Return (inl (cmd, code)) =>
           cut_short python_bin idx n v evs cmd ∧ command_fails cmd code
       | Return (inr r) =>
           (∃ previous_version restore,
              restore_command python_bin n previous_version = Some restore ∧
              evs = probe_commands python_bin idx n v restore) ∧
           ∀ info, r = FoundEntry info → inventory_entry info ∧ matches n info
       | _ => True
       end).
Proof.
  apply post_try_CommandError. unfold _install_requirement, with_. apply post_bind.
  eapply post_mono; [apply post_enter_commands|].
  intros evs [prev|e|]; simpl; [| |done].
  2: { intros (cmd & code & -> & Hf & [[-> ->]|[-> ->]]); (split; [|done]).
       - by left.
       - right. by left. }
  intros ->. apply post_bind.
  eapply post_mono; [apply post_pipdeptree_command|].
  intros evs [r|e|]; simpl; [| |done].
  2: { intros [-> (code & -> & Hf)]. split; [|done]. right. by right. }
  intros [-> Hr]. apply post_bind.
  eapply post_mono; [apply post_exit_commands|].
  intros evs [[]|e|]; simpl; [|by intros [msg ->]|done].
  intros (restore & Hrestore & ->). apply post_ret. split; [|done].
  by exists prev, restore.
Qed.

(** One turn of the traversal loop: the log line, the commands of the
    probe and the record it leaves. *)
Lemma post_discover_record solver all_solvers python_bin transitive n v l :
  post (discover ext solver all_solvers python_bin transitive n v l)
    (λ evs o,
       match o with
       | Return l' =>
           turn_record python_bin (url (release_fetcher_source solver)) n v l evs l'
       | _ => True
       end).
Proof.
  unfold discover. apply post_bind, post_log. simpl. apply post_bind.
  eapply post_mono; [apply post_probe_commands|].
  intros evs [[[cmd code]|r]|e|]; simpl; [| |done..].
  - intros [Hcut Hf]. apply post_ret. rewrite app_nil_r.
    exists evs, [], [command_error_record (url (release_fetcher_source solver)) n v cmd code].
    split; [done|]. split; [by rewrite app_nil_r|]. split; [done|].
    right. right. exists cmd, code. split; [done|]. split; [done|]. by apply list_elem_of_here.
  - intros [(prev & restore & Hrestore & ->) Hr]. destruct r as [output|info|].
    + by apply post_raise.
    + destruct (Hr info eq_refl) as [Hinfo Hm].
      apply post_bind. eapply post_mono; [apply post_create_entry_source|].
      intros evs' [entry|e|]; simpl; [|done..].
      intros (-> & Hname & Hversion & Hurl & Hdeps). apply post_bind. rewrite Hdeps.
      eapply post_mono; [apply post_expansion|].
      intros evs' [[l1 deps1]|e|]; simpl; [|done..].
      intros (-> & Hall & Hadm). apply post_ret. rewrite !app_nil_r.
      assert (packages l1 = packages l ∧ l_errors l1 = l_errors l) as [Hp He].
      { destruct transitive; [|by subst]. by apply admits_frame in Hadm as (? & ? & _). }
      exists (probe_commands python_bin (url (release_fetcher_source solver)) n v restore),
             [with_dependencies deps1 entry], [].
      split; [done|]. simpl. rewrite Hp, He, app_nil_r. split; [done|]. split; [done|].
      left. exists prev, restore, info, (with_dependencies deps1 entry).
      repeat split; try done. by apply list_elem_of_here.
    + apply post_ret. rewrite app_nil_r.
      exists (probe_commands python_bin (url (release_fetcher_source solver)) n v restore),
             [], [not_site_package_record (url (release_fetcher_source solver)) n v].
      split; [done|]. split; [by rewrite app_nil_r|]. split; [done|].
      right. left. exists prev, restore. split; [done|]. split; [done|].
      by apply list_elem_of_here.
Qed.

Lemma probe_record_mono python_bin idx n v cmds tree tree' errors errors' :
  tree ⊆ tree' → errors ⊆ errors' →
  probe_record python_bin idx n v cmds tree errors →
  probe_record python_bin idx n v cmds tree' errors'.
Proof.
  intros Ht He [(prev & restore & info & entry & ? & ? & ? & ? & Hin & ?)
               |[(prev & restore & ? & ? & Hin)|(cmd & code & ? & ? & Hin)]].
  - left. exists prev, restore, info, entry. auto 10.
  - right. left. exists prev, restore. auto.
  - right. right. exists cmd, code. auto.
Qed.

Lemma probed_mono python_bin idx evs evs' tree tree' errors errors' k :
  tree ⊆ tree' → errors ⊆ errors' →
  probed python_bin idx evs tree errors k →
  probed python_bin idx (evs ++ evs') tree' errors' k.
Proof.
  intros Ht He (before & cmds & after & -> & Hrec).
  exists before, cmds, (after ++ evs'). split.
  - by rewrite <- !app_assoc, <- app_comm_cons, <- app_assoc.
  - by eapply probe_record_mono.
Qed.

Lemma probed_turn python_bin idx n v l evs evs' l' :
  turn_record python_bin idx n v l evs' l' →
  probed python_bin idx (evs ++ evs') (packages l') (l_errors l') (n, v).
Proof.
  intros (cmds & rt & re & -> & Hp & He & Hrec).
  exists evs, cmds, []. rewrite app_nil_r. split; [done|].
  eapply probe_record_mono; [| |exact Hrec].
  - rewrite Hp. intros x Hx. apply elem_of_app. by right.
  - rewrite He. intros x Hx. apply elem_of_app. by right.
Qed.

Lemma cut_short_runs python_bin idx n v cmds cmd :
  cut_short python_bin idx n v cmds cmd → discovered cmds = [].
Proof. by intros [[-> _]|[[-> _]|[-> _]]]. Qed.

Lemma probed_discovered python_bin idx evs tree errors k :
  probed python_bin idx evs tree errors k → k ∈ discovered evs.
Proof.
  intros (before & cmds & after & -> & _). rewrite discovered_app.
  apply elem_of_app. right. destruct k. simpl. by apply list_elem_of_here.
Qed.

Lemma probed_after python_bin idx before evs tree errors k :
  probed python_bin idx evs tree errors k →
  probed python_bin idx (before ++ evs) tree errors k.
Proof.
  intros (b & cmds & after & -> & Hrec). exists (before ++ b), cmds, after.
  by rewrite <- app_assoc.
Qed.

(** The traversal loop, with an invariant over the events and the
    locals, for any description [D] of what a turn does. *)
Lemma post_drain_with solver all_solvers python_bin transitive
    (D : string → string → Locals → list event → Locals → Prop)
    (Inv : list event → Locals → Prop) fuel l :
  (∀ n v l, post (discover ext solver all_solvers python_bin transitive n v l)
              (λ evs o, match o with Return l' => D n v l evs l' | _ => True end)) →
  Inv [] l →
  (∀ evs l n v q evs' l',
     Inv evs l → queue l = (n, v) :: q → D n v (popped l) evs' l' →
     Inv (evs ++ evs') l') →
  post (drain ext fuel solver all_solvers python_bin transitive l)
    (λ evs o, match o with
              | Return l' => Inv evs l' ∧ queue l' = []
              | _ => True
              end).
Proof.
  intros HD H0 Hstep.
  cut (∀ fuel evs l, Inv evs l →
         post (drain ext fuel solver all_solvers python_bin transitive l)
           (λ evs' o, match o with
                      | Return l' => Inv (evs ++ evs') l' ∧ queue l' = []
                      | _ => True
                      end)).
  { intros Hcut. eapply post_mono; [by apply (Hcut fuel [] l)|]. by intros evs o. }
  clear fuel l H0. induction fuel as [|fuel IH]; intros evs l Hinv.
  - destruct l as [seen pk er ur up q]. destruct q as [|[n v] q]; simpl.
    + apply post_ret. by rewrite app_nil_r.
    + intros st. exists []. simpl. by rewrite app_nil_r.
  - destruct (queue l) as [|[n v] q] eqn:Hq.
    + destruct l; simpl in *; subst. apply post_ret. by rewrite app_nil_r.
    + replace (drain ext (S fuel) solver all_solvers python_bin transitive l) with
        (bind (discover ext solver all_solvers python_bin transitive n v (popped l))
              (drain ext fuel solver all_solvers python_bin transitive)).
      2: { destruct l; simpl in *; by subst. }
      apply post_bind. eapply post_mono; [apply HD|].
      intros evs' [l'|e|]; simpl; [|done..].
      intros Hd. eapply post_mono; [apply IH; by eapply Hstep|].
      intros evs'' [l''| |] Ho; [|done..]. by rewrite <- app_assoc in Ho.
Qed.

(** A pass that returns, likewise: after the three setup commands come
    the events [devs] of the traversal, of which [Inv] holds. *)
Lemma post_do_resolve_index_with fuel solver all_solvers requirements python_version
    exclude_packages transitive
    (D : string → string → Locals → list event → Locals → Prop)
    (Inv : list event → Locals → Prop) :
  (∀ n v l, post (discover ext solver all_solvers (interpreter python_version)
                    transitive n v l)
              (λ evs o, match o with Return l' => D n v l evs l' | _ => True end)) →
  (∀ l0, seeds (seed_key requirements exclude_packages (release_fetcher_source solver))
               initial_locals l0 → Inv [] l0) →
  (∀ evs l n v q evs' l',
     Inv evs l → queue l = (n, v) :: q → D n v (popped l) evs' l' →
     Inv (evs ++ evs') l') →
  post (_do_resolve_index ext fuel solver all_solvers requirements python_version
          exclude_packages transitive)
    (λ evs o,
       match o with
       | Return r =>
           ∃ devs l,
             evs = map Run (setup_commands (interpreter python_version)) ++ devs ∧
             Inv devs l ∧ queue l = [] ∧
             tree r = packages l ∧ errors r = l_errors l
       | _ => True
       end).
Proof.
  intros HD Hseed Hstep. unfold _do_resolve_index.
  change ("venv/bin/" +:+ (if Z.eqb python_version 3 then "python3" else "python2"))
    with (interpreter python_version).
  apply post_bind, post_run_command; simpl; [|done].
  intros w _. apply post_bind, post_run_command; simpl; [|done].
  intros w' _. apply post_bind.
  eapply post_mono; [apply post_seed_loop|].
  intros evs [l0|e|]; simpl; [|done..].
  intros [-> Hl0]. apply post_bind.
  eapply post_mono; [apply post_get_environment_details|].
  intros evs [environment_details|e|]; simpl; [|done..].
  intros [-> _]. apply post_bind.
  eapply post_mono; [by apply (post_drain_with solver all_solvers
                                 (interpreter python_version) transitive D Inv);
                        [done | apply Hseed | done]|].
  intros evs [l|e|]; simpl; [|done..].
  intros [Hinv Hq]. apply post_ret. rewrite app_nil_r. by exists evs, l.
Qed.

End ProbeRecord.
(** ** What a pass captures *)
Section Capture.

Context {World : Type}.
Variable ext : Externals World.

Local Abbreviation post := (@post World _).
Local Abbreviation discovers := (discovers ext).
Local Abbreviation probe_record := (probe_record ext).
Local Abbreviation probed := (probed ext).
Local Abbreviation turn_record := (turn_record ext).
Local Abbreviation never_parses := (never_parses ext).
Local Abbreviation always_parses_to := (always_parses_to ext).
Local Abbreviation never_resolves := (never_resolves ext).
Local Abbreviation captured_seeds := (captured_seeds ext).
Local Abbreviation captured := (captured ext).

(** What a turn of the loop never touches, and what it leaves of the
    queue and the visited-set when it does not expand. *)
Lemma discovers_frame transitive all_solvers idx n v l l' :
  discovers transitive all_solvers idx n v l l' →
  l_unparsed l' = l_unparsed l ∧ l_unresolved l' = l_unresolved l.
Proof.
  intros [(err & -> & _)|(info & entry & l1 & _ & _ & -> & _ & _ & _ & _ & Hadm)]; [done|].
  destruct transitive; [|by subst]. by apply admits_frame in Hadm as (_ & _ & ? & ?).
Qed.

Lemma fold_enqueue_pairs n vs l :
  let l' := fold_left (λ l version, enqueue (n, version) l) vs l in
  queue l' = rev ((n,.) <$> vs) ++ queue l ∧
  packages_seen l' = list_to_set ((n,.) <$> vs) ∪ packages_seen l ∧
  l_unresolved l' = l_unresolved l ∧ l_unparsed l' = l_unparsed l.
Proof.
  revert l. induction vs as [|v vs IH]; intros l; simpl.
  - split; [done|]. split; [set_solver | done].
  - destruct (IH (enqueue (n, v) l)) as (Hq & Hs & Hur & Hup). simpl in *.
    rewrite Hq, Hs, Hur, Hup. split; [by rewrite <- app_assoc|]. split; [set_solver | done].
Qed.

Lemma probe_record_runs python_bin idx n v cmds tree errors :
  probe_record python_bin idx n v cmds tree errors → discovered cmds = [].
Proof.
  intros [(prev & restore & info & entry & _ & -> & _)
         |[(prev & restore & _ & -> & _)|(cmd & code & Hcut & _)]]; [done..|].
  by eapply cut_short_runs.
Qed.

Lemma captured_seeds_mono source exclude_packages requirements up up' ur ur' :
  up ⊆ up' → ur ⊆ ur' →
  captured_seeds source exclude_packages requirements up ur →
  captured_seeds source exclude_packages requirements up' ur'.
Proof.
  intros Hup Hur [Hp Hr]. split.
  - intros req Hin Hnever. destruct (Hp req Hin Hnever) as (u & Hu & ?). exists u. auto.
  - intros req dependency Hin Hparse Hname Hnever. apply Hur. by eapply Hr.
Qed.

(** One iteration of the seed loop records the failure of its
    requirement and keeps the records of the requirements before it. *)
Lemma post_seed_captures solver exclude_packages done l req :
  captured_seeds (release_fetcher_source solver) exclude_packages done
    (l_unparsed l) (l_unresolved l) →
  post (seed_requirement ext solver exclude_packages l req)
    (λ _ o,
       match o with
       | Return l' =>
           captured_seeds (release_fetcher_source solver) exclude_packages
             (done ++ [req]) (l_unparsed l') (l_unresolved l')
       | _ => True
       end).
Proof.
  intros Hdone.
  assert (Hstep : ∀ l',
            l_unparsed l ⊆ l_unparsed l' → l_unresolved l ⊆ l_unresolved l' →
            captured_seeds (release_fetcher_source solver) exclude_packages [req]
              (l_unparsed l') (l_unresolved l') →
            captured_seeds (release_fetcher_source solver) exclude_packages
              (done ++ [req]) (l_unparsed l') (l_unresolved l')).
  { intros l' Hup Hur [Hp Hr].
    destruct (captured_seeds_mono _ _ _ _ _ _ _ Hup Hur Hdone) as [Hp' Hr']. split.
    - intros r [Hin|Hin%list_elem_of_singleton]%elem_of_app; [by apply Hp'|].
      apply Hp. subst. apply list_elem_of_here.
    - intros r dependency [Hin|Hin%list_elem_of_singleton]%elem_of_app; [by apply Hr'|].
      apply Hr. subst. apply list_elem_of_here. }
  unfold seed_requirement. apply post_bind, post_call. intros w. simpl.
  destruct (parse_python ext req w).2 as [exc_str|dependency] eqn:Hp.
  - apply post_ret. apply Hstep; simpl.
    + intros x Hx. apply elem_of_app. by left.
    + done.
    + split.
      * intros r ->%list_elem_of_singleton _.
        exists {| requirement := req; details := exc_str |}. split.
        -- apply elem_of_app. right. apply list_elem_of_here.
        -- split; [done|]. by exists w.
      * intros r dependency ->%list_elem_of_singleton Hparse. by rewrite Hparse in Hp.
  - assert (Hnever : ¬ never_parses req).
    { intros Hn. destruct (Hn w) as [d Hd]. by rewrite Hd in Hp. }
    case_decide as Hex.
    + apply post_ret. apply Hstep; [done..|]. split.
      * by intros r ->%list_elem_of_singleton.
      * intros r dependency' ->%list_elem_of_singleton Hparse Hname.
        rewrite Hparse in Hp. by injection Hp as ->.
    + apply post_bind. unfold _resolve_versions. apply post_bind, post_call.
      intros w'. simpl.
      assert (Hrecord : ∀ l',
                l' = add_unresolved
                       {| unres_package_name := name dependency;
                          unres_version_spec :=
                            _get_dependency_specification (spec dependency);
                          unres_index := url (release_fetcher_source solver) |} l →
                captured_seeds (release_fetcher_source solver) exclude_packages
                  (done ++ [req]) (l_unparsed l') (l_unresolved l')).
      { intros l' ->. apply Hstep; simpl.
        - done.
        - intros x Hx. apply elem_of_app. by left.
        - split; [by intros r ->%list_elem_of_singleton|].
          intros r dependency' ->%list_elem_of_singleton Hparse _ _.
          rewrite Hparse in Hp. injection Hp as ->.
          apply elem_of_app. right. apply list_elem_of_here. }
      destruct (solve ext (release_fetcher_source solver) _ w').2
        as [| |[|[key [|v vs]] [|]]] eqn:Hsolve;
        try (by apply post_raise);
        try (apply post_ret; simpl; apply post_ret; by apply Hrecord).
      apply post_ret. simpl. apply post_ret.
      destruct (fold_enqueue_pairs (name dependency) (v :: vs) l) as (_ & _ & Hur & Hup).
      simpl in Hur, Hup. simpl. rewrite Hur, Hup. apply Hstep; [done..|].
      split; [by intros r ->%list_elem_of_singleton|].
      intros r dependency' ->%list_elem_of_singleton Hparse _ Hnone.
      rewrite Hparse in Hp. injection Hp as ->. specialize (Hnone w').
      simpl in Hsolve. by rewrite Hsolve in Hnone.
Qed.

(** The seed failures of a returned pass are in its result. *)
Lemma pass_captures_seeds fuel solver all_solvers requirements python_version
    exclude_packages transitive (st st' : State World) r :
  _do_resolve_index ext fuel solver all_solvers requirements python_version
    exclude_packages transitive st = (st', Return r) →
  captured_seeds (release_fetcher_source solver) exclude_packages requirements
    (unparsed r) (unresolved r).
Proof.
  intros Hrun. unfold _do_resolve_index in Hrun. rewrite bind_run in Hrun.
  destruct (run_command ext _ true st) as [st1 [r1|e1|]]; [|done..].
  rewrite bind_run in Hrun.
  destruct (run_command ext _ true st1) as [st2 [r2|e2|]]; [|done..].
  rewrite bind_run in Hrun.
  pose proof (@post_for_each World string Locals requirements
                (seed_requirement ext solver exclude_packages)
                (λ done _ l, captured_seeds (release_fetcher_source solver)
                               exclude_packages done (l_unparsed l) (l_unresolved l))
                (λ _ o, match o with
                        | Return l =>
                            captured_seeds (release_fetcher_source solver)
                              exclude_packages requirements (l_unparsed l)
                              (l_unresolved l)
                        | _ => True
                        end)
                initial_locals) as Hseed.
  destruct Hseed with (st := st2) as (evs0 & _ & Hl0).
  { split; [intros req Hin|intros req dependency Hin]; by apply elem_of_nil in Hin. }
  { intros done x rest evs l Hl Hinv.
    eapply post_mono; [by apply post_seed_captures|]. by intros evs' [l'| |]. }
  { done. }
  destruct (for_each requirements _ initial_locals st2) as [st3 [l0|e3|]]; [|done..].
  simpl in Hl0. rewrite bind_run in Hrun.
  destruct (_get_environment_details ext _ st3) as [st4 [env|e4|]]; [|done..].
  rewrite bind_run in Hrun.
  destruct (post_drain ext solver all_solvers (interpreter python_version) transitive
              (λ _ _ l, captured_seeds (release_fetcher_source solver) exclude_packages
                          requirements (l_unparsed l) (l_unresolved l))
              fuel l0 Hl0) with (st := st4) as (evs & _ & Hres).
  { intros _ _ l n v q cmds l' Hinv _ _ Hd. apply discovers_frame in Hd as [-> ->]. done. }
  unfold interpreter in Hres.
  destruct (drain ext fuel solver all_solvers _ transitive l0 st4) as [st5 [l'|e5|]];
    [|done..].
  injection Hrun as _ <-. simpl in *. by destruct Hres as (_ & ? & _).
Qed.

(** Every pair that a returned pass discovered has been probed and has
    its record in the result. *)
Lemma post_pass_probed fuel solver all_solvers requirements python_version
    exclude_packages transitive :
  post (_do_resolve_index ext fuel solver all_solvers requirements python_version
          exclude_packages transitive)
    (λ evs o,
       match o with
       | Return r =>
           ∀ k, k ∈ discovered evs →
                probed (interpreter python_version) (url (release_fetcher_source solver))
                  evs (tree r) (errors r) k
       | _ => True
       end).
Proof.
  eapply post_mono.
  { apply (post_do_resolve_index_with ext fuel solver all_solvers requirements
             python_version exclude_packages transitive
             (turn_record (interpreter python_version)
                (url (release_fetcher_source solver)))
             (λ evs l,
                ∀ k, k ∈ discovered evs →
                     probed (interpreter python_version)
                       (url (release_fetcher_source solver)) evs (packages l)
                       (l_errors l) k)).
    - intros n v l. apply post_discover_record.
    - intros l0 _ k Hk. by apply elem_of_nil in Hk.
    - intros evs l n v q evs' l' Hinv Hq Hturn k Hk.
      pose proof (probed_turn ext _ _ _ _ _ evs _ _ Hturn) as Hnv.
      destruct Hturn as (cmds & rt & re & -> & Hpt & Het & Hrec). simpl in Hpt, Het.
      rewrite discovered_app in Hk. apply elem_of_app in Hk as [Hk|Hk].
      + eapply probed_mono; [| |by apply Hinv].
        * rewrite Hpt. intros x Hx. apply elem_of_app. by left.
        * rewrite Het. intros x Hx. apply elem_of_app. by left.
      + change (discovered (Discover (url (release_fetcher_source solver)) n v :: cmds))
          with ((n, v) :: discovered cmds) in Hk.
        rewrite (probe_record_runs _ _ _ _ _ _ _ Hrec) in Hk.
        by apply list_elem_of_singleton in Hk as ->. }
  intros evs [r| |]; [|done..].
  intros (devs & l & -> & Hinv & _ & -> & ->) k Hk.
  rewrite discovered_app in Hk. apply elem_of_app in Hk as [Hk|Hk].
  - exfalso. revert Hk. unfold setup_commands. simpl. by intros ?%elem_of_nil.
  - apply probed_after. by apply Hinv.
Qed.

(** A returned pass has captured the failures of its seed requirements
    and of its probes. *)
Lemma pass_captured fuel solver all_solvers requirements python_version
    exclude_packages transitive (st st' : State World) r :
  _do_resolve_index ext fuel solver all_solvers requirements python_version
    exclude_packages transitive st = (st', Return r) →
  ∃ evs, trace st' = trace st ++ evs ∧
         captured (interpreter python_version) (release_fetcher_source solver)
           requirements exclude_packages evs r.
Proof.
  intros Hrun.
  destruct (post_pass_probed fuel solver all_solvers requirements python_version
              exclude_packages transitive st) as (evs & Ht & Hprobed).
  rewrite Hrun in Ht, Hprobed. exists evs. split; [done|]. split; [|done].
  by eapply pass_captures_seeds.
Qed.

End Capture.


(** ** What [resolve] returns and raises *)
Section Resolve.

Context {World : Type}.
Variable ext : Externals World.

Local Open Scope nat_scope.

Local Abbreviation post := (@post World _).
Local Abbreviation propagates := (propagates ext).
Local Abbreviation pool := (pool ext).
Local Abbreviation aligned := (aligned ext).
Local Abbreviation captured := (captured ext).

(** Whenever [resolve] returns, with any fuel, its result is aligned. *)
Lemma resolve_returns_aligned fuel requirements index_urls python_version
    exclude_packages transitive (st st' : State World) results :
  resolve ext fuel requirements index_urls python_version exclude_packages transitive st
    = (st', Return results) →
  length results = length index_urls ∧
  aligned fuel requirements index_urls python_version exclude_packages transitive results.
Proof.
  intros Hrun. unfold resolve in Hrun.
  destruct (Z.eqb python_version 2 || Z.eqb python_version 3)%bool; [|done].
  simpl in Hrun. apply passes_aligned in Hrun as (rs & -> & Hall). simpl.
  apply Forall2_fmap_l in Hall. split; [|done].
  by apply Forall2_length in Hall.
Qed.

(** What [resolve] raises, with any fuel. *)
Lemma resolve_raises fuel requirements index_urls python_version exclude_packages
    transitive (st st' : State World) e :
  resolve ext fuel requirements index_urls python_version exclude_packages transitive st
    = (st', Raise e) →
  if (Z.eqb python_version 2 || Z.eqb python_version 3)%bool
  then propagates requirements index_urls python_version exclude_packages transitive e
  else e = AssertionError "Unknown Python version".
Proof.
  intros Hrun.
  pose proof (post_resolve ext fuel requirements index_urls python_version
                exclude_packages transitive (λ _, True)
                (propagates requirements index_urls python_version exclude_packages
                   transitive)) as Hpost.
  destruct Hpost with (st := st) as (evs & _ & Hres).
  { intros solver Hs. eapply post_mono; [apply post_pass_raises|].
    intros evs [r|e'|]; [done| |done]. intros He.
    apply list_elem_of_fmap in Hs as (u & -> & Hu). by exists u. }
  by rewrite Hrun in Hres.
Qed.

(** With a finite pool and enough fuel, [resolve] returns or raises. *)
Lemma resolve_total U requirements index_urls python_version exclude_packages
    transitive (st : State World) :
  pool U transitive →
  ∃ fuel0, ∀ fuel, fuel0 ≤ fuel →
    (resolve ext fuel requirements index_urls python_version exclude_packages
       transitive st).2 ≠ OutOfFuel.
Proof.
  intros HU.
  destruct (Z.eqb python_version 2 || Z.eqb python_version 3)%bool eqn:Hok.
  - assert (Hpv : (python_version = 2 ∨ python_version = 3)%Z).
    { apply orb_true_iff in Hok as [?%Z.eqb_eq|?%Z.eqb_eq]; auto. }
    destruct (resolve_outcome ext U requirements index_urls python_version
                exclude_packages transitive st Hpv HU) as (fuel0 & Hout).
    exists fuel0. intros fuel Hfuel.
    destruct (Hout fuel Hfuel) as (st' & o & -> & Hres). simpl. by destruct o.
  - exists 0. intros fuel _. unfold resolve. by rewrite Hok.
Qed.

(** C4, as the code has it: whenever [resolve] returns, with any fuel and
    from any state, it returns exactly one [PassResult] per element of
    [index_urls], the i-th being what the pass of the i-th URL returned.
    It does not always return: it raises when [python_version] is neither
    2 nor 3 or when something propagates out of a pass.  With finitely
    many pairs to admit and enough fuel it returns such a list or raises,
    and it returns when nothing propagates. *)
Theorem resolve_one_result_per_index U requirements index_urls python_version
    exclude_packages transitive (st : State World) :
  (∀ fuel st' results,
     resolve ext fuel requirements index_urls python_version exclude_packages
       transitive st = (st', Return results) →
     length results = length index_urls ∧
     aligned fuel requirements index_urls python_version exclude_packages transitive
       results) ∧
  (pool U transitive →
   ∃ fuel0, ∀ fuel, fuel0 ≤ fuel →
     ∃ st' o,
       resolve ext fuel requirements index_urls python_version exclude_packages
         transitive st = (st', o) ∧
       match o with
       | Return results =>
           length results = length index_urls ∧
           aligned fuel requirements index_urls python_version exclude_packages
             transitive results
       | Raise e =>
           if (Z.eqb python_version 2 || Z.eqb python_version 3)%bool
           then propagates requirements index_urls python_version exclude_packages
                  transitive e
           else e = AssertionError "Unknown Python version"
       | OutOfFuel => False
       end) ∧
  (pool U transitive → (python_version = 2 ∨ python_version = 3)%Z →
   (∀ e, ¬ propagates requirements index_urls python_version exclude_packages
             transitive e) →
   ∃ fuel0, ∀ fuel, fuel0 ≤ fuel →
     ∃ st' results,
       resolve ext fuel requirements index_urls python_version exclude_packages
         transitive st = (st', Return results)).
Proof.
  split; [intros; by eapply resolve_returns_aligned|]. split.
  - intros HU.
    destruct (resolve_total U requirements index_urls python_version exclude_packages
                transitive st HU) as (fuel0 & Htotal).
    exists fuel0. intros fuel Hfuel. specialize (Htotal fuel Hfuel).
    destruct (resolve ext fuel requirements index_urls python_version exclude_packages
                transitive st) as [st' o] eqn:Hrun.
    exists st', o. split; [done|]. destruct o as [results|e|]; [| |done].
    + by eapply resolve_returns_aligned.
    + by eapply resolve_raises.
  - intros HU Hpv Hquiet.
    destruct (resolve_total U requirements index_urls python_version exclude_packages
                transitive st HU) as (fuel0 & Htotal).
    exists fuel0. intros fuel Hfuel. specialize (Htotal fuel Hfuel).
    destruct (resolve ext fuel requirements index_urls python_version exclude_packages
                transitive st) as [st' o] eqn:Hrun.
    destruct o as [results|e|]; [by exists st', results| |done].
    apply resolve_raises in Hrun.
    assert (Hok : (Z.eqb python_version 2 || Z.eqb python_version 3)%bool = true).
    { by destruct Hpv as [-> | ->]. }
    rewrite Hok in Hrun. by apply Hquiet in Hrun.
Qed.

(** The state after a call of a collaborator that left the world [w]. *)
Lemma call_run {A} (f : World → World * A) (st : State World) w a :
  f (world st) = (w, a) →
  call f st = ({| world := w; trace := trace st |}, Return a).
Proof. intros Hf. unfold call. by rewrite Hf. Qed.

(** What a seed requirement does once parsed and not excluded. *)
Lemma seed_requirement_parsed solver exclude_packages l requirement (st : State World)
    w1 dependency w2 answer :
  parse_python ext requirement (world st) = (w1, inr dependency) →
  name dependency ∉ exclude_packages →
  solve ext (release_fetcher_source solver)
    (name dependency +:+ _get_dependency_specification (spec dependency)) w1
    = (w2, answer) →
  seed_requirement ext solver exclude_packages l requirement st
  = match answer with
    | SolveMapping [(_, v :: vs)] =>
        ({| world := w2; trace := trace st |},
         Return (fold_left (λ l version, enqueue (name dependency, version) l)
                           (v :: vs) l))
    | SolveMapping (_ :: _ :: _) | SolveMapping [] =>
        ({| world := w2; trace := trace st |}, Raise (AssertionError multiple_packages))
    | _ =>
        ({| world := w2; trace := trace st |},
         Return (add_unresolved
                   {| unres_package_name := name dependency;
                      unres_version_spec := _get_dependency_specification (spec dependency);
                      unres_index := url (release_fetcher_source solver) |} l))
    end.
Proof.
  intros Hparse Hname Hsolve. unfold seed_requirement.
  rewrite bind_run, (call_run _ _ _ _ Hparse). cbv iota.
  rewrite decide_False by done. unfold _resolve_versions.
  rewrite !bind_run. rewrite (call_run _ _ w2 answer) by done.
  by destruct answer as [| |[|[key [|v vs]] [|]]].
Qed.

(** C3, as the code has it.  [resolve] raises when [python_version] is
    neither 2 nor 3, and otherwise raises only what propagates out of a
    pass: the [CommandError] of one of the three commands run outside the
    [try] of the traversal (creation of the environment, installation of
    pipdeptree, baseline inventory), a failure of the hash lookup, the
    assertion on a resolution with other than one package, or a
    [TypeError] for an empty package name.  Every other failure is
    captured where it occurs: a parse failure becomes an [unparsed]
    record, a resolution that finds nothing or fails an [unresolved]
    record, a failing command of the probe a [command_error] record naming
    it, a package missing from the inventory a [not_site_package] record;
    a failing restoring command raises nothing.  Whenever [resolve]
    returns there is one [PassResult] per index, each returned by the pass
    of its index and holding these records: the [unparsed] record of
    every requirement that never parses, the [unresolved] record of every
    requirement that parses, is not excluded and never resolves, and for
    every pair the pass discovered the record of its probe.  With finitely
    many pairs to admit and enough fuel [resolve] returns or raises. *)
Theorem resolve_raises_only_uncaught U requirements index_urls python_version
    exclude_packages transitive (st : State World) :
  (∀ fuel st' e,
     resolve ext fuel requirements index_urls python_version exclude_packages
       transitive st = (st', Raise e) →
     if (Z.eqb python_version 2 || Z.eqb python_version 3)%bool
     then propagates requirements index_urls python_version exclude_packages transitive e
     else e = AssertionError "Unknown Python version") ∧
  (∀ fuel st' results,
     resolve ext fuel requirements index_urls python_version exclude_packages
       transitive st = (st', Return results) →
     (python_version = 2 ∨ python_version = 3)%Z ∧
     length results = length index_urls ∧
     Forall2 (λ u r,
                ∃ (st1 st2 : State World) evs,
                  _do_resolve_index ext fuel (solver_of u) (map solver_of index_urls)
                    requirements python_version exclude_packages transitive st1
                  = (st2, Return r) ∧
                  trace st2 = trace st1 ++ evs ∧
                  captured (interpreter python_version) {| url := u |} requirements
                    exclude_packages evs r)
             index_urls results) ∧
  (pool U transitive →
   ∃ fuel0, ∀ fuel, fuel0 ≤ fuel →
     (resolve ext fuel requirements index_urls python_version exclude_packages
        transitive st).2 ≠ OutOfFuel) ∧
  (∀ solver l requirement (st1 : State World) w1 d,
     parse_python ext requirement (world st1) = (w1, inl d) →
     seed_requirement ext solver exclude_packages l requirement st1
     = ({| world := w1; trace := trace st1 |},
        Return (add_unparsed {| requirement := requirement; details := d |} l))) ∧
  (∀ solver l requirement (st1 : State World) w1 dependency w2 answer,
     parse_python ext requirement (world st1) = (w1, inr dependency) →
     name dependency ∉ exclude_packages →
     solve ext (release_fetcher_source solver)
       (name dependency +:+ _get_dependency_specification (spec dependency)) w1
       = (w2, answer) →
     answer = SolveNotFound ∨ answer = SolveException ∨
       (∃ key, answer = SolveMapping [(key, [])]) →
     seed_requirement ext solver exclude_packages l requirement st1
     = ({| world := w2; trace := trace st1 |},
        Return (add_unresolved
                  {| unres_package_name := name dependency;
                     unres_version_spec :=
                       _get_dependency_specification (spec dependency);
                     unres_index := url (release_fetcher_source solver) |} l))) ∧
  (∀ solver all_solvers python_bin n v l (st1 st2 : State World) l',
     discover ext solver all_solvers python_bin transitive n v l st1 = (st2, Return l') →
     ∃ evs, trace st2 = trace st1 ++ evs ∧
            turn_record ext python_bin (url (release_fetcher_source solver)) n v l evs l') ∧
  (∀ solver all_solvers python_bin n v l (st1 : State World) cmd code,
     (discover ext solver all_solvers python_bin transitive n v l st1).2
     ≠ Raise (CommandError cmd code) ∧
     (discover ext solver all_solvers python_bin transitive n v l st1).2 ≠ OutOfFuel ∧
     ∀ previous_version,
       (_install_requirement_exit ext python_bin n true previous_version st1).2
       ≠ Raise (CommandError cmd code)) ∧
  (∀ solver l requirement (st1 : State World) e,
     (seed_requirement ext solver exclude_packages l requirement st1).2 = Raise e →
     e = AssertionError multiple_packages).
Proof.
  split; [intros; by eapply resolve_raises|].
  split.
  { intros fuel st' results Hrun. split.
    { unfold resolve in Hrun.
      destruct (Z.eqb python_version 2 || Z.eqb python_version 3)%bool eqn:Hok; [|done].
      apply orb_true_iff in Hok as [?%Z.eqb_eq|?%Z.eqb_eq]; auto. }
    destruct (resolve_returns_aligned fuel requirements index_urls python_version
                exclude_packages transitive st st' results Hrun) as [Hlen Hal].
    split; [done|]. eapply Forall2_impl; [exact Hal|].
    intros u r (st1 & st2 & Hpass). simpl in Hpass.
    destruct (pass_captured ext _ _ _ _ _ _ _ _ _ _ Hpass) as (evs & Ht & Hcap).
    by exists st1, st2, evs. }
  split; [by apply resolve_total|].
  split.
  { intros solver l requirement st1 w1 d Hparse. unfold seed_requirement.
    by rewrite bind_run, (call_run _ _ _ _ Hparse). }
  split.
  { intros solver l requirement st1 w1 dependency w2 answer Hparse Hname Hsolve Hanswer.
    rewrite (seed_requirement_parsed solver exclude_packages l requirement st1 w1
               dependency w2 answer Hparse Hname Hsolve).
    by destruct Hanswer as [->|[->|[key ->]]]. }
  split.
  { intros solver all_solvers python_bin n v l st1 st2 l' Hrun.
    destruct (post_discover_record ext solver all_solvers python_bin transitive n v l st1)
      as (evs & Ht & Hres).
    rewrite Hrun in Ht, Hres. by exists evs. }
  split.
  - intros solver all_solvers python_bin n v l st1 cmd code.
    destruct (post_discover ext solver all_solvers python_bin transitive n v l st1)
      as (evs & _ & _ & Hres).
    split; [|split].
    + intros He. rewrite He in Hres. done.
    + intros He. by rewrite He in Hres.
    + intros previous_version He.
      destruct (post_exit_commands ext python_bin n previous_version st1)
        as (evs' & _ & Hexit).
      rewrite He in Hexit. by destruct Hexit.
  - intros solver l requirement st1 e He.
    destruct (post_seed_requirement ext solver exclude_packages l requirement st1)
      as (evs & _ & _ & Hres).
    rewrite He in Hres. by destruct Hres.
Qed.

(** C9: the exclusion test of the seed loop is exact membership.  A
    requirement whose parsed name is not itself in [exclude_packages], even
    though it differs from an excluded name [x] only in letter case, is
    not skipped: its range is resolved at the pass's index and, when the
    index answers with versions, the pair of every one of them is added to
    the visited-set and the queue (the last version first to be popped);
    the step is the very step taken when nothing is excluded. *)
Theorem exclusion_is_case_sensitive solver exclude_packages l requirement
    (st : State World) w1 dependency x :
  parse_python ext requirement (world st) = (w1, inr dependency) →
  x ∈ exclude_packages → lower x = lower (name dependency) →
  name dependency ∉ exclude_packages →
  seed_requirement ext solver exclude_packages l requirement st
  = seed_requirement ext solver ∅ l requirement st ∧
  ∀ w2 key v vs,
    solve ext (release_fetcher_source solver)
      (name dependency +:+ _get_dependency_specification (spec dependency)) w1
      = (w2, SolveMapping [(key, v :: vs)]) →
    ∃ l',
      seed_requirement ext solver exclude_packages l requirement st
      = ({| world := w2; trace := trace st |}, Return l') ∧
      queue l' = rev ((name dependency,.) <$> v :: vs) ++ queue l ∧
      packages_seen l'
      = list_to_set ((name dependency,.) <$> v :: vs) ∪ packages_seen l ∧
      l_unresolved l' = l_unresolved l ∧ l_unparsed l' = l_unparsed l.
Proof.
  intros Hparse _ _ Hname. split.
  - destruct (solve ext (release_fetcher_source solver)
                (name dependency +:+ _get_dependency_specification (spec dependency)) w1)
      as [w2 answer] eqn:Hsolve.
    rewrite (seed_requirement_parsed solver exclude_packages l requirement st w1
               dependency w2 answer Hparse Hname Hsolve).
    symmetry. apply seed_requirement_parsed with (w1 := w1); [done | set_solver | done].
  - intros w2 key v vs Hsolve.
    rewrite (seed_requirement_parsed solver exclude_packages l requirement st w1
               dependency w2 _ Hparse Hname Hsolve).
    eexists. split; [done|]. apply (fold_enqueue_pairs (name dependency) (v :: vs) l).
Qed.

(** When the body of the [with] raises, [_install_requirement] ends in
    the state the body left, with the body's exception: the code after the
    [yield] is not run. *)
Lemma install_requirement_body_raises {B} python_bin package version idx clean
    (body : M World B) (st st1 st2 : State World) previous_version e :
  _install_requirement_enter ext python_bin package version idx st
    = (st1, Return previous_version) →
  body st1 = (st2, Raise e) →
  _install_requirement ext python_bin package version idx clean body st = (st2, Raise e).
Proof.
  intros Henter Hbody. unfold _install_requirement, with_.
  by rewrite bind_run, Henter, bind_run, Hbody.
Qed.

End Resolve.

(** ** The visited-set key *)

(** C6, as the code has it: the key of the visited-set is the pair as
    spelled.  Two pairs whose names differ only in letter case are two
    keys: when neither is in the visited-set, the expansion queues both;
    the very same pair is queued once. *)
Theorem visited_set_key_is_exact (n1 n2 v : string) (l : Locals) :
  lower n1 = lower n2 → n1 ≠ n2 →
  (n1, v) ∉ packages_seen l → (n2, v) ∉ packages_seen l →
  queue (admit_versions n2 [v] (admit_versions n1 [v] l)) = (n2, v) :: (n1, v) :: queue l ∧
  queue (admit_versions n1 [v] (admit_versions n1 [v] l)) = (n1, v) :: queue l.
Proof.
  intros _ Hne H1 H2. unfold admit_versions. simpl.
  rewrite (decide_False (P := (n1, v) ∈ packages_seen l)) by done. simpl.
  rewrite decide_False by set_solver. rewrite decide_True by set_solver. done.
Qed.

(** ** Dependencies of probed packages *)
Section Dependencies.

Context {World : Type}.
Variable ext : Externals World.

Local Abbreviation post := (@post World _).
Local Abbreviation discovers := (discovers ext).
Local Abbreviation probed := (probed ext).
Local Abbreviation turn_record := (turn_record ext).
Local Abbreviation own_entry := (own_entry ext).

(** In a transitive pass that returns, every version resolved for a
    dependency of an entry of [tree] has been probed. *)
Lemma post_transitive_probed fuel solver all_solvers requirements python_version
    exclude_packages :
  post (_do_resolve_index ext fuel solver all_solvers requirements python_version
          exclude_packages true)
    (λ evs o,
       match o with
       | Return r =>
           ∀ entry d rvs rv v,
             entry ∈ tree r → d ∈ dependencies entry →
             dep_resolved_versions d = Some rvs → rv ∈ rvs → v ∈ versions rv →
             probed (interpreter python_version) (url (release_fetcher_source solver))
               evs (tree r) (errors r) (dep_package_name d, v)
       | _ => True
       end).
Proof.
  eapply post_mono.
  { apply (post_do_resolve_index_with ext fuel solver all_solvers requirements
             python_version exclude_packages true
             (λ n v l evs l',
                discovers true all_solvers (url (release_fetcher_source solver)) n v l l' ∧
                turn_record (interpreter python_version)
                  (url (release_fetcher_source solver)) n v l evs l')
             (λ evs l,
                (∀ k, k ∈ packages_seen l →
                      k ∈ queue l ∨
                      probed (interpreter python_version)
                        (url (release_fetcher_source solver)) evs (packages l)
                        (l_errors l) k) ∧
                Forall (versions_seen l) (packages l))).
    - intros n v l. eapply post_mono.
      { apply post_conj; [apply post_discover | apply post_discover_record]. }
      intros evs [l'| |]; [|done..]. by intros [[_ ?] ?].
    - intros l0 (Hp & _ & new & Hq & _ & Hs)%seeds_initial.
      rewrite Hp, Hq, Hs. simpl. rewrite app_nil_r. split; [|constructor].
      intros k Hk. left. set_solver.
    - intros evs l n v q evs' l' (Hseen & Hpk) Hq [Hd Hturn].
      pose proof (probed_turn ext _ _ _ _ _ evs _ _ Hturn) as Hnv.
      destruct Hturn as (cmds & rt & re & -> & Hpt & Het & _). simpl in Hpt, Het.
      assert (Hold : ∀ k, k ∈ packages_seen l →
                k ∈ q ∨ probed (interpreter python_version)
                          (url (release_fetcher_source solver))
                          (evs ++ Discover (url (release_fetcher_source solver)) n v :: cmds)
                          (packages l') (l_errors l') k).
      { intros k Hk. destruct (Hseen k Hk) as [Hin|Hin].
        - rewrite Hq in Hin. apply elem_of_cons in Hin as [->|Hin]; [by right | by left].
        - right. eapply probed_mono; [| |exact Hin].
          + rewrite Hpt. intros x Hx. apply elem_of_app. by left.
          + rewrite Het. intros x Hx. apply elem_of_app. by left. }
      destruct Hd as [(err & -> & _)
                     |(info & entry & l1 & Hinfo & Hkey & -> & _ & _ & _ & Hall & Hadm)];
        simpl in *.
      + rewrite Hq. done.
      + pose proof (admits_frame _ _ _ Hadm) as (Hp & _).
        pose proof (admits_seen _ _ _ Hadm) as Hsub.
        apply admits_queue in Hadm as (new & Hq1 & Hs1 & _).
        simpl in *. rewrite Hq in Hq1. simpl in Hq1. split.
        * intros k Hk. rewrite Hs1 in Hk. rewrite Hq1.
          apply elem_of_union in Hk as [Hk|Hk]; [left; set_solver|].
          destruct (Hold k Hk); [left; set_solver | by right].
        * rewrite Hp. apply Forall_app. split.
          -- eapply Forall_impl; [exact Hpk|]. intros e. by apply versions_seen_mono.
          -- constructor; [|done]. by eapply expanded_versions_seen. }
  intros evs [r| |]; [|done..].
  intros (devs & l & -> & (Hseen & Hpk) & Hq & -> & ->).
  intros entry d rvs rv v He Hd Hrvs Hrv Hv.
  rewrite Forall_forall in Hpk. specialize (Hpk entry He d rvs rv v Hd Hrvs Hrv Hv).
  destruct (Hseen _ Hpk) as [Hin|Hin]; [rewrite Hq in Hin; set_solver|].
  by apply probed_after.
Qed.

(** C8: in a transitive pass, every version that some index resolves for
    a dependency of a probed package is itself probed, also when the
    dependency's name is in [exclude_packages]: its log line is in the
    trace of the pass, followed by the commands of its probe (inventory,
    install of that name and version from the pass's index, inspection,
    restoring command; fewer only when one of them failed), and the probe
    left its record: an entry of [tree] of its own when the inspection
    found the package, else an error record naming the pair: unless
    [errors] holds a record for the pair, [tree] holds an entry made for
    the package.  Every discovery leaves one record in [tree] or
    [errors]. *)
Theorem excluded_dependency_is_probed fuel solver all_solvers requirements python_version
    exclude_packages (st st' : State World) r entry d rvs rv v :
  _do_resolve_index ext fuel solver all_solvers requirements python_version
    exclude_packages true st = (st', Return r) →
  entry ∈ tree r → d ∈ dependencies entry → dep_package_name d ∈ exclude_packages →
  dep_resolved_versions d = Some rvs → rv ∈ rvs → v ∈ versions rv →
  ∃ evs, trace st' = trace st ++ evs ∧
         (dep_package_name d, v) ∈ discovered evs ∧
         length (discovered evs) = length (tree r) + length (errors r) ∧
         probed (interpreter python_version) (url (release_fetcher_source solver))
           evs (tree r) (errors r) (dep_package_name d, v) ∧
         ((∀ err, err ∈ errors r →
                  ¬ (err_package_name err = dep_package_name d ∧ err_version err = v)) →
          own_entry (url (release_fetcher_source solver)) (dep_package_name d) (tree r)).
Proof.
  intros Hrun He Hd _ Hrvs Hrv Hv.
  destruct (post_transitive_probed fuel solver all_solvers requirements python_version
              exclude_packages st) as (evs & Ht & Hprobed).
  destruct (post_accounting ext fuel solver all_solvers requirements python_version
              exclude_packages true st) as (evs' & Ht' & Hacc).
  rewrite Hrun in *. simpl in *. rewrite Ht in Ht'. apply app_inv_head in Ht' as <-.
  specialize (Hprobed entry d rvs rv v He Hd Hrvs Hrv Hv).
  exists evs. split; [done|]. split; [by eapply probed_discovered|].
  split; [by destruct Hacc as (_ & _ & ?)|]. split; [done|].
  intros Hnone.
  destruct Hprobed as (before & cmds & after & _ &
                       [(prev & restore & info & own & _ & _ & ? & ? & ? & ? & ? & ?)
                       |[(prev & restore & _ & _ & Hin)|(cmd & code & _ & _ & Hin)]]).
  - by exists info, own.
  - by destruct (Hnone _ Hin).
  - by destruct (Hnone _ Hin).
Qed.

End Dependencies.

(** ** Runs in the scripted world *)

Lemma inventory_succeeds table w cmd : return_code (Script.inventory table w cmd) = 0%Z.
Proof.
  unfold Script.inventory. destruct w as [|prev w]; [done|]. by destruct (find _ _).
Qed.

Lemma inventory_lists table parse solver hashes entry :
  inventory_entry (Script.externals (Script.inventory table) parse solver hashes) entry →
  entry ∈ table.*2.
Proof.
  intros (cmd & w & Hin). simpl in Hin. unfold Script.inventory in Hin.
  destruct w as [|prev w]; [by apply elem_of_nil in Hin|].
  destruct (find _ _) as [p|] eqn:Hf; [|by apply elem_of_nil in Hin].
  apply list_elem_of_singleton in Hin as ->. apply find_some in Hf as [Hp _].
  apply list_elem_of_fmap. exists p. split; [done|]. by apply list_elem_of_In.
Qed.

Lemma one_version_resolves respond parse known hashes source n vspec vs :
  resolved_by (Script.externals respond parse (Script.one_version known) hashes)
    source n vspec vs →
  vs = ["1.0"].
Proof.
  intros (w & key & Hs). simpl in Hs. unfold Script.one_version in Hs.
  by destruct (bool_decide _); [injection Hs as _ <-|].
Qed.

Lemma one_version_unambiguous respond parse known hashes :
  ¬ ambiguous_resolution
      (Script.externals respond parse (Script.one_version known) hashes).
Proof.
  intros (source & r & w & mapping & Hs & Hlen). simpl in Hs.
  unfold Script.one_version in Hs. destruct (bool_decide _); [|done].
  injection Hs as <-. done.
Qed.

Lemma parse_name_nonempty respond solver hashes requirement dependency :
  parses_to (Script.externals respond Script.parse_name solver hashes)
    requirement dependency →
  name dependency ≠ "".
Proof.
  intros [w Hp]. simpl in Hp. destruct requirement as [|c r]; [done|].
  injection Hp as <-. done.
Qed.

(** In the world where [a] needs [b], the only pair that the expansion
    can admit is [b] 1.0. *)
Lemma a_needs_b_pool transitive :
  pool Script.a_needs_b {[ ("b", "1.0") ]} transitive.
Proof.
  intros _ [n v] (entry & d & source & vs & Hentry & Hd & Hn & Hres & Hv).
  apply one_version_resolves in Hres as ->. apply list_elem_of_singleton in Hv.
  apply inventory_lists in Hentry. simpl in *. subst v.
  apply elem_of_cons in Hentry as [->|Hentry].
  - apply list_elem_of_singleton in Hd as ->. simpl in Hn. subst n. set_solver.
  - apply list_elem_of_singleton in Hentry as ->. by apply elem_of_nil in Hd.
Qed.

Lemma a_needs_b_quiet requirements index_urls python_version exclude_packages transitive e :
  ¬ propagates Script.a_needs_b requirements index_urls python_version exclude_packages
      transitive e.
Proof.
  intros (u & _ & He). destruct e as [msg|cmd code|msg|d]; simpl in He.
  - destruct He as [_ Ha]. by apply one_version_unambiguous in Ha.
  - destruct He as [_ (w & Hcode & Hne)]. simpl in Hcode.
    by rewrite inventory_succeeds in Hcode.
  - destruct He as ([n v] & [Hk|[_ Hk]] & Hn); simpl in Hn; subst n.
    + destruct Hk as (r & dep & vs & _ & Hp & _ & Hname & _).
      apply parse_name_nonempty in Hp. simpl in Hname. congruence.
    + destruct Hk as (entry & pd & source & vs & Hentry & Hd & Hname & _).
      apply inventory_lists in Hentry. simpl in *.
      apply elem_of_cons in Hentry as [->|Hentry].
      * by apply list_elem_of_singleton in Hd as ->.
      * apply list_elem_of_singleton in Hentry as ->. by apply elem_of_nil in Hd.
  - by destruct He as (source & n & v & w & Hh).
Qed.

(** C1: [foo] 1.0 is installed, then the inventory command of the
    inspection fails.  The trace of the pass ends with that command: no
    reinstall and no uninstall follows the install, and the failure is
    recorded as a command error. *)
Theorem restoration_skipped_when_inspection_raises :
  resolve Script.broken_inspection 5 ["foo"] [Script.pypi] 3 ∅ true Script.start
  = ({| world := [ "venv/bin/python3 -m pipdeptree --json";
                   Script.install_of "foo" +:+ "1.0 --index-url " +:+ dquote
                     +:+ Script.pypi +:+ dquote +:+ " ";
                   "venv/bin/python3 -m pipdeptree --json";
                   "venv/bin/python3 -m pipdeptree --json";
                   "venv/bin/python3 -m pip install pipdeptree";
                   "virtualenv -p python3 venv" ];
        trace := [ Run "virtualenv -p python3 venv";
                   Run "venv/bin/python3 -m pip install pipdeptree";
                   Run "venv/bin/python3 -m pipdeptree --json";
                   Discover Script.pypi "foo" "1.0";
                   Run "venv/bin/python3 -m pipdeptree --json";
                   Run (Script.install_of "foo" +:+ "1.0 --index-url " +:+ dquote
                        +:+ Script.pypi +:+ dquote +:+ " ");
                   Run "venv/bin/python3 -m pipdeptree --json" ] |},
     Return [ {| tree := [];
                 errors := [ {| err_package_name := "foo"; err_index := Script.pypi;
                                err_version := "1.0"; err_type := "command_error";
                                err_details :=
                                  CommandErrorDict
                                    "venv/bin/python3 -m pipdeptree --json" 1 |} ];
                 unparsed := []; unresolved := []; environment := [] |} ]).
Proof. vm_compute. reflexivity. Qed.

(** C2: the requirements [foo] and [foo] resolve to the same pair; the
    seed loop queues it twice and the pair is discovered twice. *)
Theorem seed_pair_probed_twice :
  discovered
    (trace (resolve Script.single_package 5 ["foo"; "foo"] [Script.pypi] 3 ∅ true
              Script.start).1)
  = [("foo", "1.0"); ("foo", "1.0")].
Proof. vm_compute. reflexivity. Qed.

(** C3 fails: [python_version] is 3 and the creation of the environment
    fails; [resolve] raises the [CommandError]. *)
Lemma failed_setup_raises :
  (resolve Script.no_environment 5 ["foo"] [Script.pypi] 3 ∅ true Script.start).2
  = Raise (CommandError "virtualenv -p python3 venv" 1).
Proof. vm_compute. reflexivity. Qed.

Lemma resolve_raises_only_uncaught_witness :
  ∃ fuel0, ∀ fuel, (fuel0 ≤ fuel)%nat →
    (resolve Script.a_needs_b fuel ["a"] [Script.pypi; Script.mirror] 3 {["b"]} true
       Script.start).2 ≠ OutOfFuel.
Proof.
  exact (proj1 (proj2 (proj2
           (resolve_raises_only_uncaught Script.a_needs_b {[ ("b", "1.0") ]} ["a"]
              [Script.pypi; Script.mirror] 3 {["b"]} true Script.start)))
           (a_needs_b_pool true)).
Defined.

(** A run that does not return: the environment cannot be created. *)
Lemma failed_setup_returns_nothing :
  ¬ ∃ fuel st' results,
      resolve Script.no_environment fuel ["foo"] [Script.pypi] 3 ∅ true Script.start
      = (st', Return results).
Proof. intros (fuel & st' & results & Hrun). vm_compute in Hrun. discriminate. Qed.

Lemma resolve_one_result_per_index_witness :
  ∃ fuel0, ∀ fuel, (fuel0 ≤ fuel)%nat →
    ∃ st' results,
      resolve Script.a_needs_b fuel ["a"] [Script.pypi; Script.mirror] 3 {["b"]} true
        Script.start = (st', Return results).
Proof.
  exact (proj2 (proj2
           (resolve_one_result_per_index Script.a_needs_b {[ ("b", "1.0") ]} ["a"]
              [Script.pypi; Script.mirror] 3 {["b"]} true Script.start))
           (a_needs_b_pool true) (or_intror eq_refl)
           (a_needs_b_quiet ["a"] [Script.pypi; Script.mirror] 3 {["b"]} true)).
Defined.

Lemma resolved_versions_one_per_index_witness :
  cross_resolved [Script.pypi; Script.mirror] (Script.b_of_a [Script.pypi; Script.mirror]).
Proof.
  apply (resolved_versions_one_per_index Script.a_needs_b 5 ["a"]
           [Script.pypi; Script.mirror] 3 {["b"]} true Script.start
           (resolve Script.a_needs_b 5 ["a"] [Script.pypi; Script.mirror] 3 {["b"]} true
              Script.start).1
           [ Script.a_and_b Script.pypi [Script.pypi; Script.mirror];
             Script.a_and_b Script.mirror [Script.pypi; Script.mirror] ]
           (Script.a_and_b Script.pypi [Script.pypi; Script.mirror])
           (Script.entry_a Script.pypi [Script.pypi; Script.mirror])).
  - vm_compute. reflexivity.
  - apply list_elem_of_here.
  - apply list_elem_of_here.
  - apply list_elem_of_here.
Defined.

(** C6 fails: [app] depends on [Foo] and on [foo]; both pairs are
    queued and discovered. *)
Lemma mixed_case_both_probed :
  lower "Foo" = lower "foo" ∧
  discovered
    (trace (resolve Script.mixed_case 5 ["app"] [Script.pypi] 3 ∅ true Script.start).1)
  = [("app", "1.0"); ("foo", "1.0"); ("Foo", "1.0")].
Proof. split; vm_compute; reflexivity. Qed.

Lemma visited_set_key_is_exact_witness :
  queue (admit_versions "foo" ["1.0"] (admit_versions "Foo" ["1.0"] initial_locals))
  = [("foo", "1.0"); ("Foo", "1.0")] ∧
  queue (admit_versions "Foo" ["1.0"] (admit_versions "Foo" ["1.0"] initial_locals))
  = [("Foo", "1.0")].
Proof.
  apply (visited_set_key_is_exact "Foo" "foo" "1.0" initial_locals).
  - reflexivity.
  - discriminate.
  - simpl. apply not_elem_of_empty.
  - simpl. apply not_elem_of_empty.
Defined.

Lemma non_transitive_probes_only_seeds_witness :
  ∃ evs,
    trace (_do_resolve_index Script.a_needs_b 5 (solver_of Script.pypi)
             [solver_of Script.pypi] ["a"] 3 ∅ false Script.start).1
    = trace Script.start ++ evs ∧
    Forall (seed_key Script.a_needs_b ["a"] ∅
              (release_fetcher_source (solver_of Script.pypi)))
           (discovered evs) ∧
    Forall (entry_of Script.a_needs_b
              (seed_key Script.a_needs_b ["a"] ∅
                 (release_fetcher_source (solver_of Script.pypi))))
           (tree (Script.only_a Script.pypi [Script.pypi])) ∧
    length (discovered evs)
    = (length (tree (Script.only_a Script.pypi [Script.pypi]))
       + length (errors (Script.only_a Script.pypi [Script.pypi])))%nat.
Proof.
  refine (proj2 (non_transitive_probes_only_seeds Script.a_needs_b 5
                   (solver_of Script.pypi) [solver_of Script.pypi] ["a"] 3 ∅
                   Script.start _ (Script.only_a Script.pypi [Script.pypi]) _)).
  vm_compute. reflexivity.
Defined.

Lemma excluded_dependency_is_probed_witness :
  ∃ evs,
    trace (_do_resolve_index Script.a_needs_b 5 (solver_of Script.pypi)
             [solver_of Script.pypi] ["a"] 3 {["b"]} true Script.start).1
    = trace Script.start ++ evs ∧
    (dep_package_name (Script.b_of_a [Script.pypi]), "1.0") ∈ discovered evs ∧
    length (discovered evs)
    = (length (tree (Script.a_and_b Script.pypi [Script.pypi]))
       + length (errors (Script.a_and_b Script.pypi [Script.pypi])))%nat ∧
    probed Script.a_needs_b (interpreter 3)
      (url (release_fetcher_source (solver_of Script.pypi))) evs
      (tree (Script.a_and_b Script.pypi [Script.pypi]))
      (errors (Script.a_and_b Script.pypi [Script.pypi]))
      (dep_package_name (Script.b_of_a [Script.pypi]), "1.0") ∧
    ((∀ err, err ∈ errors (Script.a_and_b Script.pypi [Script.pypi]) →
             ¬ (err_package_name err = dep_package_name (Script.b_of_a [Script.pypi]) ∧
                err_version err = "1.0")) →
     own_entry Script.a_needs_b (url (release_fetcher_source (solver_of Script.pypi)))
       (dep_package_name (Script.b_of_a [Script.pypi]))
       (tree (Script.a_and_b Script.pypi [Script.pypi]))).
Proof.
  refine (excluded_dependency_is_probed Script.a_needs_b 5 (solver_of Script.pypi)
            [solver_of Script.pypi] ["a"] 3 {["b"]} Script.start _
            (Script.a_and_b Script.pypi [Script.pypi])
            (Script.entry_a Script.pypi [Script.pypi]) (Script.b_of_a [Script.pypi])
            [ {| versions := ["1.0"]; index := Script.pypi |} ]
            {| versions := ["1.0"]; index := Script.pypi |} "1.0" _ _ _ _ _ _ _).
  - vm_compute. reflexivity.
  - apply list_elem_of_here.
  - apply list_elem_of_here.
  - apply elem_of_singleton. reflexivity.
  - reflexivity.
  - apply list_elem_of_here.
  - apply list_elem_of_here.
Defined.

Lemma exclusion_is_case_sensitive_witness :
  ∃ l',
    seed_requirement Script.single_package (solver_of Script.pypi) {["Foo"]}
      initial_locals "foo" Script.start
    = ({| world := []; trace := [] |}, Return l') ∧
    queue l' = [("foo", "1.0")] ∧
    packages_seen l' = {[ ("foo", "1.0") ]} ∪ ∅ ∪ ∅ ∧
    l_unresolved l' = [] ∧ l_unparsed l' = [].
Proof.
  refine (proj2 (exclusion_is_case_sensitive Script.single_package
                   (solver_of Script.pypi) {["Foo"]} initial_locals "foo" Script.start
                   [] {| name := "foo"; spec := [] |} "Foo" _ _ _ _)
                [] "foo" "1.0" [] _).
  - reflexivity.
  - apply elem_of_singleton. reflexivity.
  - reflexivity.
  - intros H%elem_of_singleton. discriminate.
  - reflexivity.
Defined.

(** ** The probe and the inventory *)
Section Probe.

Context {World : Type}.
Variable ext : Externals World.

Local Abbreviation ran := (ran ext).

Lemma run_command_ignoring_errors cmd (st : State World) :
  run_command ext cmd false st = (ran cmd st, Return (run_process ext cmd (world st)).2).
Proof. unfold run_command, ran. by destruct (run_process ext cmd (world st)). Qed.

(** X1: when the body of the [with] returns and cleaning is on,
    [_install_requirement] runs exactly one more command, the reinstall of
    the version found before the install or else the uninstall of the
    package, and returns what the body returned whatever the exit code of
    that command. *)
Theorem install_requirement_restores {B} python_bin package version idx
    (body : M World B) (st st1 st2 : State World) previous_version b cmd :
  _install_requirement_enter ext python_bin package version idx st
    = (st1, Return previous_version) →
  body st1 = (st2, Return b) →
  restore_command python_bin package previous_version = Some cmd →
  _install_requirement ext python_bin package version idx true body st
  = (ran cmd st2, Return b).
Proof.
  intros Henter Hbody Hcmd. unfold _install_requirement, with_.
  rewrite bind_run, Henter, bind_run, Hbody, bind_run.
  unfold _install_requirement_exit. simpl.
  destruct previous_version as [[|e out]|entry|]; simpl in *; try done;
    injection Hcmd as <-.
  - by rewrite bind_run, run_command_ignoring_errors.
  - rewrite bind_run. simpl. by rewrite bind_run, run_command_ignoring_errors.
  - by rewrite bind_run, run_command_ignoring_errors.
Qed.

Lemma lower_truthy n n' : lower n = lower n' → truthy n = truthy n'.
Proof. by destruct n, n'. Qed.

(** X2: [_pipdeptree] looks the package up without regard to letter case:
    two spellings of a name give the same result. *)
Theorem pipdeptree_ignores_case python_bin n n' (st : State World) :
  lower n = lower n' →
  _pipdeptree ext python_bin n st = _pipdeptree ext python_bin n' st.
Proof.
  intros Hl. unfold _pipdeptree. rewrite !bind_run.
  destruct (run_command _ _ _ _) as [st' [result| |]]; [|done..].
  rewrite (lower_truthy _ _ Hl). destruct (truthy n'); simpl; [|done].
  by rewrite Hl.
Qed.

(** X3: when the inventory command succeeds, [_pipdeptree] for a non-empty
    name returns the first entry of the output that matches the name, and
    [None] exactly when no entry matches. *)
Theorem pipdeptree_first_match python_bin n (st : State World) :
  n ≠ "" →
  return_code (run_process ext (python_bin +:+ " -m pipdeptree --json") (world st)).2
    = 0%Z →
  let output :=
    stdout (run_process ext (python_bin +:+ " -m pipdeptree --json") (world st)).2 in
  ((_pipdeptree ext python_bin n st).2 = Return NoEntry ∧
   ∀ entry, entry ∈ output → ¬ matches n entry) ∨
  (∃ before entry rest,
     (_pipdeptree ext python_bin n st).2 = Return (FoundEntry entry) ∧
     output = before ++ entry :: rest ∧ matches n entry ∧
     ∀ e, e ∈ before → ¬ matches n e).
Proof.
  intros Hn Hrc output. unfold _pipdeptree. rewrite bind_run. unfold run_command.
  subst output.
  destruct (run_process ext _ (world st)) as [w' result]. simpl in *.
  rewrite Hrc. assert (Ht : truthy n = true) by (by destruct n).
  cbn [andb negb Z.eqb]. rewrite Ht. cbn [negb].
  induction (stdout result) as [|e out IH].
  - left. split; [done|]. by intros entry Hin%elem_of_nil.
  - cbn [find]. destruct (String.eqb_spec (lower (pip_key (pip_package e)))
                            (lower n)) as [Heq|Hne].
    + right. exists [], e, out. split; [done|]. split; [done|]. split; [done|].
      by intros e' Hin%elem_of_nil.
    + destruct IH as [[Hres Hnone]|(before & entry & rest & Hres & -> & Hm & Hb)].
      * left. split; [done|]. intros entry [->|Hin]%elem_of_cons; [done | by apply Hnone].
      * right. exists (e :: before), entry, rest. split; [done|]. split; [done|].
        split; [done|]. intros e' [->|Hin]%elem_of_cons; [done | by apply Hb].
Qed.

(** X4: [_filter_package_dependencies] maps a name to the required version
    of the last dependency of that name, and holds no other name. *)
Theorem filter_package_dependencies_last_wins (package_info : PipEntry) (n : string) :
  _filter_package_dependencies package_info !! n
  = pd_required_version
      <$> last (filter (λ d, pd_package_name d = n) (pip_dependencies package_info)).
Proof.
  unfold _filter_package_dependencies.
  induction (pip_dependencies package_info) as [|d deps IH] using rev_ind; [done|].
  rewrite foldl_snoc, filter_app. destruct (decide (pd_package_name d = n)) as [Hd|Hd].
  - rewrite Hd, lookup_insert_eq. rewrite filter_cons_True by done.
    by rewrite filter_nil, last_snoc.
  - rewrite lookup_insert_ne by done. rewrite filter_cons_False by done.
    by rewrite filter_nil, app_nil_r.
Qed.

Lemma for_each_snapshot (output : list PipEntry) acc (st : State World) :
  for_each output
    (λ acc entry, bind (_create_entry ext entry None) (λ e, ret (acc ++ [e]))) acc st
  = (st, Return (acc ++ map snapshot_entry output)).
Proof.
  revert acc. induction output as [|entry output IH]; intros acc; simpl.
  - by rewrite app_nil_r.
  - rewrite bind_run. simpl. rewrite IH. by rewrite <- app_assoc.
Qed.

(** X5: [_get_environment_details] runs the inventory command once; when it
    succeeds the snapshot has one entry per entry of the output, in the
    same order, without index, hashes or resolved versions, and no hash is
    looked up; when it fails the [CommandError] is raised. *)
Theorem get_environment_details_lists_inventory python_bin (st : State World) :
  let cmd := python_bin +:+ " -m pipdeptree --json" in
  let result := (run_process ext cmd (world st)).2 in
  _get_environment_details ext python_bin st
  = (ran cmd st,
     if Z.eqb (return_code result) 0
     then Return (map snapshot_entry (stdout result))
     else Raise (CommandError cmd (return_code result))).
Proof.
  intros cmd result. unfold _get_environment_details. rewrite bind_run.
  unfold run_command, ran. subst result. fold cmd.
  destruct (run_process ext cmd (world st)) as [w' r]. simpl.
  destruct (Z.eqb (return_code r) 0); simpl; [|done].
  by rewrite for_each_snapshot.
Qed.

End Probe.

(** ** More on the traversal *)
Section MoreTraversal.

Context {World : Type}.
Variable ext : Externals World.

Local Open Scope nat_scope.

Local Abbreviation post := (@post World _).
Local Abbreviation discovers := (discovers ext).
Local Abbreviation dependency_key := (dependency_key ext).
Local Abbreviation queued_key := (queued_key ext).
Local Abbreviation seed_key := (seed_key ext).
Local Abbreviation unparsed_of := (unparsed_of ext).
Local Abbreviation unresolved_of := (unresolved_of ext).

Lemma discovers_not_transitive all_solvers idx n v l l' :
  discovers false all_solvers idx n v l l' →
  packages_seen l' = packages_seen l ∧ queue l' = queue l.
Proof.
  by intros [(err & -> & _)|(info & entry & l1 & _ & _ & -> & _ & _ & _ & _ & ->)].
Qed.

(** X6: the expansion of one dependency at one index queues each version
    that is new to the visited-set exactly once, in front of the queue,
    also when the resolved list repeats it; afterwards the visited-set
    holds every resolved version. *)
Theorem admit_versions_queues_unseen_once (n : string) (vs : list string) (l : Locals) :
  ∃ new,
    queue (admit_versions n vs l) = new ++ queue l ∧ NoDup new ∧
    (∀ k, k ∈ new ↔ ∃ v, k = (n, v) ∧ v ∈ vs ∧ (n, v) ∉ packages_seen l) ∧
    packages_seen (admit_versions n vs l) = packages_seen l ∪ list_to_set ((n,.) <$> vs) ∧
    packages (admit_versions n vs l) = packages l ∧
    l_errors (admit_versions n vs l) = l_errors l.
Proof.
  assert (Hadm : admits (λ k, ∃ v, k = (n, v) ∧ v ∈ vs) l (admit_versions n vs l)).
  { apply admit_versions_admits. eauto. }
  destruct (admit_versions_seen n vs l) as [Hsub Hin].
  pose proof (admits_frame _ _ _ Hadm) as (Hp & He & _).
  apply admits_queue in Hadm as (new & Hq & Hs & HP & Hnew & Hnd).
  rewrite Forall_forall in HP. rewrite Forall_forall in Hnew.
  exists new. split; [done|]. split; [done|]. split; [|split; [|done]].
  - intros k. split.
    + intros Hk. destruct (HP k Hk) as (v & -> & Hv). exists v. split; [done|].
      split; [done | by apply Hnew].
    + intros (v & -> & Hv & Hseen). specialize (Hin v Hv). rewrite Hs in Hin.
      apply elem_of_union in Hin as [Hin|Hin]; [|done]. by apply elem_of_list_to_set in Hin.
  - apply set_eq. intros k. rewrite Hs, !elem_of_union, !elem_of_list_to_set. split.
    + intros [Hk|Hk]; [|by left]. right. destruct (HP k Hk) as (v & -> & Hv).
      apply list_elem_of_fmap. eauto.
    + intros [Hk|Hk]; [by right|]. apply list_elem_of_fmap in Hk as (v & -> & Hv).
      specialize (Hin v Hv). rewrite Hs in Hin.
      by apply elem_of_union in Hin as [?%elem_of_list_to_set|?]; [left | right].
Qed.

(** X7: a discovery that returns adds exactly one record, to [tree] or to
    [errors]; when it adds no entry (the install or the inspection failed,
    or the inventory has no such package) the queue and the visited-set
    are left alone: the dependencies of that package are not explored. *)
Theorem failed_discovery_expands_nothing solver all_solvers python_bin transitive n v l
    (st st' : State World) l' :
  discover ext solver all_solvers python_bin transitive n v l st = (st', Return l') →
  length (packages l') + length (l_errors l') = S (length (packages l) + length (l_errors l)) ∧
  (packages l' = packages l →
   queue l' = queue l ∧ packages_seen l' = packages_seen l ∧
   ∃ err, l_errors l' = l_errors l ++ [err] ∧
          err_package_name err = n ∧ err_version err = v ∧
          err_index err = url (release_fetcher_source solver)).
Proof.
  intros Hrun.
  destruct (post_discover ext solver all_solvers python_bin transitive n v l st)
    as (evs & _ & _ & Hd).
  rewrite Hrun in Hd. simpl in Hd.
  destruct Hd as [(err & -> & Hn & Hv & Hi)
                 |(info & entry & l1 & _ & _ & -> & _ & _ & _ & _ & Hadm)]; simpl.
  - rewrite length_app. simpl. split; [lia|]. intros _. eauto 10.
  - assert (packages l1 = packages l ∧ l_errors l1 = l_errors l) as [Hp He].
    { destruct transitive; [|by subst]. by apply admits_frame in Hadm as (? & ? & _). }
    rewrite Hp, He, length_app. simpl. split; [lia|].
    intros Heq. apply (f_equal length) in Heq. rewrite length_app in Heq. simpl in Heq. lia.
Qed.

(** X8: the queue is a stack: a pass that is not transitive discovers the
    queued pairs latest first (the queue is kept right end first), needs
    no more turns than there are pairs, and leaves the visited-set as it
    was. *)
Theorem non_transitive_drain_is_lifo fuel solver all_solvers python_bin l
    (st : State World) :
  length (queue l) ≤ fuel →
  (drain ext fuel solver all_solvers python_bin false l st).2 ≠ OutOfFuel ∧
  ∀ st' l',
    drain ext fuel solver all_solvers python_bin false l st = (st', Return l') →
    ∃ evs, trace st' = trace st ++ evs ∧ discovered evs = queue l ∧
           queue l' = [] ∧ packages_seen l' = packages_seen l.
Proof.
  intros Hfuel.
  destruct (post_drain ext solver all_solvers python_bin false
              (λ f evs l1, discovered evs ++ queue l1 = queue l ∧
                           packages_seen l1 = packages_seen l ∧ length (queue l1) ≤ f)
              fuel l) with (st := st) as (evs & Ht & Hres).
  { done. }
  { intros f evs l1 n v q cmds l2 (Hd & Hs & Hlen) Hq Hcmds Hstep.
    apply discovers_not_transitive in Hstep as [Hs2 Hq2]. simpl in *.
    rewrite (discovered_step _ _ _ _ _ _ Hcmds), Hq2, Hs2, Hq. simpl.
    rewrite Hq in Hd, Hlen. simpl in Hlen. rewrite <- app_assoc. split; [done|].
    split; [done | lia]. }
  split.
  - intros Hout. rewrite Hout in Hres. destruct Hres as (l0 & (_ & _ & Hlen) & Hq).
    destruct (queue l0); [done | simpl in Hlen; lia].
  - intros st' l' Hrun. rewrite Hrun in Ht, Hres. simpl in *.
    destruct Hres as (f & (Hd & Hs & _) & Hq). exists evs. rewrite Hq, app_nil_r in Hd.
    done.
Qed.

(** X9: from a queue of distinct pairs that are all in the visited-set, the
    traversal discovers no pair twice, and discovers every queued pair. *)
Theorem distinct_pairs_discovered_once fuel solver all_solvers python_bin transitive l
    (st st' : State World) l' :
  NoDup (queue l) → (∀ k, k ∈ queue l → k ∈ packages_seen l) →
  drain ext fuel solver all_solvers python_bin transitive l st = (st', Return l') →
  ∃ evs, trace st' = trace st ++ evs ∧ NoDup (discovered evs) ∧
         ∀ k, k ∈ queue l → k ∈ discovered evs.
Proof.
  intros Hnd Hseen Hrun.
  destruct (post_drain ext solver all_solvers python_bin transitive
              (λ _ evs l1,
                 NoDup (discovered evs ++ queue l1) ∧
                 (∀ k, k ∈ discovered evs ++ queue l1 → k ∈ packages_seen l1) ∧
                 (∀ k, k ∈ queue l → k ∈ discovered evs ++ queue l1))
              fuel l) with (st := st) as (evs & Ht & Hres).
  { done. }
  { intros _ evs l1 n v q cmds l2 (Hnd1 & Hs1 & Hall) Hq Hcmds Hstep.
    rewrite (discovered_step _ _ _ _ _ _ Hcmds). rewrite Hq in Hnd1, Hs1, Hall.
    assert (Hsame : queue l2 = q ∧ packages_seen l2 = packages_seen l1 →
              NoDup ((discovered evs ++ [(n, v)]) ++ queue l2) ∧
              (∀ k, k ∈ (discovered evs ++ [(n, v)]) ++ queue l2 → k ∈ packages_seen l2) ∧
              (∀ k, k ∈ queue l → k ∈ (discovered evs ++ [(n, v)]) ++ queue l2)).
    { intros [-> ->]. rewrite <- app_assoc. done. }
    destruct Hstep as [(err & -> & _)
                      |(info & entry & l3 & _ & _ & -> & _ & _ & _ & _ & Hadm)].
    - apply Hsame. simpl. by rewrite Hq.
    - destruct transitive; [|subst l3; apply Hsame; simpl; by rewrite Hq].
      apply admits_queue in Hadm as (new & Hq3 & Hs3 & _ & Hnew & Hndnew).
      simpl in *. rewrite Hq in Hq3. simpl in Hq3. rewrite Hq3, Hs3.
      rewrite Forall_forall in Hnew.
      rewrite <- app_assoc. simpl.
      assert (Hperm : discovered evs ++ (n, v) :: new ++ q
                      ≡ₚ new ++ discovered evs ++ (n, v) :: q).
      { rewrite (Permutation_middle new q (n, v)).
        rewrite !app_assoc. by rewrite (Permutation_app_comm (discovered evs) new). }
      split; [|split].
      + rewrite Hperm. apply NoDup_app. split; [done|]. split; [|done].
        intros k Hk Hk'. by apply (Hnew k Hk), Hs1.
      + intros k Hk. rewrite Hperm in Hk. apply elem_of_app in Hk as [Hk|Hk].
        * apply elem_of_union. left. by apply elem_of_list_to_set.
        * apply elem_of_union. right. by apply Hs1.
      + intros k Hk. rewrite Hperm. apply elem_of_app. right. by apply Hall. }
  rewrite Hrun in Ht, Hres. simpl in *.
  destruct Hres as (f & (Hnd' & _ & Hall) & Hq). rewrite Hq, app_nil_r in *.
  by exists evs.
Qed.

(** X10: every record of a returned pass belongs to the pass's own index:
    every discovery is logged with it, every entry of [tree] carries it as
    [index_url], and every error carries it and names a discovered pair. *)
Theorem pass_records_carry_own_index fuel solver all_solvers requirements python_version
    exclude_packages transitive (st st' : State World) r :
  _do_resolve_index ext fuel solver all_solvers requirements python_version
    exclude_packages transitive st = (st', Return r) →
  ∃ evs,
    trace st' = trace st ++ evs ∧
    Forall (discovered_from (url (release_fetcher_source solver))) evs ∧
    Forall (λ e, index_url e = Some (url (release_fetcher_source solver))) (tree r) ∧
    Forall (λ err, err_index err = url (release_fetcher_source solver) ∧
                   (err_package_name err, err_version err) ∈ discovered evs)
           (errors r).
Proof.
  intros Hrun.
  destruct (post_do_resolve_index ext fuel solver all_solvers requirements python_version
              exclude_packages transitive
              (λ _ evs l,
                 Forall (discovered_from (url (release_fetcher_source solver))) evs ∧
                 Forall (λ e, index_url e = Some (url (release_fetcher_source solver)))
                        (packages l) ∧
                 Forall (λ err, err_index err = url (release_fetcher_source solver) ∧
                                (err_package_name err, err_version err) ∈ discovered evs)
                        (l_errors l))) with (st := st) as (evs & Ht & Hres).
  { intros l0 (Hp & He & _)%seeds_initial. rewrite Hp, He. by repeat constructor. }
  { intros _ evs l n v q cmds l' (Hev & Hpk & Herr) Hq Hcmds Hd.
    rewrite (discovered_step _ _ _ _ _ _ Hcmds).
    assert (Herr' : Forall (λ err, err_index err = url (release_fetcher_source solver) ∧
                      (err_package_name err, err_version err)
                      ∈ discovered evs ++ [(n, v)]) (l_errors l)).
    { eapply Forall_impl; [exact Herr|]. intros err [? ?]. split; [done|].
      apply elem_of_app. by left. }
    split; [|split].
    - apply Forall_app. split; [done|]. constructor; [done|].
      eapply Forall_impl; [exact Hcmds|]. by intros ev [rest ->].
    - destruct Hd as [(err & -> & _)
                     |(info & entry & l1 & _ & _ & -> & _ & _ & Hurl & _ & Hadm)]; [done|].
      simpl. assert (packages l1 = packages l) as ->.
      { destruct transitive; [|by subst]. by apply admits_frame in Hadm as (? & _). }
      apply Forall_app. split; [done | by constructor].
    - destruct Hd as [(err & -> & Hn & Hv & Hi)
                     |(info & entry & l1 & _ & _ & -> & _ & _ & _ & _ & Hadm)]; simpl.
      + apply Forall_app. split; [done|]. constructor; [|done]. split; [done|].
        rewrite Hn, Hv. apply elem_of_app. right. by apply list_elem_of_singleton.
      + assert (l_errors l1 = l_errors l) as ->; [|done].
        destruct transitive; [|by subst]. by apply admits_frame in Hadm as (_ & ? & _). }
  rewrite Hrun in Ht, Hres. simpl in *.
  destruct Hres as (evs' & -> & _ & f & devs & l & -> & (Hev & Hpk & Herr) & _ & -> & -> & _).
  eexists. split; [done|]. split; [by repeat constructor|]. done.
Qed.

(** X11: a name in [exclude_packages] is never probed as a seed: a discovery
    of a pair with an excluded name happens only in a transitive pass, for
    a pair that a dependency of an inventory entry resolved to. *)
Theorem excluded_name_never_seeded fuel solver all_solvers requirements python_version
    exclude_packages transitive (st st' : State World) r :
  _do_resolve_index ext fuel solver all_solvers requirements python_version
    exclude_packages transitive st = (st', Return r) →
  ∃ evs,
    trace st' = trace st ++ evs ∧
    ∀ n v, (n, v) ∈ discovered evs → n ∈ exclude_packages →
           transitive = true ∧ dependency_key (n, v).
Proof.
  intros Hrun.
  destruct (post_accounting ext fuel solver all_solvers requirements python_version
              exclude_packages transitive st) as (evs & Ht & Hacc).
  rewrite Hrun in Ht, Hacc. simpl in *. destruct Hacc as (Hdisc & _).
  exists evs. split; [done|]. intros n v Hin Hex.
  rewrite Forall_forall in Hdisc.
  destruct (Hdisc _ Hin) as [(req & dep & vs & _ & _ & Hne & Hname & _)|Hdep]; [|done].
  simpl in Hname. by subst n.
Qed.

Lemma fold_enqueue_frame n vs l :
  l_unparsed (fold_left (λ l version, enqueue (n, version) l) vs l) = l_unparsed l ∧
  l_unresolved (fold_left (λ l version, enqueue (n, version) l) vs l) = l_unresolved l.
Proof.
  revert l. induction vs as [|v vs IH]; intros l; [done|]. simpl.
  by destruct (IH (enqueue (n, v) l)) as [-> ->].
Qed.

Lemma post_seed_records solver exclude_packages requirements l requirement :
  requirement ∈ requirements →
  Forall (unparsed_of requirements) (l_unparsed l) →
  Forall (unresolved_of requirements exclude_packages (release_fetcher_source solver))
         (l_unresolved l) →
  post (seed_requirement ext solver exclude_packages l requirement)
    (λ _ o,
       match o with
       | Return l' =>
           Forall (unparsed_of requirements) (l_unparsed l') ∧
           Forall (unresolved_of requirements exclude_packages
                     (release_fetcher_source solver)) (l_unresolved l')
       | _ => True
       end).
Proof.
  intros Hin Hup Hur. unfold seed_requirement. apply post_bind, post_call. intros w. simpl.
  destruct (parse_python ext requirement w).2 as [exc_str|dependency] eqn:Hp.
  - apply post_ret. simpl. split; [|done]. apply Forall_app. split; [done|].
    constructor; [|done]. split; [done|]. by exists w.
  - case_decide as Hex; [by apply post_ret|].
    apply post_bind. eapply post_mono; [apply post_resolve_versions|].
    intros evs [vs|e|]; simpl; [|done..].
    intros [-> Hvs]. destruct vs as [|v vs'].
    + apply post_ret. simpl. split; [done|]. apply Forall_app. split; [done|].
      constructor; [|done]. split; [done|]. exists requirement, dependency.
      repeat split; try done. by exists w.
    + apply post_ret.
      destruct (fold_enqueue_frame (name dependency) (v :: vs') l) as [-> ->]. done.
Qed.

(** X12: the [unparsed] and [unresolved] records of a returned pass come from
    the seed loop alone: each unparsed record is a requirement of the
    input with the parser's own failure text, each unresolved record names
    a parsed, not excluded requirement with its range expression and the
    index of the pass. *)
Theorem seed_records_come_from_requirements fuel solver all_solvers requirements
    python_version exclude_packages transitive (st st' : State World) r :
  _do_resolve_index ext fuel solver all_solvers requirements python_version
    exclude_packages transitive st = (st', Return r) →
  Forall (unparsed_of requirements) (unparsed r) ∧
  Forall (unresolved_of requirements exclude_packages (release_fetcher_source solver))
         (unresolved r).
Proof.
  intros Hrun. unfold _do_resolve_index in Hrun. rewrite bind_run in Hrun.
  destruct (run_command ext _ true st) as [st1 [r1|e1|]]; [|done..].
  rewrite bind_run in Hrun.
  destruct (run_command ext _ true st1) as [st2 [r2|e2|]]; [|done..].
  rewrite bind_run in Hrun.
  pose proof (@post_for_each World string Locals requirements
                (seed_requirement ext solver exclude_packages)
                (λ _ _ l, Forall (unparsed_of requirements) (l_unparsed l) ∧
                          Forall (unresolved_of requirements exclude_packages
                                    (release_fetcher_source solver)) (l_unresolved l))
                (λ _ o, match o with
                        | Return l =>
                            Forall (unparsed_of requirements) (l_unparsed l) ∧
                            Forall (unresolved_of requirements exclude_packages
                                      (release_fetcher_source solver)) (l_unresolved l)
                        | _ => True
                        end)
                initial_locals) as Hseed.
  destruct Hseed with (st := st2) as (evs0 & _ & Hl0).
  { by split. }
  { intros done x rest evs l Hl [Hup Hur].
    eapply post_mono; [apply (post_seed_records solver exclude_packages requirements l x);
                       [rewrite Hl; set_solver | done | done]|].
    by intros evs' [l'| |]. }
  { done. }
  destruct (for_each requirements _ initial_locals st2) as [st3 [l0|e3|]]; [|done..].
  simpl in Hl0. rewrite bind_run in Hrun.
  destruct (_get_environment_details ext _ st3) as [st4 [env|e4|]]; [|done..].
  rewrite bind_run in Hrun.
  destruct (post_drain ext solver all_solvers (interpreter python_version) transitive
              (λ _ _ l, Forall (unparsed_of requirements) (l_unparsed l) ∧
                        Forall (unresolved_of requirements exclude_packages
                                  (release_fetcher_source solver)) (l_unresolved l))
              fuel l0 Hl0) with (st := st4) as (evs & _ & Hres).
  { intros _ _ l n v q cmds l' Hinv _ _ Hd. apply discovers_frame in Hd as [-> ->]. done. }
  unfold interpreter in Hres.
  destruct (drain ext fuel solver all_solvers _ transitive l0 st4) as [st5 [l'|e5|]];
    [|done..].
  injection Hrun as _ <-. simpl in *. by destruct Hres as (_ & ? & _).
Qed.

(** X13: when no requirement yields a seed (the list is empty, or every
    requirement is unparsable, excluded or resolves to nothing), a returned
    pass has run its three setup commands and nothing else: no package is
    probed, [tree] and [errors] are empty. *)
Theorem pass_without_seeds_probes_nothing fuel solver all_solvers requirements
    python_version exclude_packages transitive (st st' : State World) r :
  (∀ k, ¬ seed_key requirements exclude_packages (release_fetcher_source solver) k) →
  _do_resolve_index ext fuel solver all_solvers requirements python_version
    exclude_packages transitive st = (st', Return r) →
  trace st' = trace st ++ map Run (setup_commands (interpreter python_version)) ∧
  tree r = [] ∧ errors r = [].
Proof.
  intros Hnone Hrun.
  destruct (post_do_resolve_index ext fuel solver all_solvers requirements python_version
              exclude_packages transitive
              (λ _ evs l, evs = [] ∧ queue l = [] ∧ packages l = [] ∧ l_errors l = []))
    with (st := st) as (evs & Ht & Hres).
  { intros l0 (Hp & He & new & Hq & Hnew & _)%seeds_initial.
    destruct new as [|k new]; [by rewrite Hq, Hp, He|].
    apply Forall_cons in Hnew as [Hk _]. by apply Hnone in Hk. }
  { intros _ evs l n v q cmds l' (_ & Hq' & _) Hq. by rewrite Hq in Hq'. }
  rewrite Hrun in Ht, Hres. simpl in *.
  destruct Hres as (evs' & -> & _ & f & devs & l & -> & (-> & _ & Hp & He) & _ & -> & -> & _).
  by rewrite Ht.
Qed.

End MoreTraversal.

(** ** Runs for the further properties *)

Lemma install_requirement_restores_witness :
  ∃ st2 b,
    _install_requirement Script.single_package "venv/bin/python3" "foo" (Some "1.0")
      (Some Script.pypi) true (_pipdeptree Script.single_package "venv/bin/python3" "foo")
      Script.start
    = (ran Script.single_package "venv/bin/python3 -m pip uninstall --yes foo" st2,
       Return b).
Proof.
  eexists _, _.
  eapply (install_requirement_restores Script.single_package "venv/bin/python3" "foo"
            (Some "1.0") (Some Script.pypi)).
  - vm_compute. reflexivity.
  - vm_compute. reflexivity.
  - vm_compute. reflexivity.
Defined.

Lemma pipdeptree_ignores_case_witness :
  _pipdeptree Script.single_package "venv/bin/python3" "FOO" Script.foo_installed
  = _pipdeptree Script.single_package "venv/bin/python3" "foo" Script.foo_installed.
Proof.
  apply (pipdeptree_ignores_case Script.single_package "venv/bin/python3" "FOO" "foo"
           Script.foo_installed).
  reflexivity.
Defined.

Lemma pipdeptree_first_match_witness :
  ∃ entry,
    (_pipdeptree Script.single_package "venv/bin/python3" "FOO" Script.foo_installed).2
    = Return (FoundEntry entry) ∧
    matches "FOO" entry.
Proof.
  destruct (pipdeptree_first_match Script.single_package "venv/bin/python3" "FOO"
              Script.foo_installed)
    as [[H _]|(before & entry & rest & H & _ & Hm & _)].
  - discriminate.
  - reflexivity.
  - vm_compute in H. discriminate.
  - by exists entry.
Defined.

Lemma failed_discovery_expands_nothing_witness :
  let run := discover Script.broken_inspection (solver_of Script.pypi)
               [solver_of Script.pypi] "venv/bin/python3" true "foo" "1.0"
               initial_locals Script.start in
  ∃ l', run.2 = Return l' ∧ queue l' = [] ∧ packages_seen l' = ∅ ∧
        length (l_errors l') = 1%nat.
Proof.
  intros run.
  destruct run as [st' [l'| |]] eqn:Hrun; [|vm_compute in Hrun; discriminate..].
  destruct (failed_discovery_expands_nothing Script.broken_inspection
              (solver_of Script.pypi) [solver_of Script.pypi] "venv/bin/python3" true
              "foo" "1.0" initial_locals Script.start st' l' Hrun) as [_ Hkeep].
  assert (Hp : packages l' = []).
  { vm_compute in Hrun. by injection Hrun as _ <-. }
  destruct (Hkeep Hp) as (Hq & Hs & err & He & _).
  exists l'. rewrite He. done.
Defined.

Lemma non_transitive_drain_is_lifo_witness :
  (drain Script.a_needs_b 2 (solver_of Script.pypi) [solver_of Script.pypi]
     "venv/bin/python3" false (Script.queued [("b", "1.0"); ("a", "1.0")])
     Script.start).2 ≠ OutOfFuel.
Proof.
  apply (non_transitive_drain_is_lifo Script.a_needs_b 2 (solver_of Script.pypi)
           [solver_of Script.pypi] "venv/bin/python3"
           (Script.queued [("b", "1.0"); ("a", "1.0")]) Script.start).
  simpl. lia.
Defined.

Lemma distinct_pairs_discovered_once_witness :
  let run := drain Script.a_needs_b 5 (solver_of Script.pypi) [solver_of Script.pypi]
               "venv/bin/python3" true (Script.queued [("a", "1.0")]) Script.start in
  ∃ evs, trace run.1 = trace Script.start ++ evs ∧ NoDup (discovered evs) ∧
         ∀ k, k ∈ [("a", "1.0")] → k ∈ discovered evs.
Proof.
  intros run.
  refine (distinct_pairs_discovered_once Script.a_needs_b 5 (solver_of Script.pypi)
            [solver_of Script.pypi] "venv/bin/python3" true
            (Script.queued [("a", "1.0")]) Script.start run.1
            (match run.2 with Return l' => l' | _ => initial_locals end) _ _ _).
  - apply NoDup_singleton.
  - intros k Hk. apply elem_of_list_to_set. exact Hk.
  - vm_compute. reflexivity.
Defined.

Lemma pass_records_carry_own_index_witness :
  ∃ evs,
    trace (_do_resolve_index Script.a_needs_b 5 (solver_of Script.mirror)
             [solver_of Script.pypi; solver_of Script.mirror] ["a"] 3 ∅ true
             Script.start).1
    = trace Script.start ++ evs ∧
    Forall (discovered_from (url (release_fetcher_source (solver_of Script.mirror)))) evs ∧
    Forall (λ e, index_url e = Some (url (release_fetcher_source (solver_of Script.mirror))))
           (tree (Script.a_and_b Script.mirror [Script.pypi; Script.mirror])) ∧
    Forall (λ err, err_index err = url (release_fetcher_source (solver_of Script.mirror)) ∧
                   (err_package_name err, err_version err) ∈ discovered evs)
           (errors (Script.a_and_b Script.mirror [Script.pypi; Script.mirror])).
Proof.
  refine (pass_records_carry_own_index Script.a_needs_b 5 (solver_of Script.mirror)
            [solver_of Script.pypi; solver_of Script.mirror] ["a"] 3 ∅ true Script.start
            _ (Script.a_and_b Script.mirror [Script.pypi; Script.mirror]) _).
  vm_compute. reflexivity.
Defined.

Lemma excluded_name_never_seeded_witness :
  ∃ evs,
    trace (_do_resolve_index Script.a_needs_b 5 (solver_of Script.pypi)
             [solver_of Script.pypi] ["a"; "b"] 3 {["b"]} true Script.start).1
    = trace Script.start ++ evs ∧
    ∀ n v, (n, v) ∈ discovered evs → n ∈ ({["b"]} : gset string) →
           true = true ∧ dependency_key Script.a_needs_b (n, v).
Proof.
  refine (excluded_name_never_seeded Script.a_needs_b 5 (solver_of Script.pypi)
            [solver_of Script.pypi] ["a"; "b"] 3 {["b"]} true Script.start
            _ (Script.a_and_b Script.pypi [Script.pypi]) _).
  vm_compute. reflexivity.
Defined.

Lemma seed_records_come_from_requirements_witness :
  Forall (unparsed_of Script.single_package [""; "zzz"])
         (unparsed (Script.nothing_queued Script.pypi)) ∧
  Forall (unresolved_of Script.single_package [""; "zzz"] ∅
            (release_fetcher_source (solver_of Script.pypi)))
         (unresolved (Script.nothing_queued Script.pypi)).
Proof.
  refine (seed_records_come_from_requirements Script.single_package 5
            (solver_of Script.pypi) [solver_of Script.pypi] [""; "zzz"] 3 ∅ true
            Script.start
            (_do_resolve_index Script.single_package 5 (solver_of Script.pypi)
               [solver_of Script.pypi] [""; "zzz"] 3 ∅ true Script.start).1
            (Script.nothing_queued Script.pypi) _).
  vm_compute. reflexivity.
Defined.

Lemma pass_without_seeds_probes_nothing_witness :
  trace (_do_resolve_index Script.single_package 5 (solver_of Script.pypi)
           [solver_of Script.pypi] [""; "zzz"] 3 ∅ true Script.start).1
  = trace Script.start ++ map Run (setup_commands (interpreter 3)) ∧
  tree (Script.nothing_queued Script.pypi) = [] ∧
  errors (Script.nothing_queued Script.pypi) = [].
Proof.
  refine (pass_without_seeds_probes_nothing Script.single_package 5
            (solver_of Script.pypi) [solver_of Script.pypi] [""; "zzz"] 3 ∅ true
            Script.start _ (Script.nothing_queued Script.pypi) _ _).
  - intros [n v] (r & dep & vs & Hr & [w Hp] & _ & Hname & (w' & key & Hs) & Hv).
    simpl in *. apply elem_of_cons in Hr as [->|Hr]; [done|].
    apply list_elem_of_singleton in Hr as ->. injection Hp as <-. simpl in Hs.
    vm_compute in Hs. discriminate.
  - vm_compute. reflexivity.
Defined.
